(** * Social automation: slot allocator, publication coordinator, bulk scheduler

    A shallow embedding of
      - [src/utils/schedule.ts]            (the slot allocator),
      - [functions/src/index.ts]           (media upload, publication, manual
                                            publish, the lock transactions,
                                            the sweep, provisioning; the two
                                            publication paths also one awaited
                                            operation at a time),
      - [functions/src/config.ts]          (the application credentials),
      - [src/services/bulkUploadService.ts] (the bulk scheduler),
      - [src/services/mediaService.ts]     (the media upload of the client),
    followed by the properties the specification states about them. *)

From stdpp Require Import base numbers list strings gmap pretty sorting.
From Stdlib Require Import ZArith Lia Ascii.

Local Open Scope string_scope.
Local Open Scope Z_scope.
Local Open Scope list_scope.

(** ** What a JavaScript function can do: return or throw *)

(** The codes of [functions.https.HttpsError] the functions use. *)
Inductive HttpsErrorCode :=
| unauthenticated
| invalid_argument
| not_found
| permission_denied
| failed_precondition
| internal.

(** A thrown value.  [HttpsError] extends [Error]; a thrown value that is not
    an [Error] instance has no [message] the handlers could read. *)
Inductive Exn :=
| JsError (message : string)
| HttpsError (code : HttpsErrorCode) (message : string)
| ThrownValue.

Inductive Result (A : Type) :=
| Ok (a : A)
| Throw (e : Exn).
Arguments Ok {A} a.
Arguments Throw {A} e.

Definition is_ok {A} (r : Result A) : bool :=
  match r with Ok _ => true | Throw _ => false end.

(** [error instanceof Error ? error.message : fallback] *)
Definition messageOr (fallback : string) (e : Exn) : string :=
  match e with
  | JsError m => m
  | HttpsError _ m => m
  | ThrownValue => fallback
  end.

#[global] Instance HttpsErrorCode_eq_dec : EqDecision HttpsErrorCode.
Proof. solve_decision. Defined.

(** ** Asynchronous code: a state and exception monad

    [await] is sequencing; the state [S] holds what the code reads and writes
    outside itself. *)

Definition Eff (S A : Type) : Type := S → Result A * S.

Definition ret {S A} (a : A) : Eff S A := λ s, (Ok a, s).
Definition throw {S A} (e : Exn) : Eff S A := λ s, (Throw e, s).
Definition bind {S A B} (m : Eff S A) (k : A → Eff S B) : Eff S B :=
  λ s, match m s with
       | (Ok a, s') => k a s'
       | (Throw e, s') => (Throw e, s')
       end.
(** [try { m } catch (error) { handler error }] *)
Definition tryCatch {S A} (m : Eff S A) (handler : Exn → Eff S A) : Eff S A :=
  λ s, match m s with
       | (Ok a, s') => (Ok a, s')
       | (Throw e, s') => handler e s'
       end.
Definition liftResult {S A} (r : Result A) : Eff S A := λ s, (r, s).

Notation "'let*' x ':=' m 'in' k" := (bind m (λ x, k))
  (at level 10, x pattern, m at level 100, k at level 200).
Notation "m ';;;' k" := (bind m (λ _, k))
  (at level 100, k at level 200, right associativity).

(** ** [src/utils/schedule.ts] *)

Module Schedule.

(** A [Date] is its time value: milliseconds since the epoch, in UTC. *)
Definition Date := Z.

Definition MS_PER_MINUTE : Z := 60000.
Definition MS_PER_HOUR : Z := 3600000.
Definition MS_PER_DAY : Z := 86400000.

(** [const TIMEZONE = 'Asia/Dubai']: UTC+04:00 the whole year, no daylight
    saving time. *)
Definition TIMEZONE_OFFSET : Z := 4 * MS_PER_HOUR.

(** [const SLOT_HOURS = Array.from({ length: 16 }, (_, index) => index + 4)] *)
Definition SLOT_HOURS : list Z :=
  (λ index : nat, Z.of_nat index + 4) <$> seq 0 16.

(** The fields of [Tweet] (types/tweet.ts) the allocator reads or that
    identify an item. *)
Record Tweet := {
  id : string;
  text : string;
  scheduledFor : Date;
}.

(** The date-fns values that hold wall-clock time of the zone ([toZonedTime]
    and what [startOfDay], [addDays] and [set] make of it) are modelled as
    the zone-local time value: milliseconds since the local epoch. *)
Definition toZonedTime (date : Date) : Z := date + TIMEZONE_OFFSET.
Definition fromZonedTime (local : Z) : Date := local - TIMEZONE_OFFSET.
Definition startOfDay (local : Z) : Z := local - local mod MS_PER_DAY.
Definition addDays (local : Z) (amount : Z) : Z := local + amount * MS_PER_DAY.
(** [set(day, { hours, minutes: 0, seconds: 0, milliseconds: 0 })] *)
Definition setHours (local : Z) (hours : Z) : Z :=
  startOfDay local + hours * MS_PER_HOUR.

(** [formatInTimeZone(date, TIMEZONE, "yyyy-MM-dd HH:mm")]: the text prints
    the zone-local calendar day, hour and minute, one text per triple; the
    key is modelled as that triple (day counted from the epoch). *)
Definition SlotKey : Type := Z * Z * Z.

Definition formatSlotKey (date : Date) : SlotKey :=
  let local := toZonedTime date in
  (local / MS_PER_DAY,
   (local mod MS_PER_DAY) / MS_PER_HOUR,
   (local mod MS_PER_HOUR) / MS_PER_MINUTE).

Definition getTakenSlotKeys (tweets : list Tweet) : gset SlotKey :=
  list_to_set ((λ tweet, formatSlotKey (scheduledFor tweet)) <$> tweets).

Definition has (takenSlots : gset SlotKey) (slotKey : SlotKey) : bool :=
  bool_decide (slotKey ∈ takenSlots).

(** The inner loop of [getNextScheduleSlot]: [for (const hour of SLOT_HOURS)];
    [Some] is the [return] out of both loops. *)
Fixpoint scanHours (takenSlots : gset SlotKey) (now : Date) (day : Z)
    (hours : list Z) : option Date :=
  match hours with
  | [] => None
  | hour :: rest =>
      let slotLocal := setHours day hour in
      let slotUtc := fromZonedTime slotLocal in
      if slotUtc <=? now then scanHours takenSlots now day rest
      else
        let slotKey := formatSlotKey slotUtc in
        if negb (has takenSlots slotKey) then Some slotUtc
        else scanHours takenSlots now day rest
  end.

(** The outer loop, over the day offsets still to visit. *)
Fixpoint scanDays (takenSlots : gset SlotKey) (now : Date) (baseDay : Z)
    (dayOffsets : list Z) : option Date :=
  match dayOffsets with
  | [] => None
  | dayOffset :: rest =>
      let day := addDays baseDay dayOffset in
      match scanHours takenSlots now day SLOT_HOURS with
      | Some slotUtc => Some slotUtc
      | None => scanDays takenSlots now baseDay rest
      end
  end.

(** [for (let dayOffset = 0; dayOffset < 365; dayOffset += 1)] *)
Definition DAY_OFFSETS : list Z := Z.of_nat <$> seq 0 365.

Definition getNextScheduleSlot (tweets : list Tweet) (now : Date) : Result Date :=
  let takenSlots := getTakenSlotKeys tweets in
  let zonedNow := toZonedTime now in
  let baseDay := startOfDay zonedNow in
  match scanDays takenSlots now baseDay DAY_OFFSETS with
  | Some slotUtc => Ok slotUtc
  | None => Throw (JsError "Unable to find an available schedule slot within 365 days")
  end.

(** The inner loop of [getNextScheduleSlots]; [slots] is the array being
    filled, [count] the number asked for. *)
Fixpoint collectHours (takenSlots : gset SlotKey) (now : Date) (count : Z)
    (day : Z) (hours : list Z) (slots : list Date) : list Date :=
  match hours with
  | [] => slots
  | hour :: rest =>
      if Z.of_nat (length slots) >=? count then slots (* break *)
      else
        let slotLocal := setHours day hour in
        let slotUtc := fromZonedTime slotLocal in
        if slotUtc <=? now then collectHours takenSlots now count day rest slots
        else
          let slotKey := formatSlotKey slotUtc in
          if negb (has takenSlots slotKey)
          then collectHours takenSlots now count day rest (slots ++ [slotUtc])
          else collectHours takenSlots now count day rest slots
  end.

(** [for (let dayOffset = 0; dayOffset < 365 && slots.length < count; ...)] *)
Fixpoint collectDays (takenSlots : gset SlotKey) (now : Date) (count : Z)
    (baseDay : Z) (dayOffsets : list Z) (slots : list Date) : list Date :=
  match dayOffsets with
  | [] => slots
  | dayOffset :: rest =>
      if Z.of_nat (length slots) <? count then
        let day := addDays baseDay dayOffset in
        collectDays takenSlots now count baseDay rest
          (collectHours takenSlots now count day SLOT_HOURS slots)
      else slots
  end.

Definition getNextScheduleSlots (tweets : list Tweet) (count : Z) (now : Date)
    : Result (list Date) :=
  let takenSlots := getTakenSlotKeys tweets in
  let zonedNow := toZonedTime now in
  let baseDay := startOfDay zonedNow in
  let slots := collectDays takenSlots now count baseDay DAY_OFFSETS [] in
  if Z.of_nat (length slots) <? count then
    Throw (JsError ("Unable to find " +:+ pretty count +:+
                    " available schedule slots within 365 days"))
  else Ok slots.

(** An instant on the grid: a zone-local hour of [SLOT_HOURS], at minute,
    second and millisecond zero. *)
Definition localHour (date : Date) : Z :=
  (toZonedTime date mod MS_PER_DAY) / MS_PER_HOUR.
Definition localDay (date : Date) : Z := toZonedTime date / MS_PER_DAY.
Definition onGrid (date : Date) : Prop :=
  toZonedTime date mod MS_PER_HOUR = 0 ∧ 4 <= localHour date <= 19.

(** [formatInTimeZone(date, TIMEZONE, 'yyyy-MM-dd')]: the text prints the
    zone-local calendar day, one text per day; the key is modelled as the day
    counted from the epoch. *)
Definition formatDayKey (date : Date) : Z := toZonedTime date / MS_PER_DAY.

Definition isSameDayInDubai (a b : Date) : bool :=
  bool_decide (formatDayKey a = formatDayKey b).

Definition isTodayInDubai (date now : Date) : bool :=
  bool_decide (formatDayKey date = formatDayKey now).

End Schedule.

(** ** [functions/src/index.ts] *)

Module Functions.

Inductive StoredTweetStatus :=
| draft | scheduled | queued | manual | processing | posted | failed.

#[global] Instance StoredTweetStatus_eq_dec : EqDecision StoredTweetStatus.
Proof. solve_decision. Defined.

Inductive MediaType := image | video.

(** [interface TweetMediaDoc]: every field is optional. *)
Record TweetMediaDoc := {
  id : option string;
  storagePath : option string;
  contentType : option string;
  type : option MediaType;
}.

Definition Timestamp := Z.

(** A document of the collection [tweets]: the fields of
    [interface TweetDocData], and the three fields the functions write with
    [update] ([lastUpdatedAt], [lastError], [postedAt]). *)
Record TweetDocData := {
  authorUid : string;
  groupId : string;
  accountId : string;
  text : string;
  scheduledFor : Timestamp;
  status : StoredTweetStatus;
  media : option (list TweetMediaDoc);
  lastUpdatedAt : option Timestamp;
  lastError : option string;
  postedAt : option Timestamp;
}.

Record TwitterClientCredentials := {
  appKey : string;
  appSecret : string;
  accessToken : string;
  accessSecret : string;
}.

(** [interface TwitterAccountDoc]; [provider] is compared at run time. *)
Record TwitterAccountDoc := {
  provider : string;
  ownerUid : string;
  displayName : option string;
  handle : option string;
  twitter : option TwitterClientCredentials;
}.

(** The argument of a [client.v2.tweet] call: the text alone, or the text
    with a tuple of one to four media ids. *)
Inductive MediaIdTuple :=
| Tuple1 (a : string)
| Tuple2 (a b : string)
| Tuple3 (a b c : string)
| Tuple4 (a b c d : string).

Definition tupleItems (t : MediaIdTuple) : list string :=
  match t with
  | Tuple1 a => [a]
  | Tuple2 a b => [a; b]
  | Tuple3 a b c => [a; b; c]
  | Tuple4 a b c d => [a; b; c; d]
  end.

Inductive TweetPayload :=
| TweetText (text : string)
| TweetWithMedia (text : string) (media_ids : MediaIdTuple).

Abbreviation Buffer := (list Byte.byte).

(** A call made to the network client, with what it answered. *)
Inductive Call :=
| CallUploadMedia (buffer : Buffer) (mimeType : string) (answer : Result string)
| CallTweet (payload : TweetPayload) (answer : Result unit).

(** The network client ([TwitterApi] of twitter-api-v2) is outside the
    repository: what a call answers is left open, and may depend on the
    calls made before it. *)
Record TwitterClient := {
  v1_uploadMedia : list Call → Buffer → string → Result string;
  v2_tweet : list Call → TweetPayload → Result unit;
}.

(** The document store, the storage bucket, the store's clock and the calls
    made to the network so far (oldest first). *)
Record World := {
  tweets : gmap string TweetDocData;
  socialAccounts : gmap (string * string) TwitterAccountDoc;
  bucket : gmap string Buffer;
  serverTime : Timestamp;
  calls : list Call;
}.

(** Asynchronous code of this file runs in [Eff World]. *)
Abbreviation M := (Eff World).

(** JavaScript truthiness of an optional string: [undefined] and the empty
    string are falsy. *)
Definition truthy (s : option string) : bool :=
  match s with
  | Some s => negb (String.eqb s "")
  | None => false
  end.

(** [String.prototype.trim], on the white space of ASCII. *)
Definition isWhiteSpace (c : ascii) : bool :=
  let n := nat_of_ascii c in
  ((9 <=? n)%nat && (n <=? 13)%nat) || (n =? 32)%nat.
Fixpoint trimStart (s : string) : string :=
  match s with
  | String c rest => if isWhiteSpace c then trimStart rest else s
  | EmptyString => EmptyString
  end.
Fixpoint trimEnd (s : string) : string :=
  match s with
  | String c rest =>
      match trimEnd rest with
      | EmptyString => if isWhiteSpace c then EmptyString else String c EmptyString
      | rest' => String c rest'
      end
  | EmptyString => EmptyString
  end.
Definition trim (s : string) : string := trimEnd (trimStart s).

(** *** The document store *)

(** [tweetRef.update(fields)]: the fields are given as the change they make
    to the document, [FieldValue.serverTimestamp()] being the store's time
    at the write.  Updating a document that does not exist fails. *)
Definition update (tweetRef : string)
    (fields : Timestamp → TweetDocData → TweetDocData) : M unit :=
  λ w, match tweets w !! tweetRef with
       | Some doc =>
           (Ok (),
            {| tweets := <[tweetRef := fields (serverTime w) doc]> (tweets w);
               socialAccounts := socialAccounts w;
               bucket := bucket w;
               serverTime := serverTime w + 1;
               calls := calls w |})
       | None => (Throw (JsError ("No document to update: tweets/" +:+ tweetRef)), w)
       end.

(** What the function given to [db.runTransaction] does with the snapshot
    [transaction.get(tweetRef)] hands it: it throws, or returns a value
    together with the [transaction.update] it has asked for, if any.  The
    store runs transactions one after the other; the update is written at
    commit, and only when the function returned. *)
Definition Transaction (A : Type) : Type :=
  option TweetDocData → Result (A * option (Timestamp → TweetDocData → TweetDocData)).

Definition runTransaction {A} (tweetRef : string) (updateFunction : Transaction A)
    : M A :=
  λ w, match updateFunction (tweets w !! tweetRef) with
       | Ok (a, None) => (Ok a, w)
       | Ok (a, Some fields) => (update tweetRef fields ;;; ret a) w
       | Throw e => (Throw e, w)
       end.

Definition withStatus (s : StoredTweetStatus) (doc : TweetDocData) : TweetDocData :=
  {| authorUid := authorUid doc; groupId := groupId doc; accountId := accountId doc;
     text := text doc; scheduledFor := scheduledFor doc; status := s;
     media := media doc; lastUpdatedAt := lastUpdatedAt doc;
     lastError := lastError doc; postedAt := postedAt doc |}.
Definition withLastUpdatedAt (t : Timestamp) (doc : TweetDocData) : TweetDocData :=
  {| authorUid := authorUid doc; groupId := groupId doc; accountId := accountId doc;
     text := text doc; scheduledFor := scheduledFor doc; status := status doc;
     media := media doc; lastUpdatedAt := Some t;
     lastError := lastError doc; postedAt := postedAt doc |}.
Definition withLastError (e : option string) (doc : TweetDocData) : TweetDocData :=
  {| authorUid := authorUid doc; groupId := groupId doc; accountId := accountId doc;
     text := text doc; scheduledFor := scheduledFor doc; status := status doc;
     media := media doc; lastUpdatedAt := lastUpdatedAt doc;
     lastError := e; postedAt := postedAt doc |}.
Definition withPostedAt (t : Timestamp) (doc : TweetDocData) : TweetDocData :=
  {| authorUid := authorUid doc; groupId := groupId doc; accountId := accountId doc;
     text := text doc; scheduledFor := scheduledFor doc; status := status doc;
     media := media doc; lastUpdatedAt := lastUpdatedAt doc;
     lastError := lastError doc; postedAt := Some t |}.

Definition markTweetFailure (tweetRef : string) (message : string) : M unit :=
  update tweetRef (λ serverTimestamp doc,
    withLastError (Some message)
      (withLastUpdatedAt serverTimestamp (withStatus failed doc))).

Definition markTweetPosted (tweetRef : string) : M unit :=
  update tweetRef (λ serverTimestamp doc,
    withLastError None
      (withLastUpdatedAt serverTimestamp
         (withPostedAt serverTimestamp (withStatus posted doc)))).

(** *** Media upload *)

Definition downloadMediaFromStorage (storagePath : string) : M Buffer :=
  λ w, match bucket w !! storagePath with
       | Some buffer => (Ok buffer, w)
       | None => (Throw (JsError ("Media file not found at path " +:+ storagePath)), w)
       end.

(** [client.v1.uploadMedia(buffer, { mimeType })] *)
Definition uploadMedia (client : TwitterClient) (buffer : Buffer) (mimeType : string)
    : M string :=
  λ w, let answer := v1_uploadMedia client (calls w) buffer mimeType in
       (answer,
        {| tweets := tweets w; socialAccounts := socialAccounts w; bucket := bucket w;
           serverTime := serverTime w;
           calls := calls w ++ [CallUploadMedia buffer mimeType answer] |}).

(** [client.v2.tweet(payload)] *)
Definition tweet (client : TwitterClient) (payload : TweetPayload) : M unit :=
  λ w, let answer := v2_tweet client (calls w) payload in
       (answer,
        {| tweets := tweets w; socialAccounts := socialAccounts w; bucket := bucket w;
           serverTime := serverTime w;
           calls := calls w ++ [CallTweet payload answer] |}).

(** The loop [for (const item of attachments)] of [uploadMediaAttachments]. *)
Fixpoint uploadEach (client : TwitterClient) (attachments : list TweetMediaDoc)
    (mediaIds : list string) : M (list string) :=
  match attachments with
  | [] => ret mediaIds
  | item :: rest =>
      if negb (truthy (storagePath item)) || negb (truthy (contentType item)) then
        throw (JsError "Media attachment missing storage path or content type.")
      else
        let path := default "" (storagePath item) in
        let mimeType := default "" (contentType item) in
        let* mediaId :=
          tryCatch
            (let* buffer := downloadMediaFromStorage path in
             uploadMedia client buffer mimeType)
            (λ error,
               let message := messageOr "Unknown error while uploading media." error in
               throw (JsError ("Unable to upload media " +:+ path +:+ ": " +:+ message))) in
        uploadEach client rest (mediaIds ++ [mediaId])
  end.

Definition uploadMediaAttachments (client : TwitterClient)
    (media : option (list TweetMediaDoc)) : M (list string) :=
  match media with
  | None | Some [] => ret []
  | Some media =>
      let attachments := take 4 media in
      uploadEach client attachments []
  end.

Definition toMediaIdTuple (mediaIds : list string) : Result MediaIdTuple :=
  match mediaIds with
  | [a] => Ok (Tuple1 a)
  | [a; b] => Ok (Tuple2 a b)
  | [a; b; c] => Ok (Tuple3 a b c)
  | [a; b; c; d] => Ok (Tuple4 a b c d)
  | _ => Throw (JsError "Media IDs must contain between 1 and 4 items.")
  end.

Definition publishTweetWithClient (client : TwitterClient) (tweetRef : string)
    (data : TweetDocData) : M unit :=
  let* mediaIds := uploadMediaAttachments client (media data) in
  (if (0 <? length mediaIds)%nat then
     let* mediaPayload := liftResult (toMediaIdTuple mediaIds) in
     tweet client (TweetWithMedia (text data) mediaPayload)
   else
     tweet client (TweetText (text data))) ;;;
  markTweetPosted tweetRef.

(** *** Credentials *)

Record Account := {
  account_ownerUid : string;
  credentials : TwitterClientCredentials;
}.

Definition fetchTwitterAccountCredentials (groupId accountId : string)
    : M (option Account) :=
  λ w, match socialAccounts w !! (groupId, accountId) with
       | None => (Ok None, w)
       | Some data =>
           if negb (String.eqb (provider data) "twitter") then (Ok None, w)
           else
             match twitter data with
             | None => (Ok None, w)
             | Some twitter =>
                 if negb (truthy (Some (appKey twitter)))
                    || negb (truthy (Some (appSecret twitter)))
                    || negb (truthy (Some (accessToken twitter)))
                    || negb (truthy (Some (accessSecret twitter)))
                 then (Ok None, w)
                 else
                   (Ok (Some {| account_ownerUid := ownerUid data;
                                credentials :=
                                  {| appKey := appKey twitter;
                                     appSecret := appSecret twitter;
                                     accessToken := accessToken twitter;
                                     accessSecret := accessSecret twitter |} |}), w)
             end
       end.

(** *** The query of the sweep *)

(** [.where('status', 'in', ['scheduled', 'queued']).where('scheduledFor', '<=', now)] *)
Definition isDue (now : Timestamp) (entry : string * TweetDocData) : Prop :=
  (status entry.2 = scheduled ∨ status entry.2 = queued)
  ∧ scheduledFor entry.2 <= now.

#[global] Instance isDue_dec now entry : Decision (isDue now entry).
Proof. unfold isDue. apply _. Defined.

(** [.orderBy('scheduledFor', 'asc')]; the store orders documents of equal
    [scheduledFor] by their identifier. *)
Definition dueBefore (a b : string * TweetDocData) : Prop :=
  scheduledFor a.2 < scheduledFor b.2
  ∨ (scheduledFor a.2 = scheduledFor b.2 ∧ String.leb a.1 b.1 = true).

#[global] Instance dueBefore_dec a b : Decision (dueBefore a b).
Proof. unfold dueBefore. apply _. Defined.

(** The query snapshot of [processScheduledTweets], [.limit(25)] included:
    its documents as pairs of [doc.ref] and [doc.data()]. *)
Definition dueTweetsQuery (now : Timestamp) (w : World)
    : list (string * TweetDocData) :=
  take 25 (merge_sort dueBefore (filter (isDue now) (map_to_list (tweets w)))).

Section WithTwitterApi.

(** [new TwitterApi({...})], the constructor of the network client: it
    returns a client or throws. *)
Variable TwitterApi : TwitterClientCredentials → Result TwitterClient.

(** [functions/src/twitterClient.ts] *)
Definition createTwitterClient (credentials : TwitterClientCredentials)
    : Result TwitterClient :=
  TwitterApi {| appKey := appKey credentials;
                appSecret := appSecret credentials;
                accessToken := accessToken credentials;
                accessSecret := accessSecret credentials |}.

(** *** The sweep path *)

(** The function [processTweetDocument] gives to [db.runTransaction]. *)
Definition sweepLock : Transaction bool :=
  λ current,
    let currentStatus := status <$> current in
    if bool_decide (currentStatus = Some processing)
       || bool_decide (currentStatus = Some posted)
    then Ok (false, None)
    else
      Ok (true,
          Some (λ serverTimestamp doc,
                  withLastError None
                    (withLastUpdatedAt serverTimestamp (withStatus processing doc)))).

(** [processTweetDocument] from the line after [if (!lockAcquired)]. *)
Definition processLocked (tweetRef : string) (data : TweetDocData) : M unit :=
  let* account := fetchTwitterAccountCredentials (groupId data) (accountId data) in
  match account with
  | None =>
      markTweetFailure tweetRef "Twitter account configuration not found for this tweet."
  | Some account =>
      if negb (String.eqb (account_ownerUid account) (authorUid data)) then
        markTweetFailure tweetRef
          "You do not have permission to post with this social account."
      else
        match createTwitterClient (credentials account) with
        | Throw error =>
            let message := messageOr "Unable to initialize Twitter client" error in
            markTweetFailure tweetRef message
        | Ok client =>
            tryCatch (publishTweetWithClient client tweetRef data)
              (λ error,
                 let message := messageOr "Failed to post tweet" error in
                 markTweetFailure tweetRef message)
        end
  end.

(** [doc.ref] and [doc.data()] of the query snapshot are the arguments. *)
Definition processTweetDocument (tweetRef : string) (data : TweetDocData) : M unit :=
  let* lockAcquired := runTransaction tweetRef sweepLock in
  if negb lockAcquired then ret ()
  else processLocked tweetRef data.

(** *** The manual path *)

(** [context.auth] *)
Record Auth := { uid : string }.

(** The function [publishTweetNow] gives to [db.runTransaction]. *)
Definition manualLock (caller : string) : Transaction TweetDocData :=
  λ snapshot,
    match snapshot with
    | None => Throw (HttpsError not_found "Tweet not found.")
    | Some currentData =>
        if negb (String.eqb (authorUid currentData) caller) then
          Throw (HttpsError permission_denied "You do not have access to this tweet.")
        else if bool_decide (status currentData = processing) then
          Throw (HttpsError failed_precondition "Tweet is already being processed.")
        else if bool_decide (status currentData = posted) then
          Throw (HttpsError failed_precondition "Tweet has already been posted.")
        else if bool_decide (status currentData = draft) then
          Throw (HttpsError failed_precondition "Draft tweets cannot be published.")
        else if negb (bool_decide (status currentData = manual)) then
          Throw (HttpsError failed_precondition
                   "Tweet must be marked as manual before publishing.")
        else
          Ok (currentData,
              Some (λ serverTimestamp doc,
                      withLastError None
                        (withLastUpdatedAt serverTimestamp
                           (withStatus processing doc))))
    end.

(** [{ success: true }] *)
Record PublishResponse := { success : bool }.

(** [publishTweetNow] from the line after the transaction. *)
Definition publishLocked (caller : string) (tweetRef : string)
    (tweetData : TweetDocData) : M PublishResponse :=
  let* account :=
    fetchTwitterAccountCredentials (groupId tweetData) (accountId tweetData) in
  match account with
  | None =>
      markTweetFailure tweetRef
        "Twitter account configuration not found for this tweet." ;;;
      throw (HttpsError failed_precondition
               "Twitter account configuration not found for this tweet.")
  | Some account =>
      if negb (String.eqb (account_ownerUid account) caller) then
        markTweetFailure tweetRef
          "You do not have permission to post with this social account." ;;;
        throw (HttpsError permission_denied
                 "You do not have permission to post with this social account.")
      else
        match createTwitterClient (credentials account) with
        | Throw error =>
            let message := messageOr "Unable to initialize Twitter client" error in
            markTweetFailure tweetRef message ;;;
            throw (HttpsError internal message)
        | Ok client =>
            tryCatch
              (publishTweetWithClient client tweetRef tweetData ;;;
               ret {| success := true |})
              (λ error,
                 let message := messageOr "Failed to post tweet" error in
                 markTweetFailure tweetRef message ;;;
                 throw (HttpsError internal message))
        end
  end.

(** The [try] block around the transaction of [publishTweetNow], with its
    [catch]. *)
Definition lockForPublish (caller : string) (tweetRef : string) : M TweetDocData :=
  tryCatch (runTransaction tweetRef (manualLock caller))
    (λ error,
       match error with
       | HttpsError _ _ => throw error
       | _ =>
           let message := messageOr "Unable to prepare tweet for publishing." error in
           throw (HttpsError internal message)
       end).

(** [data?.tweetId] is given as [Some] when it is a string. *)
Definition publishTweetNow (data_tweetId : option string) (context_auth : option Auth)
    : M PublishResponse :=
  match context_auth with
  | None => throw (HttpsError unauthenticated "Authentication is required.")
  | Some auth =>
      let tweetId := match data_tweetId with Some s => trim s | None => "" end in
      if String.eqb tweetId "" then
        throw (HttpsError invalid_argument "Tweet ID is required.")
      else
        let tweetRef := tweetId in
        let* tweetData := lockForPublish (uid auth) tweetRef in
        publishLocked (uid auth) tweetRef tweetData
  end.

(** *** The scheduled sweep *)

(** [for (const doc of dueTweetsSnapshot.docs) { await processTweetDocument(doc) }] *)
Fixpoint processEach (docs : list (string * TweetDocData)) : M unit :=
  match docs with
  | [] => ret ()
  | doc :: rest => processTweetDocument doc.1 doc.2 ;;; processEach rest
  end.

(** [processScheduledTweets], with [Timestamp.now()] given as [now]; it
    returns [null]. *)
Definition processScheduledTweets (now : Timestamp) : M unit :=
  λ w, let dueTweetsSnapshot := dueTweetsQuery now w in
       match dueTweetsSnapshot with
       | [] => (Ok (), w)
       | _ => processEach dueTweetsSnapshot w
       end.

End WithTwitterApi.

End Functions.

(** ** [functions/src/index.ts], one awaited operation at a time

    Two invocations of the functions run side by side; what one of them sees
    of the other is decided by the order in which the store and the network
    serve the operations they [await].  Here the two publication paths are
    written as the sequence of those operations. *)

Module Async.
Import Functions.

(** An asynchronous function, as far as it has run: it has finished, or it
    awaits an operation on the world and goes on with what that answers. *)
Inductive Routine (A : Type) : Type :=
| Finished (r : Result A)
| Await {X : Type} (operation : M X) (continuation : Result X → Routine A).
Arguments Finished {A} r.
Arguments Await {A X} operation continuation.

(** [await operation] *)
Definition await {X} (operation : M X) : Routine X := Await operation Finished.

Fixpoint andThen {A B} (t : Routine A) (k : A → Routine B) : Routine B :=
  match t with
  | Finished (Ok a) => k a
  | Finished (Throw e) => Finished (Throw e)
  | Await operation continuation =>
      Await operation (λ r, andThen (continuation r) k)
  end.

(** [try { t } catch (error) { handler error }] *)
Fixpoint orCatch {A} (t : Routine A) (handler : Exn → Routine A) : Routine A :=
  match t with
  | Finished (Ok a) => Finished (Ok a)
  | Finished (Throw e) => handler e
  | Await operation continuation =>
      Await operation (λ r, orCatch (continuation r) handler)
  end.

Notation "'let!' x ':=' t 'in' k" := (andThen t (λ x, k))
  (at level 10, x pattern, t at level 100, k at level 200).
Notation "t ';;!' k" := (andThen t (λ _, k))
  (at level 100, k at level 200, right associativity).

(** A routine run on its own, from start to end. *)
Fixpoint run {A} (t : Routine A) : M A :=
  match t with
  | Finished r => liftResult r
  | Await operation continuation =>
      λ w, match operation w with (r, w1) => run (continuation r) w1 end
  end.

(** [file.exists()] and [file.download()] of the storage bucket; the
    download of an object that is not there fails with an error of the
    storage library, which [downloadMediaFromStorage] does not get to see
    unless the object goes away between the two calls. *)
Definition fileExists (storagePath : string) : M bool :=
  λ w, (Ok (bool_decide (is_Some (bucket w !! storagePath))), w).

Definition fileDownload (storagePath : string) : M Buffer :=
  λ w, match bucket w !! storagePath with
       | Some buffer => (Ok buffer, w)
       | None => (Throw (JsError ("No such object: " +:+ storagePath)), w)
       end.

Definition downloadMediaFromStorage (storagePath : string) : Routine Buffer :=
  let! exists_ := await (fileExists storagePath) in
  if negb exists_ then
    Finished (Throw (JsError ("Media file not found at path " +:+ storagePath)))
  else await (fileDownload storagePath).

Fixpoint uploadEach (client : TwitterClient) (attachments : list TweetMediaDoc)
    (mediaIds : list string) : Routine (list string) :=
  match attachments with
  | [] => Finished (Ok mediaIds)
  | item :: rest =>
      if negb (truthy (storagePath item)) || negb (truthy (contentType item)) then
        Finished (Throw (JsError "Media attachment missing storage path or content type."))
      else
        let path := default "" (storagePath item) in
        let mimeType := default "" (contentType item) in
        let! mediaId :=
          orCatch
            (let! buffer := downloadMediaFromStorage path in
             await (uploadMedia client buffer mimeType))
            (λ error,
               let message := messageOr "Unknown error while uploading media." error in
               Finished (Throw (JsError ("Unable to upload media " +:+ path +:+ ": "
                                         +:+ message)))) in
        uploadEach client rest (mediaIds ++ [mediaId])
  end.

Definition uploadMediaAttachments (client : TwitterClient)
    (media : option (list TweetMediaDoc)) : Routine (list string) :=
  match media with
  | None | Some [] => Finished (Ok [])
  | Some media =>
      let attachments := take 4 media in
      uploadEach client attachments []
  end.

Definition publishTweetWithClient (client : TwitterClient) (tweetRef : string)
    (data : TweetDocData) : Routine unit :=
  let! mediaIds := uploadMediaAttachments client (media data) in
  (if (0 <? length mediaIds)%nat then
     let! mediaPayload := Finished (toMediaIdTuple mediaIds) in
     await (tweet client (TweetWithMedia (text data) mediaPayload))
   else
     await (tweet client (TweetText (text data)))) ;;!
  await (markTweetPosted tweetRef).

Section WithTwitterApi.

Variable TwitterApi : TwitterClientCredentials → Result TwitterClient.

Definition processLocked (tweetRef : string) (data : TweetDocData) : Routine unit :=
  let! account :=
    await (fetchTwitterAccountCredentials (groupId data) (accountId data)) in
  match account with
  | None =>
      await (markTweetFailure tweetRef
               "Twitter account configuration not found for this tweet.")
  | Some account =>
      if negb (String.eqb (account_ownerUid account) (authorUid data)) then
        await (markTweetFailure tweetRef
                 "You do not have permission to post with this social account.")
      else
        match createTwitterClient TwitterApi (credentials account) with
        | Throw error =>
            let message := messageOr "Unable to initialize Twitter client" error in
            await (markTweetFailure tweetRef message)
        | Ok client =>
            orCatch (publishTweetWithClient client tweetRef data)
              (λ error,
                 let message := messageOr "Failed to post tweet" error in
                 await (markTweetFailure tweetRef message))
        end
  end.

Definition processTweetDocument (tweetRef : string) (data : TweetDocData) : Routine unit :=
  let! lockAcquired := await (runTransaction tweetRef sweepLock) in
  if negb lockAcquired then Finished (Ok ())
  else processLocked tweetRef data.

Definition publishLocked (caller : string) (tweetRef : string)
    (tweetData : TweetDocData) : Routine PublishResponse :=
  let! account :=
    await (fetchTwitterAccountCredentials (groupId tweetData) (accountId tweetData)) in
  match account with
  | None =>
      await (markTweetFailure tweetRef
               "Twitter account configuration not found for this tweet.") ;;!
      Finished (Throw (HttpsError failed_precondition
                         "Twitter account configuration not found for this tweet."))
  | Some account =>
      if negb (String.eqb (account_ownerUid account) caller) then
        await (markTweetFailure tweetRef
                 "You do not have permission to post with this social account.") ;;!
        Finished (Throw (HttpsError permission_denied
                           "You do not have permission to post with this social account."))
      else
        match createTwitterClient TwitterApi (credentials account) with
        | Throw error =>
            let message := messageOr "Unable to initialize Twitter client" error in
            await (markTweetFailure tweetRef message) ;;!
            Finished (Throw (HttpsError internal message))
        | Ok client =>
            orCatch
              (publishTweetWithClient client tweetRef tweetData ;;!
               Finished (Ok {| success := true |}))
              (λ error,
                 let message := messageOr "Failed to post tweet" error in
                 await (markTweetFailure tweetRef message) ;;!
                 Finished (Throw (HttpsError internal message)))
        end
  end.

Definition lockForPublish (caller : string) (tweetRef : string) : Routine TweetDocData :=
  orCatch (await (runTransaction tweetRef (manualLock caller)))
    (λ error,
       match error with
       | HttpsError _ _ => Finished (Throw error)
       | _ =>
           let message := messageOr "Unable to prepare tweet for publishing." error in
           Finished (Throw (HttpsError internal message))
       end).

Definition publishTweetNow (data_tweetId : option string) (context_auth : option Auth)
    : Routine PublishResponse :=
  match context_auth with
  | None => Finished (Throw (HttpsError unauthenticated "Authentication is required."))
  | Some auth =>
      let tweetId := match data_tweetId with Some s => trim s | None => "" end in
      if String.eqb tweetId "" then
        Finished (Throw (HttpsError invalid_argument "Tweet ID is required."))
      else
        let tweetRef := tweetId in
        let! tweetData := lockForPublish (uid auth) tweetRef in
        publishLocked (uid auth) tweetRef tweetData
  end.

End WithTwitterApi.

(** *** Two invocations side by side *)

Inductive Side := FirstAttempt | SecondAttempt.

#[global] Instance Side_eq_dec : EqDecision Side.
Proof. solve_decision. Defined.

(** One operation served: whose it was, and the world before and after. *)
Record Event := {
  actor : Side;
  before : World;
  after : World;
}.

(** The next operation of a routine, served in the world [w]: the world it
    leaves, and the routine from there. *)
Definition serve {A} (t : Routine A) (w : World) : option (World * Routine A) :=
  match t with
  | Finished _ => None
  | Await operation continuation =>
      match operation w with (r, w1) => Some (w1, continuation r) end
  end.

(** The two routines run with their operations served in the order [schedule]
    names; the result is there when the schedule serves each routine to its
    end, and nothing more. *)
Fixpoint interleave {A B} (schedule : list Side) (first : Routine A) (second : Routine B)
    (w : World) : option (list Event * (Result A * Result B * World)) :=
  match schedule with
  | [] =>
      match first, second with
      | Finished ra, Finished rb => Some ([], (ra, rb, w))
      | _, _ => None
      end
  | FirstAttempt :: rest =>
      match serve first w with
      | Some (w1, first') =>
          (λ '(events, outcome),
             ({| actor := FirstAttempt; before := w; after := w1 |} :: events, outcome))
            <$> interleave rest first' second w1
      | None => None
      end
  | SecondAttempt :: rest =>
      match serve second w with
      | Some (w1, second') =>
          (λ '(events, outcome),
             ({| actor := SecondAttempt; before := w; after := w1 |} :: events, outcome))
            <$> interleave rest first second' w1
      | None => None
      end
  end.

End Async.

(** ** [functions/src/config.ts] *)

Module Config.

(** What the configuration is read from: [process.env], and the keys
    [api_key] and [api_secret] of the section [twitter] of
    [functions.config()]; a section that is not there gives keys that are not
    there. *)
Record Environment := {
  env : gmap string string;
  twitter_api_key : option string;
  twitter_api_secret : option string;
}.

Definition resolveTwitterCredential (environment : Environment)
    (envKey : string) (configKey : option string) : option string :=
  let value := env environment !! envKey in
  let fromConfig :=
    match configKey with
    | Some configKey =>
        if Functions.truthy (Some configKey)
           && (0 <? String.length (Functions.trim configKey))%nat
        then Some (Functions.trim configKey)
        else None
    | None => None
    end in
  match value with
  | Some value =>
      if Functions.truthy (Some value)
         && (0 <? String.length (Functions.trim value))%nat
      then Some (Functions.trim value)
      else fromConfig
  | None => fromConfig
  end.

Record TwitterAppConfig := {
  appKey : string;
  appSecret : string;
}.

Definition getTwitterAppConfig (environment : Environment) : Result TwitterAppConfig :=
  let appKey := resolveTwitterCredential environment "TWITTER_API_KEY"
                  (twitter_api_key environment) in
  let appSecret := resolveTwitterCredential environment "TWITTER_API_SECRET"
                     (twitter_api_secret environment) in
  match appKey, appSecret with
  | Some appKey, Some appSecret =>
      if negb (Functions.truthy (Some appKey)) || negb (Functions.truthy (Some appSecret))
      then Throw (JsError "Missing Twitter API configuration. TWITTER_API_KEY: Required, TWITTER_API_SECRET: Required")
      else Ok {| appKey := appKey; appSecret := appSecret |}
  | _, _ =>
      Throw (JsError "Missing Twitter API configuration. TWITTER_API_KEY: Required, TWITTER_API_SECRET: Required")
  end.

End Config.

(** ** [functions/src/index.ts]: [provisionLegacyTwitterAccount] *)

Module Provision.
Import Functions.

(** [interface LegacyTwitterCredentialsDoc]; the two tokens are read with
    [!legacyData?.accessToken], so a stored document can lack them. *)
Record LegacyTwitterCredentialsDoc := {
  legacy_handle : option string;
  legacy_screenName : option string;
  legacy_displayName : option string;
  legacy_accessToken : option string;
  legacy_accessSecret : option string;
}.

(** A document of the collection [groups], as the function writes it. *)
Record GroupDoc := {
  group_name : string;
  group_ownerUid : string;
  group_createdAt : Timestamp;
}.

(** The collections the function reads and writes: [groups], the
    [socialAccounts] below a group (keyed by group and account, as
    [fetchTwitterAccountCredentials] reads them; the [createdAt] of an
    account, which nothing reads, is left out), [twitterCredentials], and the
    store's clock. *)
Record Store := {
  groups : gmap string GroupDoc;
  accounts : gmap (string * string) TwitterAccountDoc;
  twitterCredentials : gmap string LegacyTwitterCredentialsDoc;
  clock : Timestamp;
}.

(** The store is outside the repository: whether a write succeeds, and the
    identifier [add] generates, are left open. *)
Record Backend := {
  add_group : Store → Result string;
  add_account : Store → string → Result string;
  delete_group : Store → string → Result unit;
}.

(** The argument of the callable: a field that is missing or not a string
    is [None]. *)
Record ProvisionData := {
  groupName : option string;
  accountDisplayName : option string;
}.

Record ProvisionResponse := {
  response_groupId : string;
  response_accountId : string;
}.

(** [a || b], for an optional string [a]. *)
Definition orElse (a : option string) (b : string) : string :=
  if truthy a then default b a else b.

Section WithBackend.

Variable backend : Backend.
Variable environment : Config.Environment.

(** [db.collection('twitterCredentials').doc(ownerUid).get()] *)
Definition getLegacy (ownerUid : string) : Eff Store (option LegacyTwitterCredentialsDoc) :=
  λ w, (Ok (twitterCredentials w !! ownerUid), w).

(** [db.collection('groups').add(data)]: a document is created under a new
    identifier; creating fails when the identifier is in use. *)
Definition addGroup (data : Timestamp → GroupDoc) : Eff Store string :=
  λ w, match add_group backend w with
       | Ok id =>
           match groups w !! id with
           | None =>
               (Ok id,
                {| groups := <[id := data (clock w)]> (groups w);
                   accounts := accounts w;
                   twitterCredentials := twitterCredentials w;
                   clock := clock w + 1 |})
           | Some _ => (Throw (JsError ("Document already exists: groups/" +:+ id)), w)
           end
       | Throw e => (Throw e, w)
       end.

(** [groupRef.collection('socialAccounts').add(data)] *)
Definition addAccount (groupRef : string) (data : TwitterAccountDoc) : Eff Store string :=
  λ w, match add_account backend w groupRef with
       | Ok id =>
           match accounts w !! (groupRef, id) with
           | None =>
               (Ok id,
                {| groups := groups w;
                   accounts := <[(groupRef, id) := data]> (accounts w);
                   twitterCredentials := twitterCredentials w;
                   clock := clock w + 1 |})
           | Some _ =>
               (Throw (JsError ("Document already exists: groups/" +:+ groupRef +:+
                                "/socialAccounts/" +:+ id)), w)
           end
       | Throw e => (Throw e, w)
       end.

(** [groupRef.delete()]: the documents below the group stay. *)
Definition deleteGroup (groupRef : string) : Eff Store unit :=
  λ w, match delete_group backend w groupRef with
       | Ok _ =>
           (Ok (),
            {| groups := delete groupRef (groups w);
               accounts := accounts w;
               twitterCredentials := twitterCredentials w;
               clock := clock w |})
       | Throw e => (Throw e, w)
       end.

(** The body of the [try] block, with the value the variable [groupRef] has
    when the block is left. *)
Definition provisionAttempt (ownerUid groupName accountDisplayName : string)
    (legacyData : LegacyTwitterCredentialsDoc) (appConfig : Config.TwitterAppConfig)
    : Store → (option string * Result ProvisionResponse) * Store :=
  λ w,
    match addGroup (λ serverTimestamp,
                      {| group_name := groupName;
                         group_ownerUid := ownerUid;
                         group_createdAt := serverTimestamp |}) w with
    | (Throw error, w1) => ((None, Throw error), w1)
    | (Ok groupRef, w1) =>
        match addAccount groupRef
                {| provider := "twitter";
                   displayName :=
                     Some (orElse (Some accountDisplayName)
                             (orElse (legacy_displayName legacyData)
                                (groupName +:+ " Twitter account")));
                   handle :=
                     Some (orElse (legacy_handle legacyData)
                             (orElse (legacy_screenName legacyData) ""));
                   ownerUid := ownerUid;
                   twitter :=
                     Some {| appKey := Config.appKey appConfig;
                             appSecret := Config.appSecret appConfig;
                             accessToken := default "" (legacy_accessToken legacyData);
                             accessSecret := default "" (legacy_accessSecret legacyData) |} |}
                w1 with
        | (Throw error, w2) => ((Some groupRef, Throw error), w2)
        | (Ok socialAccountRef, w2) =>
            ((Some groupRef,
              Ok {| response_groupId := groupRef;
                    response_accountId := socialAccountRef |}), w2)
        end
    end.

(** The [catch] block. *)
Definition provisionRollback (groupRef : option string) (error : Exn)
    : Eff Store ProvisionResponse :=
  match groupRef with
  | Some groupRef => tryCatch (deleteGroup groupRef) (λ cleanupError, ret ())
  | None => ret ()
  end ;;;
  throw (HttpsError internal (messageOr "Unable to provision group and account." error)).

Definition provisionLegacyTwitterAccount (data : ProvisionData)
    (context_auth : option Auth) : Eff Store ProvisionResponse :=
  match context_auth with
  | None => throw (HttpsError unauthenticated "Authentication is required.")
  | Some auth =>
      let groupName := match groupName data with Some s => trim s | None => "" end in
      let accountDisplayName :=
        match accountDisplayName data with Some s => trim s | None => "" end in
      if String.eqb groupName "" then
        throw (HttpsError invalid_argument "Group name is required.")
      else
        let ownerUid := uid auth in
        let* legacyDoc := getLegacy ownerUid in
        match legacyDoc with
        | None =>
            throw (HttpsError failed_precondition
                     "No existing Twitter credentials found for this user.")
        | Some legacyData =>
            if negb (truthy (legacy_accessToken legacyData))
               || negb (truthy (legacy_accessSecret legacyData))
            then throw (HttpsError failed_precondition
                          "Legacy Twitter credentials are incomplete.")
            else
              let* appConfig := liftResult (Config.getTwitterAppConfig environment) in
              λ w,
                match provisionAttempt ownerUid groupName accountDisplayName
                        legacyData appConfig w with
                | ((_, Ok response), w') => (Ok response, w')
                | ((groupRef, Throw error), w') => provisionRollback groupRef error w'
                end
        end
  end.

End WithBackend.

End Provision.

(** ** [src/services/bulkUploadService.ts] *)

Module BulkUpload.

(** The fields of a browser [File] the service reads. *)
Record File := {
  name : string;
  type : string;
  size : Z;
}.

(** [interface TweetMedia] of types/tweet.ts *)
Record TweetMedia := {
  id : string;
  storagePath : string;
  downloadUrl : string;
  contentType : string;
  mediaSize : Z;
  mediaType : Functions.MediaType;
}.

(** [interface TweetDraft] of types/tweet.ts; [scheduledFor] is
    [shuffledSlots[i]], which JavaScript leaves undefined out of range. *)
Record TweetDraft := {
  text : string;
  scheduledFor : option Schedule.Date;
  groupId : string;
  accountId : string;
  status : option Functions.StoredTweetStatus;
  media : option (list TweetMedia);
}.

Record BulkScheduleOptions := {
  userId : string;
  files : list File;
  options_groupId : string;
  options_accountId : string;
  slots : list Schedule.Date;
}.

Record BulkScheduleProgress := {
  total : nat;
  completed : nat;
  progress_failed : nat;
  currentFile : string;
}.

(** [{ successful, failed, errors }] *)
Record BulkScheduleResult := {
  successful : nat;
  failed : nat;
  errors : list string;
}.

(** What the service does outside itself, with the answer it got. *)
Inductive Effect :=
| UploadTweetMedia (userId : string) (file : File) (answer : Result TweetMedia)
| CreateTweet (userId : string) (draft : TweetDraft) (answer : Result unit)
| OnProgress (progress : BulkScheduleProgress) (answer : Result unit).

(** The collaborators: [uploadTweetMedia] of the media service and
    [createTweet] of the tweet service write to object storage and to the
    document store, and [Math.random] draws numbers; what they answer is left
    open and may depend on what happened before.  The [k]-th value of
    [Math.random] is given as a natural number [r], and
    [Math.floor(Math.random() * (i + 1))], an integer from [0] to [i], as
    [r mod (i + 1)]. *)
Record Services := {
  uploadTweetMedia_answer : list Effect → string → File → Result TweetMedia;
  createTweet_answer : list Effect → string → TweetDraft → Result unit;
  Math_random : nat → nat;
}.

(** [type ProgressCallback = (progress: BulkScheduleProgress) => void]; the
    callback is the caller's code and can throw. *)
Definition ProgressCallback : Type := list Effect → BulkScheduleProgress → Result unit.

Record World := {
  effects : list Effect;
  randomCalls : nat;
}.

Abbreviation M := (Eff World).

Definition record (e : Effect) (w : World) : World :=
  {| effects := effects w ++ [e]; randomCalls := randomCalls w |}.

Definition uploadTweetMedia (services : Services) (userId : string) (file : File)
    : M TweetMedia :=
  λ w, let answer := uploadTweetMedia_answer services (effects w) userId file in
       (answer, record (UploadTweetMedia userId file answer) w).

Definition createTweet (services : Services) (userId : string) (draft : TweetDraft)
    : M unit :=
  λ w, let answer := createTweet_answer services (effects w) userId draft in
       (answer, record (CreateTweet userId draft answer) w).

(** [if (onProgress) { onProgress(progress) }] *)
Definition notify (onProgress : option ProgressCallback)
    (progress : BulkScheduleProgress) : M unit :=
  match onProgress with
  | None => ret ()
  | Some callback =>
      λ w, let answer := callback (effects w) progress in
           (answer, record (OnProgress progress answer) w)
  end.

(** [Math.floor(Math.random() * bound)] *)
Definition randomBelow (services : Services) (bound : nat) : M nat :=
  λ w, (Ok (Math_random services (randomCalls w) `mod` bound)%nat,
        {| effects := effects w; randomCalls := S (randomCalls w) |}).

(** [[shuffled[i], shuffled[j]] = [shuffled[j], shuffled[i]]] *)
Definition swap {T} (shuffled : list T) (i j : nat) : list T :=
  match shuffled !! i, shuffled !! j with
  | Some at_i, Some at_j => <[j := at_i]> (<[i := at_j]> shuffled)
  | _, _ => shuffled
  end.

(** The loop [for (let i = shuffled.length - 1; i > 0; i--)], from [i]. *)
Fixpoint shuffleFrom {T} (services : Services) (i : nat) (shuffled : list T)
    : M (list T) :=
  match i with
  | O => ret shuffled
  | S i' =>
      let* j := randomBelow services (i + 1) in
      shuffleFrom services i' (swap shuffled i j)
  end.

Definition shuffleArray {T} (services : Services) (array : list T) : M (list T) :=
  let shuffled := array in
  shuffleFrom services (length shuffled - 1) shuffled.

(** The loop [for (let i = 0; i < shuffledFiles.length; i++)], from [i], with
    the files still to do. *)
Fixpoint scheduleEach (services : Services) (onProgress : option ProgressCallback)
    (options : BulkScheduleOptions) (shuffledFilesLength : nat)
    (shuffledSlots : list Schedule.Date) (i : nat) (rest : list File)
    (completed failed : nat) (errors : list string)
    : M (nat * nat * list string) :=
  match rest with
  | [] => ret (completed, failed, errors)
  | file :: rest =>
      let scheduledFor := shuffledSlots !! i in
      notify onProgress
        {| total := shuffledFilesLength; completed := completed;
           progress_failed := failed; currentFile := name file |} ;;;
      let* caught :=
        tryCatch
          (let* media := uploadTweetMedia services (userId options) file in
           createTweet services (userId options)
             {| text := ""; scheduledFor := scheduledFor;
                groupId := options_groupId options;
                accountId := options_accountId options;
                status := Some Functions.scheduled;
                media := Some [media] |} ;;;
           ret None)
          (λ error, ret (Some error)) in
      match caught with
      | None =>
          scheduleEach services onProgress options shuffledFilesLength shuffledSlots
            (S i) rest (S completed) failed errors
      | Some error =>
          let errorMsg := messageOr "Unknown error" error in
          scheduleEach services onProgress options shuffledFilesLength shuffledSlots
            (S i) rest completed (S failed) (errors ++ [name file +:+ ": " +:+ errorMsg])
      end
  end.

Definition bulkScheduleTweets (services : Services) (options : BulkScheduleOptions)
    (onProgress : option ProgressCallback) : M BulkScheduleResult :=
  if (length (files options) =? 0)%nat then throw (JsError "No files provided")
  else if (length (slots options) <? length (files options))%nat then
    throw (JsError ("Not enough available slots. Need " +:+
                    pretty (length (files options)) +:+ ", have " +:+
                    pretty (length (slots options))))
  else
    let* shuffledFiles := shuffleArray services (files options) in
    let* shuffledSlots :=
      shuffleArray services (take (length (files options)) (slots options)) in
    let* (completed, failed, errors) :=
      scheduleEach services onProgress options (length shuffledFiles) shuffledSlots
        0 shuffledFiles 0 0 [] in
    notify onProgress
      {| total := length shuffledFiles; completed := completed;
         progress_failed := failed; currentFile := "" |} ;;;
    ret {| successful := completed; failed := failed; errors := errors |}.

(** [validateBulkUploadFiles]: the loop [for (const file of files)], which
    stops at the first file it rejects. *)
Fixpoint checkEach (files : list File) (maxSizeBytes : Z) (errors : list string)
    : list string :=
  match files with
  | [] => errors
  | file :: rest =>
      if negb (String.prefix "image/" (type file))
         && negb (String.prefix "video/" (type file)) then
        errors ++ [name file +:+ ": Only images and videos are supported"] (* break *)
      else if maxSizeBytes <? size file then
        (* [Math.round(maxSizeBytes / (1024 * 1024))] *)
        let maxMB := (2 * maxSizeBytes + 1024 * 1024) / (2 * (1024 * 1024)) in
        errors ++ [name file +:+ ": File exceeds " +:+ pretty maxMB +:+ " MB limit"]
        (* break *)
      else checkEach rest maxSizeBytes errors
  end.

(** [{ valid, errors }] *)
Record ValidationResult := {
  valid : bool;
  validation_errors : list string;
}.

(** The defaults of [validateBulkUploadFiles]. *)
Definition DEFAULT_MAX_COUNT : Z := 60.
Definition DEFAULT_MAX_SIZE_BYTES : Z := 100 * 1024 * 1024.

Definition validateBulkUploadFiles (files : list File) (maxCount maxSizeBytes : Z)
    : ValidationResult :=
  let errors := [] in
  let errors :=
    if (length files =? 0)%nat then errors ++ ["Please select at least one file"]
    else errors in
  let errors :=
    if maxCount <? Z.of_nat (length files)
    then errors ++ ["Maximum " +:+ pretty maxCount +:+ " files allowed"]
    else errors in
  let errors := checkEach files maxSizeBytes errors in
  {| valid := (length errors =? 0)%nat; validation_errors := errors |}.

End BulkUpload.

(** ** [src/services/mediaService.ts] *)

Module MediaService.

Definition inferMediaType (contentType : string) : Functions.MediaType :=
  if String.prefix "video/" contentType then Functions.video else Functions.image.

(** [s.includes(c)], for a one-character [c]. *)
Fixpoint includes (c : ascii) (s : string) : bool :=
  match s with
  | EmptyString => false
  | String c' rest => Ascii.eqb c' c || includes c rest
  end.

(** [s.split(separator)], for a one-character separator: the pieces between
    the separators, in order; there is always at least one. *)
Fixpoint split (separator : ascii) (s : string) : list string :=
  match s with
  | EmptyString => [EmptyString]
  | String c rest =>
      if Ascii.eqb c separator then EmptyString :: split separator rest
      else
        match split separator rest with
        | piece :: pieces => String c piece :: pieces
        | [] => [String c EmptyString]
        end
  end.

(** [file.name.includes('.') ? file.name.split('.').pop() ?? 'bin' : 'bin'];
    [pop] gives the last piece, or [undefined] for an empty array. *)
Definition safeExtension (name : string) : string :=
  if includes "."%char name then default "bin" (last (split "."%char name)) else "bin".

(** The browser and the object storage are outside the repository: the
    identifiers [crypto.randomUUID] draws and what the storage answers are
    left open. *)
Record Platform := {
  crypto_randomUUID : nat → string;
  uploadBytes_answer : list (string * BulkUpload.File) → string → BulkUpload.File
                       → Result unit;
  getDownloadURL_answer : list (string * BulkUpload.File) → string → Result string;
}.

(** The objects written to storage so far, each with its path, and the
    number of identifiers drawn. *)
Record World := {
  objects : list (string * BulkUpload.File);
  uuidCalls : nat;
}.

Section WithPlatform.

Variable platform : Platform.

Definition randomUUID : Eff World string :=
  λ w, (Ok (crypto_randomUUID platform (uuidCalls w)),
        {| objects := objects w; uuidCalls := S (uuidCalls w) |}).

(** [uploadBytes(ref(storage, storagePath), file, { contentType: file.type })] *)
Definition uploadBytes (storagePath : string) (file : BulkUpload.File) : Eff World unit :=
  λ w, match uploadBytes_answer platform (objects w) storagePath file with
       | Ok _ =>
           (Ok (), {| objects := objects w ++ [(storagePath, file)];
                      uuidCalls := uuidCalls w |})
       | Throw e => (Throw e, w)
       end.

Definition getDownloadURL (storagePath : string) : Eff World string :=
  λ w, (getDownloadURL_answer platform (objects w) storagePath, w).

Definition uploadTweetMedia (userId : string) (file : BulkUpload.File)
    : Eff World BulkUpload.TweetMedia :=
  let* mediaId := randomUUID in
  let safeExtension := safeExtension (BulkUpload.name file) in
  let storagePath := "tweets/" +:+ userId +:+ "/" +:+ mediaId +:+ "." +:+ safeExtension in
  uploadBytes storagePath file ;;;
  let* downloadUrl := getDownloadURL storagePath in
  ret {| BulkUpload.id := mediaId;
         BulkUpload.storagePath := storagePath;
         BulkUpload.downloadUrl := downloadUrl;
         BulkUpload.contentType := BulkUpload.type file;
         BulkUpload.mediaSize := BulkUpload.size file;
         BulkUpload.mediaType := inferMediaType (BulkUpload.type file) |}.

End WithPlatform.

End MediaService.

(** ** Example data *)

Module Examples.

Definition existingTweets : list Schedule.Tweet :=
  [ {| Schedule.id := "a"; Schedule.text := "first"; Schedule.scheduledFor := 0 |};
    {| Schedule.id := "b"; Schedule.text := "second"; Schedule.scheduledFor := 3600000 |} ].

(** Half past three in the morning of the first day, zone-local. *)
Definition halfPastThree : Schedule.Date := -1800000.

Import Functions.

(** A client whose uploads and posts all succeed. *)
Definition obligingClient : TwitterClient :=
  {| v1_uploadMedia := λ history _ _, Ok ("media-" +:+ pretty (length history));
     v2_tweet := λ _ _, Ok () |}.

Definition obligingTwitterApi (credentials : TwitterClientCredentials)
    : Result TwitterClient :=
  Ok obligingClient.

Definition png (path : string) : TweetMediaDoc :=
  {| id := Some path; storagePath := Some path; contentType := Some "image/png";
     type := Some image |}.

Definition withoutContentType (path : string) : TweetMediaDoc :=
  {| id := Some path; storagePath := Some path; contentType := None;
     type := Some image |}.

Definition tweetOf (s : StoredTweetStatus) (attachments : option (list TweetMediaDoc))
    : TweetDocData :=
  {| authorUid := "alice"; groupId := "g1"; accountId := "a1"; text := "hello";
     scheduledFor := 0; status := s; media := attachments;
     lastUpdatedAt := None; lastError := Some "earlier failure"; postedAt := None |}.

Definition aliceAccount : TwitterAccountDoc :=
  {| provider := "twitter"; ownerUid := "alice"; displayName := None; handle := None;
     twitter := Some {| appKey := "k"; appSecret := "s";
                        accessToken := "t"; accessSecret := "u" |} |}.

Definition worldOf (doc : TweetDocData)
    (accounts : gmap (string * string) TwitterAccountDoc) : World :=
  {| tweets := {[ "t1" := doc ]};
     socialAccounts := accounts;
     bucket := {[ "1.png" := []; "2.png" := []; "3.png" := []; "4.png" := [];
                  "5.png" := [] ]};
     serverTime := 1000;
     calls := [] |}.

Definition withAccount : gmap (string * string) TwitterAccountDoc :=
  {[ ("g1", "a1") := aliceAccount ]}.

Definition fivePictures : list TweetMediaDoc :=
  [png "1.png"; png "2.png"; png "3.png"; png "4.png"; png "5.png"].

Import BulkUpload.

Definition picture (n : string) : File :=
  {| name := n; BulkUpload.type := "image/png"; size := 10 |}.

(** Services whose uploads fail for the file [bad.png]. *)
Definition someServices : Services :=
  {| uploadTweetMedia_answer := λ _ _ file,
       if String.eqb (name file) "bad.png" then Throw (JsError "upload refused")
       else Ok {| BulkUpload.id := name file; BulkUpload.storagePath := name file;
                  downloadUrl := name file; BulkUpload.contentType := "image/png";
                  mediaSize := 10; mediaType := image |};
     createTweet_answer := λ _ _ _, Ok ();
     Math_random := λ k, (k + 1)%nat |}.

Definition optionsOf (fs : list File) (ss : list Schedule.Date) : BulkScheduleOptions :=
  {| userId := "alice"; files := fs; options_groupId := "g1";
     options_accountId := "a1"; slots := ss |}.

Definition nothingYet : BulkUpload.World := {| effects := []; randomCalls := 0 |}.

(** An item scheduled at the slot the allocator returns for
    [existingTweets] at [halfPastThree]. *)
Definition thirdTweet : Schedule.Tweet :=
  {| Schedule.id := "c"; Schedule.text := "third"; Schedule.scheduledFor := 7200000 |}.

(** The account of somebody else, under the group and account of the tweets
    of [tweetOf]. *)
Definition withForeignAccount : gmap (string * string) Functions.TwitterAccountDoc :=
  {[ ("g1", "a1") :=
       {| Functions.provider := "twitter"; Functions.ownerUid := "bob";
          Functions.displayName := None; Functions.handle := None;
          Functions.twitter :=
            Some {| Functions.appKey := "k"; Functions.appSecret := "s";
                    Functions.accessToken := "t"; Functions.accessSecret := "u" |} |} ]}.

(** An environment with the key in [process.env], padded, and the secret in
    the runtime configuration only. *)
Definition someEnvironment : Config.Environment :=
  {| Config.env := {[ "TWITTER_API_KEY" := " key " ]};
     Config.twitter_api_key := Some "ignored";
     Config.twitter_api_secret := Some "secret" |}.

(** An environment without application credentials. *)
Definition emptyEnvironment : Config.Environment :=
  {| Config.env := ∅;
     Config.twitter_api_key := None;
     Config.twitter_api_secret := Some "  " |}.

(** A store in which alice has legacy credentials, and nothing else. *)
Definition legacyStore : Provision.Store :=
  {| Provision.groups := ∅;
     Provision.accounts := ∅;
     Provision.twitterCredentials :=
       {[ "alice" :=
            {| Provision.legacy_handle := Some "@alice";
               Provision.legacy_screenName := None;
               Provision.legacy_displayName := None;
               Provision.legacy_accessToken := Some "t";
               Provision.legacy_accessSecret := Some "u" |} ]};
     Provision.clock := 1000 |}.

(** A store whose writes all succeed. *)
Definition obligingBackend : Provision.Backend :=
  {| Provision.add_group := λ _, Ok "g9";
     Provision.add_account := λ _ _, Ok "a9";
     Provision.delete_group := λ _ _, Ok () |}.

(** A store that creates groups and then stops answering. *)
Definition brokenBackend : Provision.Backend :=
  {| Provision.add_group := λ _, Ok "g9";
     Provision.add_account := λ _ _, Throw (JsError "unavailable");
     Provision.delete_group := λ _ _, Throw (JsError "unavailable") |}.

Definition teamRequest : Provision.ProvisionData :=
  {| Provision.groupName := Some " Team ";
     Provision.accountDisplayName := None |}.

(** A browser and a storage that answer every call. *)
Definition obligingPlatform : MediaService.Platform :=
  {| MediaService.crypto_randomUUID := λ k, "uuid-" +:+ pretty k;
     MediaService.uploadBytes_answer := λ _ _ _, Ok ();
     MediaService.getDownloadURL_answer := λ _ path, Ok ("https://storage/" +:+ path) |}.

Definition holidayPicture : BulkUpload.File :=
  {| BulkUpload.name := "holiday.2024.png";
     BulkUpload.type := "image/png";
     BulkUpload.size := 2048 |}.

End Examples.

(** * Vocabulary of the properties *)

(** Linear arithmetic with division and remainder by the constants of the
    time grid. *)
Ltac divmod_lia := Z.div_mod_to_equations; lia.

(** ** The slot allocator *)

Module ScheduleSpec.
Import Schedule.

(** The instant the loops build for a day and an hour. *)
Definition slotAt (day hour : Z) : Date := fromZonedTime (setHours day hour).

Definition dayCandidates (baseDay dayOffset : Z) : list Date :=
  slotAt (addDays baseDay dayOffset) <$> SLOT_HOURS.

(** All instants the two loops visit, in the order they visit them. *)
Definition candidates (baseDay : Z) (dayOffsets : list Z) : list Date :=
  dayOffsets ≫= dayCandidates baseDay.

(** A candidate the loops accept. *)
Definition free (takenSlots : gset SlotKey) (now : Date) (slot : Date) : Prop :=
  now < slot ∧ formatSlotKey slot ∉ takenSlots.

#[global] Instance free_dec takenSlots now slot : Decision (free takenSlots now slot).
Proof. unfold free. apply _. Defined.

(** An existing item already holds the slot key of [slot]. *)
Definition collides (tweets : list Tweet) (slot : Date) : Prop :=
  ∃ tweet, tweet ∈ tweets ∧ formatSlotKey (scheduledFor tweet) = formatSlotKey slot.

End ScheduleSpec.

(** ** The publication coordinator *)

Module FunctionsSpec.
Import Functions.

(** The world after one write of [doc'] at [tweetRef]. *)
Definition written (tweetRef : string) (doc' : TweetDocData) (w : World) : World :=
  {| tweets := <[tweetRef := doc']> (tweets w);
     socialAccounts := socialAccounts w;
     bucket := bucket w;
     serverTime := serverTime w + 1;
     calls := calls w |}.

(** The document [markTweetPosted] leaves. *)
Definition postedDoc (now : Timestamp) (doc : TweetDocData) : TweetDocData :=
  {| authorUid := authorUid doc; groupId := groupId doc; accountId := accountId doc;
     text := text doc; scheduledFor := scheduledFor doc; status := posted;
     media := media doc; lastUpdatedAt := Some now;
     lastError := None; postedAt := Some now |}.

(** The document [markTweetFailure] leaves. *)
Definition failedDoc (now : Timestamp) (message : string) (doc : TweetDocData)
    : TweetDocData :=
  {| authorUid := authorUid doc; groupId := groupId doc; accountId := accountId doc;
     text := text doc; scheduledFor := scheduledFor doc; status := failed;
     media := media doc; lastUpdatedAt := Some now;
     lastError := Some message; postedAt := postedAt doc |}.

(** The document the lock transaction leaves: [status = processing],
    [lastError] cleared, [lastUpdatedAt] stamped, the rest as it was. *)
Definition lockedDoc (now : Timestamp) (doc : TweetDocData) : TweetDocData :=
  {| authorUid := authorUid doc; groupId := groupId doc; accountId := accountId doc;
     text := text doc; scheduledFor := scheduledFor doc; status := processing;
     media := media doc; lastUpdatedAt := Some now;
     lastError := None; postedAt := postedAt doc |}.

(** The world after the calls [new] to the network client. *)
Definition called (new : list Call) (w : World) : World :=
  {| tweets := tweets w; socialAccounts := socialAccounts w; bucket := bucket w;
     serverTime := serverTime w; calls := calls w ++ new |}.

Definition isUpload (c : Call) : Prop :=
  match c with CallUploadMedia _ _ _ => True | CallTweet _ _ => False end.

(** A post the network accepted. *)
Definition isPost (c : Call) : Prop :=
  match c with CallTweet _ (Ok _) => True | _ => False end.

#[global] Instance isPost_dec c : Decision (isPost c).
Proof. destruct c as [| ? []]; cbn; apply _. Defined.

(** The number of successful posts among the calls. *)
Definition posts (cs : list Call) : nat := length (filter isPost cs).

(** An attachment the upload loop can send: both fields present, and the
    bytes in the bucket. *)
Definition sendable (w : World) (item : TweetMediaDoc) : Prop :=
  ∃ path mimeType, storagePath item = Some path ∧ path ≠ ""
    ∧ contentType item = Some mimeType ∧ mimeType ≠ ""
    ∧ is_Some (bucket w !! path).

(** The upload call for a sendable attachment that the network answered with
    the handle [mediaId]. *)
Definition uploadCall (w : World) (item : TweetMediaDoc) (mediaId : string) : Call :=
  CallUploadMedia (default [] (bucket w !! default "" (storagePath item)))
                  (default "" (contentType item)) (Ok mediaId).

(** Why the upload of [item] failed, with the error the loop throws; [ups] are
    the calls the loop made. *)
Inductive UploadFailure (client : TwitterClient) (w : World) (ups : list Call)
    (item : TweetMediaDoc) : Exn → Prop :=
| MissingField :
    truthy (storagePath item) = false ∨ truthy (contentType item) = false →
    UploadFailure client w ups item
      (JsError "Media attachment missing storage path or content type.")
| MissingBytes path :
    storagePath item = Some path →
    bucket w !! path = None →
    UploadFailure client w ups item
      (JsError ("Unable to upload media " +:+ path +:+ ": " +:+
                ("Media file not found at path " +:+ path)))
| ProviderFailure path mimeType buffer history error :
    storagePath item = Some path →
    contentType item = Some mimeType →
    bucket w !! path = Some buffer →
    v1_uploadMedia client history buffer mimeType = Throw error →
    last ups = Some (CallUploadMedia buffer mimeType (Throw error)) →
    UploadFailure client w ups item
      (JsError ("Unable to upload media " +:+ path +:+ ": " +:+
                messageOr "Unknown error while uploading media." error)).

(** The code of the error a manual publish throws for a failure after the lock
    was taken, by the account [fetchTwitterAccountCredentials] found. *)
Definition postLockFailureCode (caller : string) (account : option Account)
    : HttpsErrorCode :=
  match account with
  | None => failed_precondition
  | Some account =>
      if String.eqb (account_ownerUid account) caller then internal
      else permission_denied
  end.

(** An attempt on an item: the sweep, with the data of its query snapshot, or
    a manual publish by an authenticated caller. *)
Inductive Attempt :=
| SweepAttempt (data : TweetDocData)
| ManualAttempt (caller : string).

Definition isSweep (attempt : Attempt) : Prop :=
  match attempt with SweepAttempt _ => True | ManualAttempt _ => False end.

(** A manual attempt made by the author of the item. *)
Definition byAuthor (doc : TweetDocData) (attempt : Attempt) : Prop :=
  match attempt with
  | SweepAttempt _ => True
  | ManualAttempt caller => caller = authorUid doc
  end.

Definition statusOf (tweetRef : string) (w : World) : option StoredTweetStatus :=
  status <$> tweets w !! tweetRef.

(** What the functions never change of an item. *)
Definition contentOf (doc : TweetDocData)
    : string * string * string * string * Timestamp * option (list TweetMediaDoc) :=
  (authorUid doc, groupId doc, accountId doc, text doc, scheduledFor doc, media doc).

(** From [w] to [w'], at most the item [tweetRef] was written, and of it
    neither author, group, account, text, schedule nor media; the other
    documents, the accounts and the bucket are the same, and calls were only
    added. *)
Definition touchesOnly (tweetRef : string) (w w' : World) : Prop :=
  socialAccounts w' = socialAccounts w
  ∧ bucket w' = bucket w
  ∧ (∀ other, other ≠ tweetRef → tweets w' !! other = tweets w !! other)
  ∧ contentOf <$> tweets w' !! tweetRef = contentOf <$> tweets w !! tweetRef
  ∧ calls w `prefix_of` calls w'.

(** The order of the schedule alone. *)
Definition notLater (a b : string * TweetDocData) : Prop :=
  scheduledFor a.2 <= scheduledFor b.2.

End FunctionsSpec.

(** ** Two attempts on one item *)

Module RaceSpec.
Import Functions FunctionsSpec Async.

(** What an attempt returns: [processTweetDocument] nothing,
    [publishTweetNow] its response. *)
Definition AttemptResult (attempt : Attempt) : Type :=
  match attempt with
  | SweepAttempt _ => unit
  | ManualAttempt _ => PublishResponse
  end.

(** The attempt as a routine: the sweep's treatment of the item, or a manual
    publish that names the item. *)
Definition attemptRoutine (TwitterApi : TwitterClientCredentials → Result TwitterClient)
    (attempt : Attempt) (tweetRef : string) : Routine (AttemptResult attempt) :=
  match attempt with
  | SweepAttempt data => Async.processTweetDocument TwitterApi tweetRef data
  | ManualAttempt caller =>
      Async.publishTweetNow TwitterApi (Some tweetRef) (Some {| uid := caller |})
  end.

(** The first operation of an attempt is its lock transaction. *)
Definition lockEvent (side : Side) (events : list Event) : option Event :=
  head (filter (λ e, actor e = side) events).

(** The operation took the lock: it found the item not in [processing] and
    left it there. *)
Definition takesLock (tweetRef : string) (e : Event) : Prop :=
  statusOf tweetRef (before e) ≠ Some processing
  ∧ statusOf tweetRef (after e) = Some processing.

Definition writesNothing (e : Event) : Prop := after e = before e.

Definition otherSide (side : Side) : Side :=
  match side with
  | FirstAttempt => SecondAttempt
  | SecondAttempt => FirstAttempt
  end.

(** A manual attempt that is over was turned down with
    [failed-precondition]. *)
Definition turnedDown (attempt : Attempt) : Result (AttemptResult attempt) → Prop :=
  match attempt with
  | SweepAttempt _ => λ _, True
  | ManualAttempt _ => λ r, ∃ message, r = Throw (HttpsError failed_precondition message)
  end.

(** *** What the holder of the lock does

    [Steps tweetRef Q budget ended t]: served from a world in which the item
    is [processing], every operation of [t] touches the item alone and
    either leaves it [processing], with at most [budget] posts accepted from
    here on, or is the one write that ends the attempt, to [posted] or, no
    post having been accepted, to [failed]; after that write ([ended]) the
    routine awaits nothing more; where it finishes, [Q] holds. *)
Fixpoint Steps {A} (tweetRef : string) (Q : nat → bool → Result A → Prop)
    (budget : nat) (ended : bool) (t : Routine A) : Prop :=
  match t with
  | Finished r => Q budget ended r
  | Await operation continuation =>
      ended = false
      ∧ ∀ w r w1,
          statusOf tweetRef w = Some processing →
          operation w = (r, w1) →
          touchesOnly tweetRef w w1
          ∧ ((statusOf tweetRef w1 = Some processing
              ∧ ∃ used, (used ≤ budget)%nat
                  ∧ posts (calls w1) = (posts (calls w) + used)%nat
                  ∧ Steps tweetRef Q (budget - used) false (continuation r))
             ∨ ((statusOf tweetRef w1 = Some posted
                 ∨ (statusOf tweetRef w1 = Some failed ∧ budget = 1%nat))
                ∧ posts (calls w1) = posts (calls w)
                ∧ Steps tweetRef Q budget true (continuation r)))
  end.

(** The holder finishes only after the write that ends the attempt. *)
Definition holderDone {A} : nat → bool → Result A → Prop :=
  λ _ ended _, ended = true.

(** The part of the holder's work that leaves the item [processing] and
    accepts no post. *)
Definition stillHolding {A} (budget : nat) : nat → bool → Result A → Prop :=
  λ budget' ended _, budget' = budget ∧ ended = false.

(** Where an attempt is: before its lock transaction, holding the lock (with
    the number of posts it may still have accepted), or over. *)
Inductive Phase :=
| Fresh
| Holding (budget : nat)
| Over.

Definition notHolding (phase : Phase) : Prop :=
  match phase with Holding _ => False | _ => True end.

Definition setPhase (side : Side) (phase : Phase) (phases : Side → Phase)
    : Side → Phase :=
  λ side', if decide (side' = side) then phase else phases side'.

Section Invariant.

Variable TwitterApi : TwitterClientCredentials → Result TwitterClient.
Variable tweetRef : string.
(** The author of the item, and the posts accepted before the attempts. *)
Variable author : string.
Variable posts0 : nat.
Variable attempts : Side → Attempt.

Definition inPhase (attempt : Attempt) (t : Routine (AttemptResult attempt))
    (phase : Phase) : Prop :=
  match phase with
  | Fresh => t = attemptRoutine TwitterApi attempt tweetRef
  | Holding budget => isSweep attempt ∧ Steps tweetRef holderDone budget false t
  | Over => ∃ r, t = Finished r ∧ turnedDown attempt r
  end.

(** One operation of an attempt, from [w] to [w1]. *)
Inductive Step (attempt : Attempt) (w w1 : World) : Phase → Phase → Prop :=
| Step_lock doc :
    isSweep attempt →
    tweets w !! tweetRef = Some doc →
    status doc = scheduled ∨ status doc = failed →
    w1 = written tweetRef (lockedDoc (serverTime w) doc) w →
    Step attempt w w1 Fresh (Holding 1)
| Step_refused :
    (¬ isSweep attempt
     ∨ statusOf tweetRef w = Some processing ∨ statusOf tweetRef w = Some posted) →
    w1 = w →
    Step attempt w w1 Fresh Over
| Step_work budget used :
    (used ≤ budget)%nat →
    touchesOnly tweetRef w w1 →
    statusOf tweetRef w1 = Some processing →
    posts (calls w1) = (posts (calls w) + used)%nat →
    Step attempt w w1 (Holding budget) (Holding (budget - used))
| Step_end budget :
    touchesOnly tweetRef w w1 →
    statusOf tweetRef w1 = Some posted
    ∨ (statusOf tweetRef w1 = Some failed ∧ budget = 1%nat) →
    posts (calls w1) = posts (calls w) →
    Step attempt w w1 (Holding budget) Over.

(** What holds between two operations, whoever is served next. *)
Definition Inv (phases : Side → Phase) (w : World) : Prop :=
  (∀ side budget, phases side = Holding budget → isSweep (attempts side))
  ∧ ∃ doc,
      tweets w !! tweetRef = Some doc
      ∧ authorUid doc = author
      ∧ match status doc with
        | scheduled =>
            posts (calls w) = posts0
            ∧ (∀ side, notHolding (phases side))
            ∧ (∀ side, isSweep (attempts side) → phases side = Fresh)
        | processing =>
            ∃ holder budget,
              phases holder = Holding budget
              ∧ notHolding (phases (otherSide holder))
              ∧ (posts (calls w) + budget = posts0 + 1)%nat
        | failed =>
            posts (calls w) = posts0
            ∧ (∀ side, notHolding (phases side))
            ∧ ∃ side, isSweep (attempts side) ∧ phases side = Over
        | posted =>
            (posts (calls w) ≤ posts0 + 1)%nat
            ∧ (∀ side, notHolding (phases side))
        | _ => False
        end.

(** What the lock transaction of an attempt saw and did. *)
Definition lockOutcome (side : Side) (e : Event) : Prop :=
  (statusOf tweetRef (before e) = Some processing
   ∨ statusOf tweetRef (before e) = Some posted → writesNothing e)
  ∧ (takesLock tweetRef e ∨ writesNothing e)
  ∧ (¬ isSweep (attempts side) → writesNothing e)
  ∧ (takesLock tweetRef e →
     statusOf tweetRef (before e) = Some scheduled
     ∨ (statusOf tweetRef (before e) = Some failed
        ∧ posts (calls (before e)) = posts0
        ∧ isSweep (attempts FirstAttempt) ∧ isSweep (attempts SecondAttempt))).

(** What is true of the rest of a run, from a point where [Inv] holds. *)
Definition Outcome (phases : Side → Phase) (w : World) (events : list Event)
    (w' : World) : Prop :=
  (posts (calls w') ≤ posts0 + 1)%nat
  ∧ (statusOf tweetRef w' = Some posted ∨ statusOf tweetRef w' = Some failed)
  ∧ (∀ side, phases side = Fresh →
       ∃ e, lockEvent side events = Some e ∧ lockOutcome side e)
  ∧ (statusOf tweetRef w ≠ Some scheduled →
     Forall (λ e, statusOf tweetRef (before e) ≠ Some scheduled) events)
  ∧ (statusOf tweetRef w = Some scheduled →
     ∃ side e, phases side = Fresh ∧ lockEvent side events = Some e
               ∧ takesLock tweetRef e)
  ∧ (∀ side e e',
       phases side = Fresh → phases (otherSide side) = Fresh →
       lockEvent side events = Some e →
       lockEvent (otherSide side) events = Some e' →
       takesLock tweetRef e → takesLock tweetRef e' →
       statusOf tweetRef (before e) = Some failed
       ∨ statusOf tweetRef (before e') = Some failed).

End Invariant.

End RaceSpec.

(** ** The bulk scheduler *)

Module BulkUploadSpec.
Import BulkUpload.

(** The files whose upload was attempted, in the order of the attempts. *)
Definition attempted (es : list Effect) : list File :=
  omap (λ e, match e with
             | UploadTweetMedia _ file _ => Some file
             | _ => None
             end) es.

(** A progress callback that returns. *)
Definition returns (onProgress : option ProgressCallback) : Prop :=
  ∀ callback, onProgress = Some callback →
    ∀ history progress, callback history progress = Ok ().

(** The drafts [createTweet] was called with, in the order of the calls. *)
Definition created (es : list Effect) : list TweetDraft :=
  omap (λ e, match e with
             | CreateTweet _ draft _ => Some draft
             | _ => None
             end) es.

(** A file the validation accepts: an image or a video, not over the size. *)
Definition acceptable (maxSizeBytes : Z) (file : File) : Prop :=
  (String.prefix "image/" (type file) = true ∨ String.prefix "video/" (type file) = true)
  ∧ size file <= maxSizeBytes.

(** A draft as the bulk scheduler makes them: no text, [scheduled], the group
    and account of the options, and one media attachment. *)
Definition bulkDraft (options : BulkScheduleOptions) (draft : TweetDraft) : Prop :=
  text draft = ""
  ∧ status draft = Some Functions.scheduled
  ∧ groupId draft = options_groupId options
  ∧ accountId draft = options_accountId options
  ∧ ∃ uploaded, media draft = Some [uploaded].

End BulkUploadSpec.

(** ** Provisioning *)

Module ProvisionSpec.
Import Functions Provision.

(** A source of a credential that gives nothing: not there, or white space
    only. *)
Definition blank (s : option string) : Prop :=
  match s with
  | Some s => trim s = ""
  | None => True
  end.

(** [value] is what [first] gives, trimmed, or else what [second] gives. *)
Definition resolvedFrom (first second : option string) (value : string) : Prop :=
  value ≠ "" ∧ trim value = value
  ∧ ((¬ blank first ∧ trim <$> first = Some value)
     ∨ (blank first ∧ ¬ blank second ∧ trim <$> second = Some value)).

(** The group name the callable works with. *)
Definition groupNameOf (data : ProvisionData) : string :=
  match groupName data with Some s => trim s | None => "" end.

End ProvisionSpec.

(** * Properties *)


(** ** The slot allocator as a search over one sorted list of candidates *)

Section ScheduleFacts.
Import Schedule ScheduleSpec.


Lemma scanHours_filter takenSlots now day hours :
  scanHours takenSlots now day hours
  = head (filter (free takenSlots now) (slotAt day <$> hours)).
Proof.
  induction hours as [|hour rest IH]; [done|].
  cbn [scanHours fmap list_fmap]. rewrite filter_cons. fold (slotAt day hour).
  destruct (Z.leb_spec (slotAt day hour) now) as [Hle|Hlt].
  - rewrite decide_False; [exact IH|]. unfold free. lia.
  - unfold has. case_bool_decide as Hin; simpl.
    + rewrite decide_False; [exact IH|]. unfold free. tauto.
    + rewrite decide_True; [done|]. by split.
Qed.

Lemma scanDays_filter takenSlots now baseDay dayOffsets :
  scanDays takenSlots now baseDay dayOffsets
  = head (filter (free takenSlots now) (candidates baseDay dayOffsets)).
Proof.
  induction dayOffsets as [|dayOffset rest IH]; [done|].
  cbn [scanDays]. unfold candidates. cbn [mbind list_bind].
  rewrite filter_app, scanHours_filter.
  fold (dayCandidates baseDay dayOffset).
  destruct (filter _ (dayCandidates baseDay dayOffset)) as [|s l]; [|done].
  exact IH.
Qed.

Lemma collectHours_filter takenSlots now count day hours slots :
  collectHours takenSlots now count day hours slots
  = slots ++ take (Z.to_nat (count - Z.of_nat (length slots)))
                  (filter (free takenSlots now) (slotAt day <$> hours)).
Proof.
  revert slots. induction hours as [|hour rest IH]; intros slots.
  { cbn. by rewrite take_nil, app_nil_r. }
  cbn [collectHours fmap list_fmap].
  destruct (Z.geb_spec (Z.of_nat (length slots)) count) as [Hge|Hlt].
  { replace (Z.to_nat _) with 0%nat by lia. by rewrite take_0, app_nil_r. }
  rewrite filter_cons. fold (slotAt day hour).
  destruct (Z.leb_spec (slotAt day hour) now) as [Hle|Hnow].
  - rewrite decide_False; [apply IH|]. unfold free. lia.
  - unfold has. case_bool_decide as Hin; simpl.
    + rewrite decide_False; [apply IH|]. unfold free. tauto.
    + rewrite decide_True by (by split). rewrite IH, length_app.
      cbn [length]. rewrite <- app_assoc. cbn [app]. f_equal.
      replace (Z.to_nat (count - Z.of_nat (length slots)))
        with (S (Z.to_nat (count - Z.of_nat (length slots + 1)))) by lia.
      done.
Qed.

Lemma collectDays_filter takenSlots now count baseDay dayOffsets slots :
  collectDays takenSlots now count baseDay dayOffsets slots
  = slots ++ take (Z.to_nat (count - Z.of_nat (length slots)))
                  (filter (free takenSlots now) (candidates baseDay dayOffsets)).
Proof.
  revert slots. induction dayOffsets as [|dayOffset rest IH]; intros slots.
  { unfold candidates. cbn. by rewrite take_nil, app_nil_r. }
  cbn [collectDays].
  destruct (Z.ltb_spec (Z.of_nat (length slots)) count) as [Hlt|Hge].
  - rewrite IH, collectHours_filter. unfold candidates. cbn [mbind list_bind].
    fold (dayCandidates baseDay dayOffset). fold (candidates baseDay rest).
    rewrite filter_app, take_app, <- app_assoc. f_equal. f_equal.
    rewrite length_app.
    set (n := Z.to_nat (count - Z.of_nat (length slots))).
    set (l1 := filter (free takenSlots now) (dayCandidates baseDay dayOffset)).
    rewrite length_take. f_equal. lia.
  - replace (Z.to_nat _) with 0%nat by lia. by rewrite take_0, app_nil_r.
Qed.


Lemma elem_of_SLOT_HOURS hour : hour ∈ SLOT_HOURS ↔ 4 <= hour <= 19.
Proof.
  unfold SLOT_HOURS. rewrite list_elem_of_fmap. split.
  - intros (index & -> & Hin). apply elem_of_seq in Hin. lia.
  - intros Hh. exists (Z.to_nat (hour - 4)). split; [lia|].
    apply elem_of_seq. lia.
Qed.

Lemma elem_of_DAY_OFFSETS dayOffset : dayOffset ∈ DAY_OFFSETS ↔ 0 <= dayOffset < 365.
Proof.
  unfold DAY_OFFSETS. rewrite list_elem_of_fmap. split.
  - intros (index & -> & Hin). apply elem_of_seq in Hin. lia.
  - intros Hd. exists (Z.to_nat dayOffset). split; [lia|].
    apply elem_of_seq. lia.
Qed.

Lemma seq_sorted (start len : nat) : StronglySorted lt (seq start len).
Proof.
  revert start. induction len as [|len IH]; intros start; cbn [seq].
  - constructor.
  - constructor; [apply IH|]. apply Forall_forall. intros x Hx.
    apply elem_of_seq in Hx. lia.
Qed.

Lemma SLOT_HOURS_sorted : StronglySorted Z.lt SLOT_HOURS.
Proof.
  unfold SLOT_HOURS. eapply StronglySorted_fmap; [|apply seq_sorted].
  intros x y Hxy. lia.
Qed.

Lemma DAY_OFFSETS_sorted : StronglySorted Z.lt DAY_OFFSETS.
Proof.
  unfold DAY_OFFSETS. eapply StronglySorted_fmap; [|apply seq_sorted].
  intros x y Hxy. lia.
Qed.

(** The start of a day is a whole number of days. *)
Lemma startOfDay_whole local : startOfDay local mod MS_PER_DAY = 0.
Proof. unfold startOfDay, MS_PER_DAY. divmod_lia. Qed.

Lemma startOfDay_le local : startOfDay local <= local < startOfDay local + MS_PER_DAY.
Proof. unfold startOfDay, MS_PER_DAY. divmod_lia. Qed.

Lemma slotAt_addDays baseDay dayOffset hour :
  baseDay mod MS_PER_DAY = 0 →
  slotAt (addDays baseDay dayOffset) hour
  = baseDay + dayOffset * MS_PER_DAY + hour * MS_PER_HOUR - TIMEZONE_OFFSET.
Proof.
  unfold slotAt, fromZonedTime, setHours, startOfDay, addDays,
    TIMEZONE_OFFSET, MS_PER_DAY, MS_PER_HOUR.
  intros Hbase. divmod_lia.
Qed.


Lemma elem_of_candidates baseDay dayOffsets slot :
  slot ∈ candidates baseDay dayOffsets ↔
  ∃ dayOffset hour, dayOffset ∈ dayOffsets ∧ hour ∈ SLOT_HOURS
                    ∧ slot = slotAt (addDays baseDay dayOffset) hour.
Proof.
  unfold candidates, dayCandidates. rewrite list_elem_of_bind. split.
  - intros (dayOffset & Hslot & Hin). apply list_elem_of_fmap in Hslot.
    destruct Hslot as (hour & -> & Hhour). eauto.
  - intros (dayOffset & hour & Hin & Hhour & ->). exists dayOffset.
    split; [|done]. apply list_elem_of_fmap. eauto.
Qed.

(** The loops visit the candidates in chronological order. *)
Lemma candidates_sorted baseDay dayOffsets :
  baseDay mod MS_PER_DAY = 0 →
  StronglySorted Z.lt dayOffsets →
  StronglySorted Z.lt (candidates baseDay dayOffsets).
Proof.
  intros Hbase. induction 1 as [|dayOffset rest Hrest IH Hlt].
  { constructor. }
  unfold candidates. rewrite bind_cons. apply StronglySorted_app.
  split; [|split].
  - intros x1 x2 Hx1 Hx2.
    apply list_elem_of_fmap in Hx1. destruct Hx1 as (h1 & -> & Hh1).
    apply elem_of_candidates in Hx2. destruct Hx2 as (d2 & h2 & Hd2 & Hh2 & ->).
    rewrite !slotAt_addDays by done.
    apply elem_of_SLOT_HOURS in Hh1, Hh2.
    rewrite Forall_forall in Hlt. specialize (Hlt d2 Hd2).
    unfold MS_PER_DAY, MS_PER_HOUR. lia.
  - unfold dayCandidates. eapply StronglySorted_fmap; [|apply SLOT_HOURS_sorted].
    intros h1 h2 Hh. rewrite !slotAt_addDays by done. unfold MS_PER_HOUR. lia.
  - exact IH.
Qed.

Lemma StronglySorted_filter_lt (P : Z → Prop) `{!∀ x, Decision (P x)} (l : list Z) :
  StronglySorted Z.lt l → StronglySorted Z.lt (filter P l).
Proof.
  induction 1 as [|x l Hl IH Hx]; [constructor|].
  rewrite filter_cons. destruct (decide (P x)); [|done].
  constructor; [done|]. rewrite Forall_forall in *.
  intros y Hy. apply list_elem_of_filter in Hy as [_ Hy]. auto.
Qed.

Lemma StronglySorted_take_lt (n : nat) (l : list Z) :
  StronglySorted Z.lt l → StronglySorted Z.lt (take n l).
Proof.
  intros Hl. rewrite <- (take_drop n l) in Hl.
  by apply StronglySorted_app_1_l in Hl.
Qed.

Lemma StronglySorted_lt_NoDup (l : list Z) : StronglySorted Z.lt l → NoDup l.
Proof.
  induction 1 as [|x l Hl IH Hx]; constructor; [|done].
  intros Hin. rewrite Forall_forall in Hx. specialize (Hx x Hin). lia.
Qed.

(** The first accepted element of a sorted list is the least accepted one. *)
Lemma head_filter_least (P : Z → Prop) `{!∀ x, Decision (P x)} (l : list Z) s :
  StronglySorted Z.lt l →
  head (filter P l) = Some s →
  s ∈ l ∧ P s ∧ ∀ t, t ∈ l → P t → s <= t.
Proof.
  induction 1 as [|x l Hl IH Hx]; [done|].
  rewrite filter_cons. destruct (decide (P x)) as [HP|HnP].
  - intros [= <-]. split; [left|split; [done|]].
    intros t Ht _. apply elem_of_cons in Ht as [->|Ht]; [lia|].
    rewrite Forall_forall in Hx. specialize (Hx t Ht). lia.
  - intros Hhead. destruct (IH Hhead) as (Hin & HPs & Hmin).
    split; [by right|split; [done|]].
    intros t Ht HPt. apply elem_of_cons in Ht as [->|Ht]; [done|]. by apply Hmin.
Qed.

(** Every candidate is on the grid, and every grid instant after [now]
    within the horizon is a candidate. *)
Lemma slotAt_onGrid baseDay dayOffset hour :
  baseDay mod MS_PER_DAY = 0 → 4 <= hour <= 19 →
  onGrid (slotAt (addDays baseDay dayOffset) hour)
  ∧ localHour (slotAt (addDays baseDay dayOffset) hour) = hour
  ∧ localDay (slotAt (addDays baseDay dayOffset) hour)
    = baseDay / MS_PER_DAY + dayOffset.
Proof.
  intros Hbase Hhour. rewrite slotAt_addDays by done.
  unfold onGrid, localHour, localDay, toZonedTime, TIMEZONE_OFFSET,
    MS_PER_DAY, MS_PER_HOUR in *.
  divmod_lia.
Qed.

Lemma onGrid_slotAt slot :
  onGrid slot →
  slot = slotAt (addDays 0 (localDay slot)) (localHour slot).
Proof.
  intros [Hminute Hhour]. rewrite slotAt_addDays by done.
  unfold onGrid, localHour, localDay, toZonedTime, TIMEZONE_OFFSET,
    MS_PER_DAY, MS_PER_HOUR in *.
  divmod_lia.
Qed.


Lemma elem_of_getTakenSlotKeys tweets slot :
  formatSlotKey slot ∈ getTakenSlotKeys tweets ↔ collides tweets slot.
Proof.
  unfold getTakenSlotKeys, collides. rewrite elem_of_list_to_set, list_elem_of_fmap.
  split; intros (tweet & Hkey & Hin); exists tweet; by split.
Qed.

Lemma grid_candidate now slot :
  onGrid slot → now < slot →
  localDay slot - startOfDay (toZonedTime now) / MS_PER_DAY < 365 →
  slot ∈ candidates (startOfDay (toZonedTime now)) DAY_OFFSETS.
Proof.
  intros Hgrid Hnow Hhorizon. apply elem_of_candidates.
  exists (localDay slot - startOfDay (toZonedTime now) / MS_PER_DAY), (localHour slot).
  pose proof (startOfDay_whole (toZonedTime now)) as Hbase.
  pose proof (startOfDay_le (toZonedTime now)) as Hle.
  pose proof (onGrid_slotAt slot Hgrid) as Hslot.
  rewrite slotAt_addDays in Hslot by done.
  destruct Hgrid as [Hminute Hhour].
  split; [|split].
  - apply elem_of_DAY_OFFSETS. split; [|done].
    unfold toZonedTime, TIMEZONE_OFFSET, MS_PER_DAY, MS_PER_HOUR in *.
    divmod_lia.
  - by apply elem_of_SLOT_HOURS.
  - rewrite slotAt_addDays by done.
    unfold toZonedTime, TIMEZONE_OFFSET, MS_PER_DAY, MS_PER_HOUR in *.
    divmod_lia.
Qed.

Lemma candidate_before_horizon now slot t :
  slot ∈ candidates (startOfDay (toZonedTime now)) DAY_OFFSETS →
  onGrid t →
  365 <= localDay t - startOfDay (toZonedTime now) / MS_PER_DAY →
  slot <= t.
Proof.
  intros Hslot Hgrid Hhorizon.
  apply elem_of_candidates in Hslot as (dayOffset & hour & Hd & Hh & ->).
  apply elem_of_DAY_OFFSETS in Hd. apply elem_of_SLOT_HOURS in Hh.
  pose proof (startOfDay_whole (toZonedTime now)) as Hbase.
  pose proof (onGrid_slotAt t Hgrid) as Ht.
  rewrite slotAt_addDays in Ht by done. rewrite slotAt_addDays by done.
  destruct Hgrid as [Hminute Hhour].
  unfold toZonedTime, TIMEZONE_OFFSET, MS_PER_DAY, MS_PER_HOUR in *.
  divmod_lia.
Qed.

Lemma getNextScheduleSlot_Ok tweets now slot :
  getNextScheduleSlot tweets now = Ok slot ↔
  head (filter (free (getTakenSlotKeys tweets) now)
               (candidates (startOfDay (toZonedTime now)) DAY_OFFSETS)) = Some slot.
Proof.
  unfold getNextScheduleSlot. cbv zeta. rewrite scanDays_filter.
  destruct (head _); split; congruence.
Qed.

(** C4.  When [getNextScheduleSlot] returns an instant, that instant is the
    only value the call can return for these inputs, lies strictly after
    [now], is on the grid of local hours 4 to 19 at minute zero in the fixed
    zone, its slot key is the key of no existing item, and no other free
    grid instant after [now] comes before it. *)
Theorem getNextScheduleSlot_postcondition tweets now slot :
  getNextScheduleSlot tweets now = Ok slot →
  (∀ slot', getNextScheduleSlot tweets now = Ok slot' → slot' = slot)
  ∧ now < slot
  ∧ onGrid slot
  ∧ ¬ collides tweets slot
  ∧ (∀ t, now < t → onGrid t → ¬ collides tweets t → slot <= t).
Proof.
  intros Hok. split; [congruence|].
  apply getNextScheduleSlot_Ok in Hok.
  pose proof (startOfDay_whole (toZonedTime now)) as Hbase.
  apply head_filter_least in Hok as (Hin & [Hnow Hfree] & Hleast);
    [|by apply candidates_sorted, DAY_OFFSETS_sorted].
  split; [done|]. split; [|split].
  - apply elem_of_candidates in Hin as (dayOffset & hour & _ & Hh & ->).
    apply elem_of_SLOT_HOURS in Hh. by apply slotAt_onGrid.
  - by rewrite <- elem_of_getTakenSlotKeys.
  - intros t Ht Hgrid Hfree_t.
    destruct (Z_lt_le_dec
      (localDay t - startOfDay (toZonedTime now) / MS_PER_DAY) 365) as [Hnear|Hfar].
    + apply Hleast; [by apply grid_candidate|].
      split; [done|]. by rewrite elem_of_getTakenSlotKeys.
    + by eapply candidate_before_horizon.
Qed.


Lemma formatSlotKey_day_hour s t :
  formatSlotKey s = formatSlotKey t → localDay s = localDay t ∧ localHour s = localHour t.
Proof.
  unfold formatSlotKey, localDay, localHour. cbv zeta.
  generalize (toZonedTime s), (toZonedTime t). intros ls lt Hkey.
  split; congruence.
Qed.

Lemma getNextScheduleSlots_Ok tweets count now slots :
  getNextScheduleSlots tweets count now = Ok slots ↔
  slots = take (Z.to_nat count)
            (filter (free (getTakenSlotKeys tweets) now)
                    (candidates (startOfDay (toZonedTime now)) DAY_OFFSETS))
  ∧ count <= Z.of_nat (length slots).
Proof.
  unfold getNextScheduleSlots. cbv zeta. rewrite collectDays_filter.
  cbn [app length]. rewrite Z.sub_0_r.
  generalize (take (Z.to_nat count)
    (filter (free (getTakenSlotKeys tweets) now)
       (candidates (startOfDay (toZonedTime now)) DAY_OFFSETS))).
  intros l. destruct (Z.ltb_spec (Z.of_nat (length l)) count) as [Hlt|Hge].
  - split; [done|]. intros [-> Hle]. lia.
  - split; [intros [= <-]; by split|]. by intros [-> _].
Qed.

(** C5.  When [getNextScheduleSlots] returns for a count of [N] slots, it
    returns exactly [N] instants, pairwise distinct, each strictly after
    [now], with pairwise distinct slot keys, none of them the slot key of an
    existing item. *)
Theorem getNextScheduleSlots_distinct tweets (N : nat) now slots :
  getNextScheduleSlots tweets (Z.of_nat N) now = Ok slots →
  length slots = N
  ∧ NoDup slots
  ∧ Forall (λ slot, now < slot) slots
  ∧ NoDup (formatSlotKey <$> slots)
  ∧ Forall (λ slot, ¬ collides tweets slot) slots.
Proof.
  intros Hok. apply getNextScheduleSlots_Ok in Hok as [Hslots Hlen].
  rewrite Nat2Z.id in Hslots.
  pose proof (startOfDay_whole (toZonedTime now)) as Hbase.
  pose proof (candidates_sorted _ _ Hbase DAY_OFFSETS_sorted) as Hcands.
  assert (Hgrid : ∀ slot,
    slot ∈ candidates (startOfDay (toZonedTime now)) DAY_OFFSETS →
    ∃ dayOffset hour, 4 <= hour <= 19 ∧
      slot = slotAt (addDays (startOfDay (toZonedTime now)) dayOffset) hour).
  { intros slot Hin.
    apply elem_of_candidates in Hin as (dayOffset & hour & _ & Hh & ->).
    apply elem_of_SLOT_HOURS in Hh. eauto. }
  revert Hslots Hcands Hgrid.
  generalize (candidates (startOfDay (toZonedTime now)) DAY_OFFSETS).
  intros cands Hslots Hcands Hgrid.
  assert (Hsub : ∀ slot, slot ∈ slots →
    free (getTakenSlotKeys tweets) now slot ∧ slot ∈ cands).
  { intros slot Hin. rewrite Hslots in Hin.
    apply elem_of_take in Hin as (i & Hi & _).
    apply list_elem_of_lookup_2 in Hi. by apply list_elem_of_filter in Hi. }
  assert (Hsorted : StronglySorted Z.lt slots).
  { rewrite Hslots. by apply StronglySorted_take_lt, StronglySorted_filter_lt. }
  assert (Hnodup : NoDup slots) by by apply StronglySorted_lt_NoDup.
  split; [|split; [done|split; [|split]]].
  - assert (length slots ≤ N)%nat; [|lia].
    rewrite Hslots, length_take. lia.
  - apply Forall_forall. intros slot Hin. by destruct (Hsub slot Hin) as [[? _] _].
  - apply NoDup_fmap_2_strong; [|done].
    intros s t Hs Ht Hkey.
    destruct (Hsub s Hs) as [_ Hcs]. destruct (Hsub t Ht) as [_ Hct].
    apply Hgrid in Hcs as (ds & hs & Hhs & ->).
    apply Hgrid in Hct as (dt & ht & Hht & ->).
    apply formatSlotKey_day_hour in Hkey as [Hday Hhour].
    destruct (slotAt_onGrid _ ds hs Hbase Hhs) as (_ & Hhs' & Hds').
    destruct (slotAt_onGrid _ dt ht Hbase Hht) as (_ & Hht' & Hdt').
    rewrite Hhs', Hht' in Hhour. rewrite Hds', Hdt' in Hday.
    f_equal; [f_equal; lia|done].
  - apply Forall_forall. intros slot Hin. destruct (Hsub slot Hin) as [[_ Hfree] _].
    by rewrite <- elem_of_getTakenSlotKeys.
Qed.

(** C10.  The scalar and the bulk allocator agree: asked for one slot, the
    bulk allocator returns the one-element list of the scalar allocator's
    instant when that one returns, and throws when that one throws. *)
Theorem getNextScheduleSlots_one tweets now :
  getNextScheduleSlots tweets 1 now
  = match getNextScheduleSlot tweets now with
    | Ok slot => Ok [slot]
    | Throw _ =>
        Throw (JsError "Unable to find 1 available schedule slots within 365 days")
    end.
Proof.
  unfold getNextScheduleSlots, getNextScheduleSlot. cbv zeta.
  rewrite collectDays_filter, scanDays_filter. cbn [app length].
  destruct (filter _ _) as [|slot rest]; reflexivity.
Qed.

End ScheduleFacts.

(** The scenario of the specification: the local hours 4 and 5 of the day are
    taken, it is half past three, the next slot is the local hour 6. *)
Example slot_scenario :
  Schedule.getNextScheduleSlot Examples.existingTweets Examples.halfPastThree
  = Ok 7200000.
Proof. vm_compute. reflexivity. Qed.

Lemma getNextScheduleSlot_postcondition_witness :
  Schedule.getNextScheduleSlot Examples.existingTweets Examples.halfPastThree
  = Ok 7200000
  ∧ Examples.halfPastThree < 7200000
  ∧ Schedule.onGrid 7200000
  ∧ ¬ ScheduleSpec.collides Examples.existingTweets 7200000.
Proof.
  assert (Hrun : Schedule.getNextScheduleSlot Examples.existingTweets
                   Examples.halfPastThree = Ok 7200000)
    by (vm_compute; reflexivity).
  destruct (getNextScheduleSlot_postcondition _ _ _ Hrun)
    as (_ & Hafter & Hgrid & Hfree & _).
  by split_and!.
Defined.

Lemma getNextScheduleSlots_distinct_witness :
  Schedule.getNextScheduleSlots Examples.existingTweets 3 Examples.halfPastThree
  = Ok [7200000; 10800000; 14400000]
  ∧ NoDup [7200000; 10800000; 14400000]
  ∧ NoDup (Schedule.formatSlotKey <$> [7200000; 10800000; 14400000]).
Proof.
  assert (Hrun : Schedule.getNextScheduleSlots Examples.existingTweets
                   (Z.of_nat 3) Examples.halfPastThree
                 = Ok [7200000; 10800000; 14400000])
    by (vm_compute; reflexivity).
  destruct (getNextScheduleSlots_distinct _ 3%nat _ _ Hrun)
    as (_ & Hdistinct & _ & Hkeys & _).
  by split_and!.
Defined.

(** ** The publication coordinator *)

Section FunctionsFacts.
Import Functions FunctionsSpec.

Variable TwitterApi : TwitterClientCredentials → Result TwitterClient.

Lemma runTransaction_sweepLock_skip tweetRef doc w :
  tweets w !! tweetRef = Some doc →
  status doc = processing ∨ status doc = posted →
  runTransaction tweetRef sweepLock w = (Ok false, w).
Proof.
  intros Hdoc Hstatus. unfold runTransaction, sweepLock. rewrite Hdoc. cbn.
  destruct Hstatus as [-> | ->]; reflexivity.
Qed.

Lemma runTransaction_sweepLock_acquire tweetRef doc w :
  tweets w !! tweetRef = Some doc →
  status doc ≠ processing → status doc ≠ posted →
  runTransaction tweetRef sweepLock w
  = (Ok true, written tweetRef (lockedDoc (serverTime w) doc) w).
Proof.
  intros Hdoc Hprocessing Hposted. unfold runTransaction, sweepLock.
  rewrite Hdoc. cbn.
  rewrite !bool_decide_eq_false_2 by congruence. cbn.
  unfold bind, update. rewrite Hdoc. reflexivity.
Qed.

(** C2.  On the sweep path, when the status read in the lock transaction is
    [processing] or [posted], the attempt returns without an error and the
    world is the one it started in (no write); for every other status the
    transaction writes [status = processing], clears [lastError], stamps
    [lastUpdatedAt], and the rest of [processTweetDocument] runs in the
    world so written. *)
Theorem processTweetDocument_lock_phase tweetRef data doc w :
  tweets w !! tweetRef = Some doc →
  (status doc = processing ∨ status doc = posted →
     processTweetDocument TwitterApi tweetRef data w = (Ok (), w))
  ∧ (status doc ≠ processing → status doc ≠ posted →
     runTransaction tweetRef sweepLock w
     = (Ok true, written tweetRef (lockedDoc (serverTime w) doc) w)
     ∧ processTweetDocument TwitterApi tweetRef data w
       = processLocked TwitterApi tweetRef data
           (written tweetRef (lockedDoc (serverTime w) doc) w)).
Proof.
  intros Hdoc. split.
  - intros Hstatus. unfold processTweetDocument, bind.
    by rewrite (runTransaction_sweepLock_skip _ _ _ Hdoc Hstatus).
  - intros Hprocessing Hposted.
    pose proof (runTransaction_sweepLock_acquire _ _ _ Hdoc Hprocessing Hposted) as Hrun.
    split; [done|]. unfold processTweetDocument, bind. by rewrite Hrun.
Qed.

Lemma runTransaction_manualLock_refuse caller tweetRef doc w :
  tweets w !! tweetRef = Some doc →
  authorUid doc = caller →
  status doc ≠ manual →
  ∃ message,
    runTransaction tweetRef (manualLock caller) w
    = (Throw (HttpsError failed_precondition message), w).
Proof.
  intros Hdoc Hauthor Hstatus. unfold runTransaction, manualLock.
  rewrite Hdoc, Hauthor, String.eqb_refl.
  destruct (status doc); try done; cbn; by eexists.
Qed.

(** C3.  For an authenticated caller who is the author of the item, a manual
    publish of an item whose status is not [manual] throws a
    [failed-precondition] error and leaves the world as it was: no write to
    the record ([lastError] included) and no call to the network. *)
Theorem publishTweetNow_requires_manual tweetId doc caller w :
  trim tweetId ≠ "" →
  tweets w !! trim tweetId = Some doc →
  authorUid doc = caller →
  status doc ≠ manual →
  ∃ message,
    publishTweetNow TwitterApi (Some tweetId) (Some {| uid := caller |}) w
    = (Throw (HttpsError failed_precondition message), w).
Proof.
  intros Hid Hdoc Hauthor Hstatus. unfold publishTweetNow. cbn [uid].
  apply String.eqb_neq in Hid. rewrite Hid.
  destruct (runTransaction_manualLock_refuse _ _ _ _ Hdoc Hauthor Hstatus)
    as [message Hrun].
  exists message. unfold bind, lockForPublish, tryCatch. by rewrite Hrun.
Qed.



(** *** Worlds *)

Lemma called_nil w : called [] w = w.
Proof. destruct w. unfold called. cbn. by rewrite app_nil_r. Qed.

Lemma called_called ups ups' w : called ups' (called ups w) = called (ups ++ ups') w.
Proof. unfold called. cbn. by rewrite app_assoc. Qed.

Lemma truthy_Some s : truthy s = true ↔ ∃ v, s = Some v ∧ v ≠ "".
Proof.
  destruct s as [v|]; cbn; [|split; [done|by intros (? & ? & ?)]].
  rewrite negb_true_iff, String.eqb_neq. split; [eauto|]. by intros (? & [= <-] & ?).
Qed.

(** *** The upload loop *)

(** One turn of the loop: the [try] block with its [catch]. *)
Lemma upload_attempt client path mimeType w :
  tryCatch
    (let* buffer := downloadMediaFromStorage path in
     uploadMedia client buffer mimeType)
    (λ error,
       let message := messageOr "Unknown error while uploading media." error in
       throw (JsError ("Unable to upload media " +:+ path +:+ ": " +:+ message))) w
  = match bucket w !! path with
    | None =>
        (Throw (JsError ("Unable to upload media " +:+ path +:+ ": " +:+
                         ("Media file not found at path " +:+ path))), w)
    | Some buffer =>
        match v1_uploadMedia client (calls w) buffer mimeType with
        | Ok mediaId =>
            (Ok mediaId, called [CallUploadMedia buffer mimeType (Ok mediaId)] w)
        | Throw error =>
            (Throw (JsError ("Unable to upload media " +:+ path +:+ ": " +:+
                             messageOr "Unknown error while uploading media." error)),
             called [CallUploadMedia buffer mimeType (Throw error)] w)
        end
    end.
Proof.
  unfold tryCatch, bind, downloadMediaFromStorage, uploadMedia, throw.
  destruct (bucket w !! path) as [buffer|]; [|done].
  by destruct (v1_uploadMedia client (calls w) buffer mimeType).
Qed.

Lemma uploadEach_spec client attachments mediaIds w :
  match uploadEach client attachments mediaIds w with
  | (Ok ids, w') =>
      ∃ new, ids = mediaIds ++ new
        ∧ length new = length attachments
        ∧ w' = called (zip_with (uploadCall w) attachments new) w
        ∧ Forall (sendable w) attachments
  | (Throw e, w') =>
      ∃ ups item, w' = called ups w
        ∧ Forall isUpload ups
        ∧ item ∈ attachments
        ∧ UploadFailure client w ups item e
  end.
Proof.
  revert mediaIds w. induction attachments as [|item rest IH]; intros mediaIds w.
  { cbn. exists []. by rewrite app_nil_r, called_nil. }
  cbn [uploadEach].
  destruct (truthy (storagePath item)) eqn:Hpath; cbn [negb orb];
    [destruct (truthy (contentType item)) eqn:Hmime; cbn [negb orb]|].
  2,3: exists [], item; rewrite called_nil;
    split_and!; [done|constructor|left|constructor; auto].
  apply truthy_Some in Hpath as (path & Hpath & Hpath_ne).
  apply truthy_Some in Hmime as (mimeType & Hmime & Hmime_ne).
  rewrite Hpath, Hmime. cbn [from_option]. unfold Datatypes.id.
  unfold bind at 1. rewrite upload_attempt.
  destruct (bucket w !! path) as [buffer|] eqn:Hbucket.
  - destruct (v1_uploadMedia client (calls w) buffer mimeType) as [mediaId|error]
      eqn:Hanswer.
    + specialize (IH (mediaIds ++ [mediaId])
        (called [CallUploadMedia buffer mimeType (Ok mediaId)] w)).
      destruct (uploadEach client rest _ _) as [[ids|e] w'].
      * destruct IH as (new & -> & Hlen & -> & Hsendable).
        exists (mediaId :: new). rewrite called_called, <- app_assoc.
        split_and!; [done|cbn; by rewrite Hlen| |].
        -- cbn [zip_with app]. do 2 f_equal.
           unfold uploadCall. rewrite Hpath, Hmime. cbn [from_option].
           unfold Datatypes.id. by rewrite Hbucket.
        -- constructor; [|done]. exists path, mimeType. rewrite Hbucket. eauto 10.
      * destruct IH as (ups & item' & -> & Hups & Hin & Hfail).
        exists (CallUploadMedia buffer mimeType (Ok mediaId) :: ups), item'.
        rewrite called_called.
        split_and!; [done|by constructor|by right|].
        destruct Hfail
          as [Hmissing|path' Hpath' Hnone|path' mime' buffer' history' error' ? ? ? ? Hlast].
        -- by constructor.
        -- by constructor.
        -- econstructor; [done..|]. destruct ups; [done|]. exact Hlast.
    + exists [CallUploadMedia buffer mimeType (Throw error)], item.
      split_and!; [done|by repeat constructor|left|].
      by eapply ProviderFailure.
  - exists [], item. rewrite called_nil.
    split_and!; [done|constructor|left|]. by apply MissingBytes.
Qed.


Lemma uploadMediaAttachments_spec client media w :
  match uploadMediaAttachments client media w with
  | (Ok mediaIds, w') =>
      length mediaIds = length (take 4 (default [] media))
      ∧ w' = called (zip_with (uploadCall w) (take 4 (default [] media)) mediaIds) w
      ∧ Forall (sendable w) (take 4 (default [] media))
  | (Throw e, w') =>
      ∃ ups item, w' = called ups w
        ∧ Forall isUpload ups
        ∧ item ∈ take 4 (default [] media)
        ∧ UploadFailure client w ups item e
  end.
Proof.
  destruct media as [[|item media]|]; cbn [uploadMediaAttachments].
  1,3: cbn; by rewrite called_nil.
  pose proof (uploadEach_spec client (take 4 (item :: media)) [] w) as Hloop.
  cbn [from_option]. unfold Datatypes.id.
  destruct (uploadEach _ _ _ _) as [[ids|e] w']; [|done].
  by destruct Hloop as (new & -> & Hlen & -> & Hsendable).
Qed.

Lemma toMediaIdTuple_Ok mediaIds :
  (0 < length mediaIds ≤ 4)%nat →
  ∃ tuple, toMediaIdTuple mediaIds = Ok tuple ∧ tupleItems tuple = mediaIds.
Proof.
  intros Hlen.
  destruct mediaIds as [|a [|b [|c [|d [|e rest]]]]]; cbn in Hlen; try lia;
    by eexists.
Qed.

Lemma posts_app cs cs' : posts (cs ++ cs') = (posts cs + posts cs')%nat.
Proof. unfold posts. by rewrite filter_app, length_app. Qed.

Lemma posts_uploads ups : Forall isUpload ups → posts ups = 0%nat.
Proof.
  unfold posts. induction 1 as [|c ups Hc _ IH]; [done|].
  rewrite filter_cons, decide_False; [done|]. destruct c; cbn in *; tauto.
Qed.

Lemma isUpload_uploadCall w attachments mediaIds :
  Forall isUpload (zip_with (uploadCall w) attachments mediaIds).
Proof.
  revert mediaIds. induction attachments as [|item rest IH]; intros [|mediaId ids];
    cbn; by constructor.
Qed.

(** *** Publishing with a client *)

(** The argument of the post call for the handles [mediaIds]. *)
Lemma publishTweetWithClient_upload client tweetRef data w :
  publishTweetWithClient client tweetRef data w
  = match uploadMediaAttachments client (media data) w with
    | (Ok mediaIds, w1) =>
        match mediaIds with
        | [] => (tweet client (TweetText (text data)) ;;; markTweetPosted tweetRef) w1
        | _ =>
            match toMediaIdTuple mediaIds with
            | Ok mediaPayload =>
                (tweet client (TweetWithMedia (text data) mediaPayload) ;;;
                 markTweetPosted tweetRef) w1
            | Throw e => (Throw e, w1)
            end
        end
    | (Throw e, w1) => (Throw e, w1)
    end.
Proof.
  unfold publishTweetWithClient. unfold bind at 1.
  destruct (uploadMediaAttachments _ _ _) as [[mediaIds|e] w1]; [|done].
  destruct mediaIds as [|a rest]; [done|].
  cbn [length Nat.ltb Nat.leb]. unfold bind at 1. unfold bind at 1, liftResult.
  by destruct (toMediaIdTuple (a :: rest)).
Qed.

Lemma tweet_then_posted client payload tweetRef doc w :
  tweets w !! tweetRef = Some doc →
  (tweet client payload ;;; markTweetPosted tweetRef) w
  = match v2_tweet client (calls w) payload with
    | Ok _ =>
        (Ok (), written tweetRef (postedDoc (serverTime w) doc)
                  (called [CallTweet payload (v2_tweet client (calls w) payload)] w))
    | Throw e => (Throw e, called [CallTweet payload (Throw e)] w)
    end.
Proof.
  intros Hdoc. unfold bind, tweet, markTweetPosted, update. cbn.
  destruct (v2_tweet client (calls w) payload) as [[]|e] eqn:Hanswer; [|done].
  cbn. by rewrite Hdoc.
Qed.

Lemma publishTweetWithClient_spec client tweetRef data doc w :
  tweets w !! tweetRef = Some doc →
  ∃ new,
    match publishTweetWithClient client tweetRef data w with
    | (Ok _, w') =>
        w' = written tweetRef (postedDoc (serverTime w) doc) (called new w)
        ∧ posts new = 1%nat
    | (Throw e, w') => w' = called new w ∧ posts new = 0%nat
    end.
Proof.
  intros Hdoc. rewrite publishTweetWithClient_upload.
  pose proof (uploadMediaAttachments_spec client (media data) w) as Hupload.
  destruct (uploadMediaAttachments _ _ _) as [[mediaIds|e] w1].
  - destruct Hupload as (Hlen & -> & _).
    set (ups := zip_with _ _ _).
    assert (Hups : posts ups = 0%nat) by apply posts_uploads, isUpload_uploadCall.
    assert (Hpost : ∀ payload,
      ∃ new,
        match (tweet client payload ;;; markTweetPosted tweetRef) (called ups w) with
        | (Ok _, w') =>
            w' = written tweetRef (postedDoc (serverTime w) doc) (called new w)
            ∧ posts new = 1%nat
        | (Throw e, w') => w' = called new w ∧ posts new = 0%nat
        end).
    { intros payload. rewrite (tweet_then_posted _ _ _ doc) by done.
      destruct (v2_tweet _ _ _) as [[]|e] eqn:Hanswer.
      - exists (ups ++ [CallTweet payload (Ok ())]). rewrite called_called.
        split; [done|]. rewrite posts_app, Hups. done.
      - exists (ups ++ [CallTweet payload (Throw e)]). rewrite called_called.
        split; [done|]. rewrite posts_app, Hups. done. }
    destruct mediaIds as [|a rest]; [apply Hpost|].
    destruct (toMediaIdTuple (a :: rest)) as [tuple|e]; [apply Hpost|].
    by exists ups.
  - destruct Hupload as (ups & item & -> & Hups & _). exists ups.
    split; [done|]. by apply posts_uploads.
Qed.


Lemma tweet_then_posted_calls client payload tweetRef w :
  calls (snd ((tweet client payload ;;; markTweetPosted tweetRef) w))
  = calls w ++ [CallTweet payload (v2_tweet client (calls w) payload)]
  ∧ (is_Some (tweets w !! tweetRef) →
     fst ((tweet client payload ;;; markTweetPosted tweetRef) w)
     = v2_tweet client (calls w) payload).
Proof.
  unfold bind, tweet, markTweetPosted, update. cbn.
  destruct (v2_tweet client (calls w) payload) as [[]|e]; [|done]. cbn.
  destruct (tweets w !! tweetRef); [done|]. split; [done|]. by intros [? ?].
Qed.

(** C6.  When the first four attachments can be sent and the network accepts
    every upload, publishing makes one upload call per attachment among the
    first four, in their order, and then one post call: with the text alone
    when there is no attachment, and otherwise with the tuple of the handles
    the uploads returned, in the order of the attachments and of the same
    number, at most four.  Attachments after the fourth cause no call and no
    error: the call returns what the post call answers. *)
Theorem publishTweetWithClient_media_arity client tweetRef data w :
  Forall (sendable w) (take 4 (default [] (media data))) →
  (∀ history buffer mimeType,
     is_ok (v1_uploadMedia client history buffer mimeType) = true) →
  ∃ mediaIds payload answer,
    length mediaIds = (length (default [] (media data)) `min` 4)%nat
    ∧ calls (snd (publishTweetWithClient client tweetRef data w))
      = calls w
        ++ zip_with (uploadCall w) (take 4 (default [] (media data))) mediaIds
        ++ [CallTweet payload answer]
    ∧ match mediaIds with
      | [] => payload = TweetText (text data)
      | _ => ∃ tuple, payload = TweetWithMedia (text data) tuple
                      ∧ tupleItems tuple = mediaIds
      end
    ∧ (is_Some (tweets w !! tweetRef) →
       fst (publishTweetWithClient client tweetRef data w) = answer).
Proof.
  intros Hsendable Haccepts. rewrite publishTweetWithClient_upload.
  pose proof (uploadMediaAttachments_spec client (media data) w) as Hupload.
  destruct (uploadMediaAttachments _ _ _) as [[mediaIds|e] w1].
  - destruct Hupload as (Hlen & -> & _).
    assert (Hmin : length mediaIds = (length (default [] (media data)) `min` 4)%nat).
    { rewrite Hlen, length_take. lia. }
    set (ups := zip_with _ _ _) in *.
    assert (Hpost : ∀ payload,
      calls (snd ((tweet client payload ;;; markTweetPosted tweetRef) (called ups w)))
      = calls w ++ ups ++ [CallTweet payload (v2_tweet client (calls w ++ ups) payload)]
      ∧ (is_Some (tweets w !! tweetRef) →
         fst ((tweet client payload ;;; markTweetPosted tweetRef) (called ups w))
         = v2_tweet client (calls w ++ ups) payload)).
    { intros payload.
      destruct (tweet_then_posted_calls client payload tweetRef (called ups w))
        as [Hcalls Hanswer].
      split; [|exact Hanswer]. rewrite Hcalls. cbn. by rewrite <- app_assoc. }
    destruct mediaIds as [|a rest].
    + exists [], (TweetText (text data)), (v2_tweet client (calls w ++ ups) (TweetText (text data))).
      destruct (Hpost (TweetText (text data))) as [Hcalls Hanswer]. done.
    + destruct (toMediaIdTuple_Ok (a :: rest)) as (tuple & Htuple & Hitems).
      { rewrite Hmin. cbn in Hmin. lia. }
      rewrite Htuple.
      destruct (Hpost (TweetWithMedia (text data) tuple)) as [Hcalls Hanswer].
      exists (a :: rest), (TweetWithMedia (text data) tuple),
        (v2_tweet client (calls w ++ ups) (TweetWithMedia (text data) tuple)).
      split_and!; [done|done|by exists tuple|done].
  - destruct Hupload as (ups & item & _ & _ & Hin & Hfail).
    rewrite Forall_forall in Hsendable.
    destruct (Hsendable item Hin)
      as (path & mimeType & Hpath & Hpath_ne & Hmime & Hmime_ne & [buffer Hbuffer]).
    destruct Hfail as [[Hmissing|Hmissing]|path' Hpath' Hnone
                      |path' mime' buffer' history error _ _ _ Hanswer _].
    + rewrite Hpath in Hmissing. cbn in Hmissing.
      apply negb_false_iff, String.eqb_eq in Hmissing. done.
    + rewrite Hmime in Hmissing. cbn in Hmissing.
      apply negb_false_iff, String.eqb_eq in Hmissing. done.
    + congruence.
    + specialize (Haccepts history buffer' mime'). by rewrite Hanswer in Haccepts.
Qed.

(** C8 (as amended).  The upload of the attachments returns a list of handles
    only when every attachment among the first four was sent and answered
    with a handle; when one of them fails, it throws, having made only upload
    calls.  For bytes missing in storage and for an upload the network
    refused, the message is [Unable to upload media <storage path>: <reason>];
    for a missing storage path or content type it is the fixed text
    [Media attachment missing storage path or content type.]. *)
Theorem uploadMediaAttachments_all_or_nothing client media w :
  match uploadMediaAttachments client media w with
  | (Ok mediaIds, w') =>
      length mediaIds = length (take 4 (default [] media))
      ∧ Forall (sendable w) (take 4 (default [] media))
      ∧ calls w' = calls w ++ zip_with (uploadCall w) (take 4 (default [] media)) mediaIds
  | (Throw e, w') =>
      ∃ ups item, calls w' = calls w ++ ups
        ∧ Forall isUpload ups
        ∧ item ∈ take 4 (default [] media)
        ∧ UploadFailure client w ups item e
  end.
Proof.
  pose proof (uploadMediaAttachments_spec client media w) as Hupload.
  destruct (uploadMediaAttachments _ _ _) as [[mediaIds|e] w'].
  - by destruct Hupload as (Hlen & -> & Hsendable).
  - destruct Hupload as (ups & item & -> & Hups & Hin & Hfail). by exists ups, item.
Qed.


(** *** After the lock *)

Lemma fetchTwitterAccountCredentials_reads groupId accountId w :
  ∃ account, fetchTwitterAccountCredentials groupId accountId w = (Ok account, w).
Proof.
  unfold fetchTwitterAccountCredentials.
  repeat (case_match; try by eexists).
Qed.

Lemma markTweetFailure_written tweetRef message doc w :
  tweets w !! tweetRef = Some doc →
  markTweetFailure tweetRef message w
  = (Ok (), written tweetRef (failedDoc (serverTime w) message doc) w).
Proof. intros Hdoc. unfold markTweetFailure, update. by rewrite Hdoc. Qed.

Lemma written_called tweetRef doc new w :
  written tweetRef doc (called new w) = called new (written tweetRef doc w).
Proof. done. Qed.

Lemma processLocked_spec tweetRef data doc w :
  tweets w !! tweetRef = Some doc →
  ∃ new doc',
    processLocked TwitterApi tweetRef data w
    = (Ok (), written tweetRef doc' (called new w))
    ∧ (posts new ≤ 1)%nat
    ∧ (status doc' = posted ∨ status doc' = failed).
Proof.
  intros Hdoc. unfold processLocked. unfold bind at 1.
  destruct (fetchTwitterAccountCredentials_reads (groupId data) (accountId data) w)
    as [account ->].
  assert (Hfail : ∀ message,
    ∃ new doc',
      markTweetFailure tweetRef message w = (Ok (), written tweetRef doc' (called new w))
      ∧ (posts new ≤ 1)%nat ∧ (status doc' = posted ∨ status doc' = failed)).
  { intros message. exists [], (failedDoc (serverTime w) message doc).
    rewrite called_nil. split; [by apply markTweetFailure_written|]. split; [cbn; lia|by right]. }
  destruct account as [account|]; [|apply Hfail].
  destruct (negb _); [apply Hfail|].
  destruct (createTwitterClient TwitterApi (credentials account)) as [client|error];
    [|apply Hfail].
  unfold tryCatch.
  destruct (publishTweetWithClient_spec client tweetRef data doc w Hdoc) as [new Hpublish].
  destruct (publishTweetWithClient _ _ _ _) as [[[]|e] w'].
  - destruct Hpublish as [-> Hposts]. exists new, (postedDoc (serverTime w) doc).
    split; [done|]. split; [lia|by left].
  - destruct Hpublish as [-> Hposts].
    exists new, (failedDoc (serverTime w) (messageOr "Failed to post tweet" e) doc).
    split; [|split; [lia|by right]].
    by rewrite (markTweetFailure_written _ _ doc).
Qed.

Lemma fetchTwitterAccountCredentials_frame groupId accountId account w w' :
  fetchTwitterAccountCredentials groupId accountId w = (Ok account, w) →
  socialAccounts w' = socialAccounts w →
  fetchTwitterAccountCredentials groupId accountId w' = (Ok account, w').
Proof.
  unfold fetchTwitterAccountCredentials. intros Hfetch ->.
  repeat case_match; congruence.
Qed.

Lemma publishLocked_spec caller tweetRef tweetData doc account w :
  tweets w !! tweetRef = Some doc →
  fetchTwitterAccountCredentials (groupId tweetData) (accountId tweetData) w
  = (Ok account, w) →
  ∃ new,
    match publishLocked TwitterApi caller tweetRef tweetData w with
    | (Ok response, w') =>
        success response = true
        ∧ w' = written tweetRef (postedDoc (serverTime w) doc) (called new w)
        ∧ posts new = 1%nat
    | (Throw e, w') =>
        ∃ message,
          e = HttpsError (postLockFailureCode caller account) message
          ∧ w' = written tweetRef (failedDoc (serverTime w) message doc) (called new w)
          ∧ posts new = 0%nat
    end.
Proof.
  intros Hdoc Hfetch. unfold publishLocked. unfold bind at 1. rewrite Hfetch.
  clear Hfetch.
  assert (Hfail : ∀ code message,
    code = postLockFailureCode caller account →
    ∃ new,
      match (markTweetFailure tweetRef message ;;; throw (HttpsError code message)) w
            : Result PublishResponse * World with
      | (Ok response, w') =>
          success response = true
          ∧ w' = written tweetRef (postedDoc (serverTime w) doc) (called new w)
          ∧ posts new = 1%nat
      | (Throw e, w') =>
          ∃ message,
            e = HttpsError (postLockFailureCode caller account) message
            ∧ w' = written tweetRef (failedDoc (serverTime w) message doc) (called new w)
            ∧ posts new = 0%nat
      end).
  { intros code message ->. exists []. unfold bind.
    rewrite (markTweetFailure_written _ _ doc) by done. cbn [throw].
    exists message. by rewrite called_nil. }
  destruct account as [account|]; [|by apply Hfail].
  destruct (String.eqb (account_ownerUid account) caller) eqn:Howner; cbn [negb];
    [|apply Hfail; cbn; by rewrite Howner].
  destruct (createTwitterClient TwitterApi (credentials account)) as [client|error];
    [|apply Hfail; cbn; by rewrite Howner].
  unfold tryCatch. unfold bind at 1.
  destruct (publishTweetWithClient_spec client tweetRef tweetData doc w Hdoc)
    as [new Hpublish].
  exists new.
  destruct (publishTweetWithClient _ _ _ _) as [[[]|e] w'].
  - by destruct Hpublish as [-> Hposts].
  - destruct Hpublish as [-> Hposts]. unfold bind.
    rewrite (markTweetFailure_written _ _ doc) by done. cbn [throw].
    exists (messageOr "Failed to post tweet" e).
    cbn. by rewrite Howner.
Qed.

Lemma lockForPublish_acquire caller tweetRef doc w :
  tweets w !! tweetRef = Some doc →
  authorUid doc = caller →
  status doc = manual →
  lockForPublish caller tweetRef w
  = (Ok doc, written tweetRef (lockedDoc (serverTime w) doc) w).
Proof.
  intros Hdoc Hauthor Hstatus.
  unfold lockForPublish, tryCatch, runTransaction, manualLock.
  rewrite Hdoc, Hauthor, String.eqb_refl, Hstatus. cbn.
  unfold bind, update. by rewrite Hdoc.
Qed.

Lemma lookup_written tweetRef doc w :
  tweets (written tweetRef doc w) !! tweetRef = Some doc.
Proof. cbn. by rewrite lookup_insert_eq. Qed.

Lemma written_written tweetRef doc doc' w :
  tweets (written tweetRef doc' (written tweetRef doc w)) !! tweetRef = Some doc'.
Proof. apply lookup_written. Qed.



End FunctionsFacts.

(** *** The properties on example data *)

Lemma processTweetDocument_lock_phase_witness :
  let postedWorld := Examples.worldOf (Examples.tweetOf Functions.posted None)
                       Examples.withAccount in
  let queuedWorld := Examples.worldOf (Examples.tweetOf Functions.queued None)
                       Examples.withAccount in
  Functions.processTweetDocument Examples.obligingTwitterApi "t1"
    (Examples.tweetOf Functions.queued None) postedWorld
  = (Ok (), postedWorld)
  ∧ Functions.runTransaction "t1" Functions.sweepLock queuedWorld
    = (Ok true,
       FunctionsSpec.written "t1"
         (FunctionsSpec.lockedDoc 1000 (Examples.tweetOf Functions.queued None))
         queuedWorld).
Proof.
  intros postedWorld queuedWorld. split.
  - apply (processTweetDocument_lock_phase Examples.obligingTwitterApi "t1"
             (Examples.tweetOf Functions.queued None)
             (Examples.tweetOf Functions.posted None) postedWorld).
    + reflexivity.
    + by right.
  - apply (processTweetDocument_lock_phase Examples.obligingTwitterApi "t1"
             (Examples.tweetOf Functions.queued None)
             (Examples.tweetOf Functions.queued None) queuedWorld).
    + reflexivity.
    + discriminate.
    + discriminate.
Defined.

Lemma publishTweetNow_requires_manual_witness :
  let w := Examples.worldOf (Examples.tweetOf Functions.draft None)
             Examples.withAccount in
  ∃ message,
    Functions.publishTweetNow Examples.obligingTwitterApi (Some " t1 ")
      (Some {| Functions.uid := "alice" |}) w
    = (Throw (HttpsError failed_precondition message), w).
Proof.
  intros w.
  apply (publishTweetNow_requires_manual Examples.obligingTwitterApi " t1 "
           (Examples.tweetOf Functions.draft None) "alice" w).
  - discriminate.
  - reflexivity.
  - reflexivity.
  - discriminate.
Defined.

Lemma publishTweetWithClient_media_arity_witness :
  let data := Examples.tweetOf Functions.processing (Some Examples.fivePictures) in
  let w := Examples.worldOf data Examples.withAccount in
  ∃ mediaIds payload answer,
    length mediaIds = 4%nat
    ∧ Functions.calls
        (snd (Functions.publishTweetWithClient Examples.obligingClient "t1" data w))
      = zip_with (FunctionsSpec.uploadCall w) (take 4 Examples.fivePictures) mediaIds
        ++ [Functions.CallTweet payload answer]
    ∧ (∃ tuple, payload = Functions.TweetWithMedia "hello" tuple
                ∧ Functions.tupleItems tuple = mediaIds)
    ∧ fst (Functions.publishTweetWithClient Examples.obligingClient "t1" data w)
      = answer.
Proof.
  intros data w.
  destruct (publishTweetWithClient_media_arity Examples.obligingClient "t1" data w)
    as (mediaIds & payload & answer & Hlen & Hcalls & Hpayload & Hanswer).
  - repeat constructor;
      eexists _, "image/png"; (split_and!; [reflexivity|discriminate|
        reflexivity|discriminate|by eexists]).
  - reflexivity.
  - exists mediaIds, payload, answer. split_and!; [exact Hlen|exact Hcalls| |].
    + destruct mediaIds; [discriminate Hlen|exact Hpayload].
    + apply Hanswer. by eexists.
Defined.



(** C8, the claim as stated fails: an attachment without content type fails
    the batch with a message that is the same whichever attachment it is. *)
Lemma missing_field_message_names_no_attachment :
  let w := Examples.worldOf (Examples.tweetOf Functions.processing None)
             Examples.withAccount in
  fst (Functions.uploadMediaAttachments Examples.obligingClient
         (Some [Examples.withoutContentType "1.png"; Examples.png "2.png"]) w)
  = Throw (JsError "Media attachment missing storage path or content type.")
  ∧ fst (Functions.uploadMediaAttachments Examples.obligingClient
           (Some [Examples.png "1.png"; Examples.withoutContentType "2.png"]) w)
    = Throw (JsError "Media attachment missing storage path or content type.").
Proof. intros w. split; vm_compute; reflexivity. Qed.

(** ** The bulk scheduler *)

Section BulkUploadFacts.
Import BulkUpload BulkUploadSpec.

Variable services : Services.

Lemma swap_Permutation {T} (shuffled : list T) i j : swap shuffled i j ≡ₚ shuffled.
Proof.
  unfold swap.
  destruct (shuffled !! i) as [at_i|] eqn:Hi; [|done].
  destruct (shuffled !! j) as [at_j|] eqn:Hj; [|done].
  by apply Permutation_insert_swap.
Qed.

Lemma shuffleFrom_spec {T} i (shuffled : list T) w :
  ∃ shuffled',
    shuffleFrom services i shuffled w
    = (Ok shuffled', {| effects := effects w; randomCalls := (i + randomCalls w)%nat |})
    ∧ shuffled' ≡ₚ shuffled.
Proof.
  revert shuffled w. induction i as [|i IH]; intros shuffled w.
  { exists shuffled. by destruct w. }
  cbn [shuffleFrom]. unfold bind, randomBelow.
  destruct (IH (swap shuffled (S i) (Math_random services (randomCalls w) `mod` (S i + 1))%nat)
               {| effects := effects w; randomCalls := S (randomCalls w) |})
    as (shuffled' & -> & Hperm).
  exists shuffled'. split.
  - cbn. do 2 f_equal. f_equal. lia.
  - by rewrite Hperm, swap_Permutation.
Qed.

Lemma shuffleArray_spec {T} (array : list T) w :
  ∃ shuffled n,
    shuffleArray services array w
    = (Ok shuffled, {| effects := effects w; randomCalls := n |})
    ∧ shuffled ≡ₚ array.
Proof.
  unfold shuffleArray.
  destruct (shuffleFrom_spec (length array - 1) array w) as (shuffled & Hrun & Hperm).
  by exists shuffled, (length array - 1 + randomCalls w)%nat.
Qed.

Lemma attempted_app es es' : attempted (es ++ es') = attempted es ++ attempted es'.
Proof. apply omap_app. Qed.

Lemma notify_returns onProgress progress w :
  returns onProgress →
  ∃ w', notify onProgress progress w = (Ok (), w')
        ∧ attempted (effects w') = attempted (effects w).
Proof.
  intros Hreturns. destruct onProgress as [callback|]; cbn [notify].
  - rewrite (Hreturns callback eq_refl). eexists. split; [done|].
    cbn. by rewrite attempted_app, app_nil_r.
  - by exists w.
Qed.

(** One turn of the loop: the [try] block with its [catch]. *)
Lemma schedule_attempt userId file draft w :
  ∃ caught w',
    tryCatch
      (let* media := uploadTweetMedia services userId file in
       createTweet services userId (draft media) ;;;
       ret None)
      (λ error, ret (Some error)) w
    = (Ok caught, w')
    ∧ attempted (effects w') = attempted (effects w) ++ [file].
Proof.
  unfold tryCatch, bind, uploadTweetMedia, createTweet, ret.
  destruct (uploadTweetMedia_answer services (effects w) userId file) as [media|error].
  - destruct (createTweet_answer services _ userId (draft media)) as [[]|error];
      eexists _, _; (split; [done|]); cbn;
      by rewrite !attempted_app, app_nil_r.
  - eexists _, _. split; [done|]. cbn. by rewrite attempted_app.
Qed.

Lemma scheduleEach_spec onProgress options shuffledFilesLength shuffledSlots
    i rest completed failed errors w :
  returns onProgress →
  length errors = failed →
  ∃ completed' failed' errors' w',
    scheduleEach services onProgress options shuffledFilesLength shuffledSlots
      i rest completed failed errors w
    = (Ok (completed', failed', errors'), w')
    ∧ (completed' + failed' = completed + failed + length rest)%nat
    ∧ length errors' = failed'
    ∧ attempted (effects w') = attempted (effects w) ++ rest.
Proof.
  intros Hreturns. revert i completed failed errors w.
  induction rest as [|file rest IH]; intros i completed failed errors w Herrors.
  { exists completed, failed, errors, w. cbn. rewrite app_nil_r.
    split_and!; [done|lia|done|done]. }
  cbn [scheduleEach]. unfold bind at 1.
  destruct (notify_returns onProgress
    {| total := shuffledFilesLength; completed := completed;
       progress_failed := failed; currentFile := name file |} w Hreturns)
    as (w1 & -> & Hw1).
  unfold bind at 1.
  destruct (schedule_attempt (userId options) file
    (λ media, {| text := ""; scheduledFor := shuffledSlots !! i;
                 groupId := options_groupId options;
                 accountId := options_accountId options;
                 status := Some Functions.scheduled;
                 media := Some [media] |}) w1) as (caught & w2 & -> & Hw2).
  destruct caught as [error|].
  - destruct (IH (S i) completed (S failed)
      (errors ++ [name file +:+ ": " +:+ messageOr "Unknown error" error]) w2)
      as (completed' & failed' & errors' & w' & -> & Hsum & Herrors' & Hattempted).
    { rewrite length_app. cbn. lia. }
    exists completed', failed', errors', w'.
    split_and!; [done|cbn; lia|done|].
    rewrite Hattempted, Hw2, Hw1, <- app_assoc. done.
  - destruct (IH (S i) (S completed) failed errors w2 Herrors)
      as (completed' & failed' & errors' & w' & -> & Hsum & Herrors' & Hattempted).
    exists completed', failed', errors', w'.
    split_and!; [done|cbn; lia|done|].
    rewrite Hattempted, Hw2, Hw1, <- app_assoc. done.
Qed.


End BulkUploadFacts.


(** ** More on the slot allocator *)

Section ScheduleMoreFacts.
Import Schedule ScheduleSpec.

Lemma getTakenSlotKeys_cons tweet tweets :
  getTakenSlotKeys (tweet :: tweets)
  = {[ formatSlotKey (scheduledFor tweet) ]} ∪ getTakenSlotKeys tweets.
Proof. reflexivity. Qed.

Lemma candidates_key_inj baseDay dayOffsets s t :
  baseDay mod MS_PER_DAY = 0 →
  s ∈ candidates baseDay dayOffsets →
  t ∈ candidates baseDay dayOffsets →
  formatSlotKey s = formatSlotKey t →
  s = t.
Proof.
  intros Hbase Hs Ht Hkey.
  apply elem_of_candidates in Hs as (ds & hs & _ & Hhs & ->).
  apply elem_of_candidates in Ht as (dt & ht & _ & Hht & ->).
  apply elem_of_SLOT_HOURS in Hhs, Hht.
  apply formatSlotKey_day_hour in Hkey as [Hday Hhour].
  destruct (slotAt_onGrid _ ds hs Hbase Hhs) as (_ & Hhs' & Hds').
  destruct (slotAt_onGrid _ dt ht Hbase Hht) as (_ & Hht' & Hdt').
  rewrite Hhs', Hht' in Hhour. rewrite Hds', Hdt' in Hday.
  f_equal; [f_equal; lia|done].
Qed.

Lemma filter_agree (P Q : Z → Prop) `{!∀ x, Decision (P x)} `{!∀ x, Decision (Q x)}
    (l : list Z) :
  (∀ x, x ∈ l → (P x ↔ Q x)) → filter P l = filter Q l.
Proof.
  induction l as [|x l IH]; intros Hagree; [done|].
  rewrite !filter_cons.
  assert (HPQ : P x ↔ Q x) by (apply Hagree; left).
  assert (Hrest : filter P l = filter Q l) by (apply IH; intros y Hy; apply Hagree; by right).
  destruct (decide (P x)), (decide (Q x)); [by rewrite Hrest|tauto|tauto|done].
Qed.

(** Taking the first accepted element of a sorted list out of the accepted
    ones leaves the accepted ones after it. *)
Lemma filter_without_head (P P' : Z → Prop)
    `{!∀ x, Decision (P x)} `{!∀ x, Decision (P' x)} (l : list Z) s rest :
  StronglySorted Z.lt l →
  filter P l = s :: rest →
  (∀ c, c ∈ l → (P' c ↔ P c ∧ c ≠ s)) →
  filter P' l = rest.
Proof.
  induction 1 as [|x l Hl IH Hx]; [done|].
  rewrite !filter_cons. intros Hfilter Hagree.
  assert (Hhead : P' x ↔ P x ∧ x ≠ s) by (apply Hagree; left).
  destruct (decide (P x)) as [HP|HnP].
  - injection Hfilter as -> <-.
    rewrite decide_False by tauto.
    apply filter_agree. intros c Hc.
    rewrite (Hagree c) by (by right).
    rewrite Forall_forall in Hx. specialize (Hx c Hc). split; [tauto|]. intros ?. split; [done|lia].
  - rewrite decide_False by tauto.
    apply IH; [done|]. intros c Hc. apply Hagree. by right.
Qed.

Lemma free_after_taking tweet tweets now slot :
  free (getTakenSlotKeys (tweet :: tweets)) now slot
  ↔ free (getTakenSlotKeys tweets) now slot
    ∧ formatSlotKey slot ≠ formatSlotKey (scheduledFor tweet).
Proof.
  rewrite getTakenSlotKeys_cons. unfold free.
  rewrite elem_of_union, elem_of_singleton. tauto.
Qed.

(** The accepted candidates once the first accepted one is taken. *)
Lemma accepted_after_taking tweet tweets now s rest :
  filter (free (getTakenSlotKeys tweets) now)
    (candidates (startOfDay (toZonedTime now)) DAY_OFFSETS) = s :: rest →
  scheduledFor tweet = s →
  filter (free (getTakenSlotKeys (tweet :: tweets)) now)
    (candidates (startOfDay (toZonedTime now)) DAY_OFFSETS) = rest.
Proof.
  intros Hfilter Htweet.
  pose proof (startOfDay_whole (toZonedTime now)) as Hbase.
  pose proof (candidates_sorted _ _ Hbase DAY_OFFSETS_sorted) as Hsorted.
  assert (Hs : s ∈ candidates (startOfDay (toZonedTime now)) DAY_OFFSETS).
  { assert (Hin : s ∈ filter (free (getTakenSlotKeys tweets) now)
                     (candidates (startOfDay (toZonedTime now)) DAY_OFFSETS))
      by (rewrite Hfilter; left).
    by apply list_elem_of_filter in Hin as [_ ?]. }
  assert (Hinj : ∀ c, c ∈ candidates (startOfDay (toZonedTime now)) DAY_OFFSETS →
    (formatSlotKey c ≠ formatSlotKey s ↔ c ≠ s)).
  { intros c Hc. split; [by intros Hne ->|].
    intros Hne Hkey. apply Hne. by eapply candidates_key_inj. }
  revert Hfilter Hsorted Hinj.
  generalize (candidates (startOfDay (toZonedTime now)) DAY_OFFSETS).
  intros cands Hfilter Hsorted Hinj.
  eapply filter_without_head; [exact Hsorted|exact Hfilter|].
  intros c Hc. rewrite free_after_taking, Htweet, (Hinj c Hc). done.
Qed.

(** Allocation composes: once an item is scheduled at the slot the allocator
    returned, the next slot it returns is strictly later. *)
Theorem getNextScheduleSlot_after_taking tweet tweets now slot slot' :
  getNextScheduleSlot tweets now = Ok slot →
  scheduledFor tweet = slot →
  getNextScheduleSlot (tweet :: tweets) now = Ok slot' →
  slot < slot'.
Proof.
  intros Hfirst Htweet Hsecond.
  apply getNextScheduleSlot_Ok in Hfirst, Hsecond.
  pose proof (startOfDay_whole (toZonedTime now)) as Hbase.
  pose proof (candidates_sorted _ _ Hbase DAY_OFFSETS_sorted) as Hsorted.
  apply (StronglySorted_filter_lt (free (getTakenSlotKeys tweets) now)) in Hsorted.
  destruct (filter (free (getTakenSlotKeys tweets) now) _) as [|s rest] eqn:Hfilter;
    [done|].
  injection Hfirst as ->.
  rewrite (accepted_after_taking tweet tweets now slot rest Hfilter Htweet) in Hsecond.
  apply StronglySorted_cons in Hsorted as [Hlater _].
  rewrite Forall_forall in Hlater. apply Hlater.
  destruct rest; [done|]. injection Hsecond as ->. left.
Qed.

(** The bulk allocator is the scalar allocator repeated, each slot being
    taken before the next one is looked for. *)
Theorem getNextScheduleSlots_unfold tweet tweets (N : nat) now slot rest :
  scheduledFor tweet = slot →
  getNextScheduleSlots tweets (Z.of_nat (S N)) now = Ok (slot :: rest)
  ↔ getNextScheduleSlot tweets now = Ok slot
    ∧ getNextScheduleSlots (tweet :: tweets) (Z.of_nat N) now = Ok rest.
Proof.
  intros Htweet.
  rewrite !getNextScheduleSlots_Ok, getNextScheduleSlot_Ok, !Nat2Z.id.
  destruct (filter (free (getTakenSlotKeys tweets) now) _) as [|s accepted] eqn:Hfilter.
  { split; [by intros [? _]|by intros [? _]]. }
  cbn [take head length]. split.
  - intros [[= -> ->] Hlen].
    rewrite (accepted_after_taking tweet tweets now s accepted Hfilter Htweet).
    split_and!; [done|done|]. cbn [length] in Hlen. lia.
  - intros ([= ->] & Hrest & Hlen).
    rewrite (accepted_after_taking tweet tweets now slot accepted Hfilter Htweet) in Hrest.
    subst rest. split; [done|]. cbn [length]. lia.
Qed.

Lemma length_candidates baseDay dayOffsets :
  length (candidates baseDay dayOffsets) = (16 * length dayOffsets)%nat.
Proof.
  unfold candidates. induction dayOffsets as [|dayOffset rest IH]; [done|].
  rewrite bind_cons, length_app, IH. unfold dayCandidates.
  rewrite length_fmap. unfold SLOT_HOURS. rewrite length_fmap, length_seq.
  cbn [length]. lia.
Qed.

(** The days after the day of [now]: all their slots are after [now]. *)
Lemma later_days_after_now now slot :
  slot ∈ candidates (startOfDay (toZonedTime now)) (Z.of_nat <$> seq 1 364) →
  now < slot
  ∧ slot ∈ candidates (startOfDay (toZonedTime now)) DAY_OFFSETS.
Proof.
  intros Hslot.
  pose proof (startOfDay_whole (toZonedTime now)) as Hbase.
  pose proof (startOfDay_le (toZonedTime now)) as Hle.
  apply elem_of_candidates in Hslot as (dayOffset & hour & Hd & Hh & ->).
  apply list_elem_of_fmap in Hd as (n & -> & Hn). apply elem_of_seq in Hn.
  split.
  - apply elem_of_SLOT_HOURS in Hh. rewrite slotAt_addDays by done.
    unfold toZonedTime, TIMEZONE_OFFSET, MS_PER_DAY, MS_PER_HOUR in *. lia.
  - apply elem_of_candidates. exists (Z.of_nat n), hour.
    split; [|done]. apply elem_of_DAY_OFFSETS. lia.
Qed.

(** With fewer existing items than the 364 later days have slots, the
    allocator finds a slot: it does not throw. *)
Theorem getNextScheduleSlot_finds tweets now :
  (length tweets < 16 * 364)%nat →
  ∃ slot, getNextScheduleSlot tweets now = Ok slot.
Proof.
  intros Hfew.
  destruct (getNextScheduleSlot tweets now) as [slot|e] eqn:Hrun; [by exists slot|].
  exfalso. unfold getNextScheduleSlot in Hrun. cbv zeta in Hrun.
  rewrite scanDays_filter in Hrun.
  destruct (filter (free (getTakenSlotKeys tweets) now) _) as [|s l] eqn:Hfilter;
    [clear Hrun|done].
  pose proof (startOfDay_whole (toZonedTime now)) as Hbase.
  set (later := candidates (startOfDay (toZonedTime now)) (Z.of_nat <$> seq 1 364)).
  assert (Hlength : length later = (16 * 364)%nat).
  { unfold later. rewrite length_candidates, length_fmap, length_seq. done. }
  assert (Htaken : ∀ slot, slot ∈ later →
    formatSlotKey slot ∈ (λ tweet, formatSlotKey (scheduledFor tweet)) <$> tweets).
  { intros slot Hslot. apply later_days_after_now in Hslot as [Hnow Hcandidate].
    destruct (decide (formatSlotKey slot ∈ getTakenSlotKeys tweets)) as [Hin|Hfree].
    - unfold getTakenSlotKeys in Hin. by apply elem_of_list_to_set in Hin.
    - assert (Haccepted : slot ∈ filter (free (getTakenSlotKeys tweets) now)
        (candidates (startOfDay (toZonedTime now)) DAY_OFFSETS))
        by (apply list_elem_of_filter; by split).
      rewrite Hfilter in Haccepted. by apply elem_of_nil in Haccepted. }
  assert (Hnodup : NoDup (formatSlotKey <$> later)).
  { apply NoDup_fmap_2_strong.
    - intros s t Hs Ht. by apply (candidates_key_inj _ (Z.of_nat <$> seq 1 364) s t Hbase).
    - apply StronglySorted_lt_NoDup, candidates_sorted; [done|].
      eapply StronglySorted_fmap; [|apply seq_sorted]. intros x y Hxy. lia. }
  assert (Hle : (length (formatSlotKey <$> later)
                 ≤ length ((λ tweet, formatSlotKey (scheduledFor tweet)) <$> tweets))%nat).
  { apply submseteq_length, NoDup_submseteq; [done|].
    intros key Hkey. apply list_elem_of_fmap in Hkey as (slot & -> & Hslot).
    by apply Htaken. }
  rewrite !length_fmap in Hle. lia.
Qed.

(** The slot the allocator returns is less than 365 days after [now]. *)
Theorem getNextScheduleSlot_within_horizon tweets now slot :
  getNextScheduleSlot tweets now = Ok slot →
  now < slot < now + 365 * MS_PER_DAY.
Proof.
  intros Hok. apply getNextScheduleSlot_Ok in Hok.
  pose proof (startOfDay_whole (toZonedTime now)) as Hbase.
  pose proof (startOfDay_le (toZonedTime now)) as Hle.
  apply head_Some_elem_of, list_elem_of_filter in Hok as [[Hnow _] Hcandidate].
  split; [done|].
  apply elem_of_candidates in Hcandidate as (dayOffset & hour & Hd & Hh & ->).
  apply elem_of_DAY_OFFSETS in Hd. apply elem_of_SLOT_HOURS in Hh.
  rewrite slotAt_addDays by done.
  unfold toZonedTime, TIMEZONE_OFFSET, MS_PER_DAY, MS_PER_HOUR in *. lia.
Qed.

(** A count of zero or less asks for nothing: the bulk allocator returns the
    empty list, whatever is taken. *)
Theorem getNextScheduleSlots_nothing_asked tweets count now :
  count <= 0 →
  getNextScheduleSlots tweets count now = Ok [].
Proof.
  intros Hcount. apply getNextScheduleSlots_Ok.
  replace (Z.to_nat count) with 0%nat by lia. rewrite take_0.
  split; [done|]. cbn. lia.
Qed.

(** The slots of the bulk allocator come in chronological order, each on the
    grid, and a smaller request returns the first slots of a larger one. *)
Theorem getNextScheduleSlots_ordered tweets count count' now slots :
  getNextScheduleSlots tweets count now = Ok slots →
  StronglySorted Z.lt slots
  ∧ Forall onGrid slots
  ∧ (0 <= count' <= count →
     getNextScheduleSlots tweets count' now = Ok (take (Z.to_nat count') slots)).
Proof.
  intros Hok. apply getNextScheduleSlots_Ok in Hok as [Hslots Hlen].
  pose proof (startOfDay_whole (toZonedTime now)) as Hbase.
  pose proof (candidates_sorted _ _ Hbase DAY_OFFSETS_sorted) as Hsorted.
  split; [|split].
  - rewrite Hslots. by apply StronglySorted_take_lt, StronglySorted_filter_lt.
  - apply Forall_forall. intros slot Hin. rewrite Hslots in Hin.
    apply elem_of_take in Hin as (i & Hi & _).
    apply list_elem_of_lookup_2, list_elem_of_filter in Hi as [_ Hcandidate].
    apply elem_of_candidates in Hcandidate as (dayOffset & hour & _ & Hh & ->).
    apply elem_of_SLOT_HOURS in Hh. by apply slotAt_onGrid.
  - intros Hcount'. apply getNextScheduleSlots_Ok.
    revert Hslots Hlen.
    generalize (filter (free (getTakenSlotKeys tweets) now)
                  (candidates (startOfDay (toZonedTime now)) DAY_OFFSETS)).
    intros accepted -> Hlen.
    rewrite take_take. replace (Z.to_nat count' `min` Z.to_nat count)%nat
      with (Z.to_nat count') by lia.
    split; [done|]. rewrite length_take in *. lia.
Qed.

(** The bulk allocator gives a day at most its sixteen slots: of the slots of
    one call, at most sixteen are on the same day in Dubai as any given
    instant. *)
Theorem getNextScheduleSlots_sixteen_a_day tweets count now slots date :
  getNextScheduleSlots tweets count now = Ok slots →
  (length (filter (λ slot, isSameDayInDubai slot date = true) slots) ≤ 16)%nat.
Proof.
  intros Hok. apply getNextScheduleSlots_Ok in Hok as [Hslots _].
  pose proof (startOfDay_whole (toZonedTime now)) as Hbase.
  pose proof (candidates_sorted _ _ Hbase DAY_OFFSETS_sorted) as Hsorted.
  assert (Hnodup : NoDup slots).
  { rewrite Hslots.
    by apply StronglySorted_lt_NoDup, StronglySorted_take_lt, StronglySorted_filter_lt. }
  assert (Hgrid : ∀ slot, slot ∈ slots → onGrid slot).
  { intros slot Hin. rewrite Hslots in Hin.
    apply elem_of_take in Hin as (i & Hi & _).
    apply list_elem_of_lookup_2, list_elem_of_filter in Hi as [_ Hcandidate].
    apply elem_of_candidates in Hcandidate as (dayOffset & hour & _ & Hh & ->).
    apply elem_of_SLOT_HOURS in Hh. by apply slotAt_onGrid. }
  clear Hslots Hsorted.
  set (today := filter (λ slot, isSameDayInDubai slot date = true) slots).
  assert (Hhours : NoDup (localHour <$> today)).
  { apply NoDup_fmap_2_strong; [|by apply NoDup_filter].
    intros s t Hs Ht Hhour.
    apply list_elem_of_filter in Hs as [Hsday Hs], Ht as [Htday Ht].
    apply bool_decide_eq_true in Hsday, Htday.
    rewrite (onGrid_slotAt s (Hgrid s Hs)), (onGrid_slotAt t (Hgrid t Ht)).
    change (localDay s) with (formatDayKey s). change (localDay t) with (formatDayKey t).
    by rewrite Hsday, Htday, Hhour. }
  assert (Hle : (length (localHour <$> today) ≤ length SLOT_HOURS)%nat).
  { apply submseteq_length, NoDup_submseteq; [done|].
    intros hour Hhour. apply list_elem_of_fmap in Hhour as (slot & -> & Hslot).
    apply list_elem_of_filter in Hslot as [_ Hslot].
    apply elem_of_SLOT_HOURS. by destruct (Hgrid slot Hslot). }
  rewrite length_fmap in Hle. exact Hle.
Qed.

(** The slot the allocator returns is today in Dubai exactly when one of
    today's sixteen hours is still ahead of [now] and not taken. *)
Theorem getNextScheduleSlot_today tweets now slot :
  getNextScheduleSlot tweets now = Ok slot →
  isTodayInDubai slot now = true
  ↔ ∃ hour, hour ∈ SLOT_HOURS
      ∧ free (getTakenSlotKeys tweets) now (slotAt (startOfDay (toZonedTime now)) hour).
Proof.
  intros Hok. apply getNextScheduleSlot_Ok in Hok.
  pose proof (startOfDay_whole (toZonedTime now)) as Hbase.
  pose proof (startOfDay_le (toZonedTime now)) as Hle.
  pose proof (candidates_sorted _ _ Hbase DAY_OFFSETS_sorted) as Hsorted.
  apply head_filter_least in Hok as (Hcandidate & Hfree & Hleast); [|done].
  clear Hsorted.
  unfold isTodayInDubai. rewrite bool_decide_eq_true. split.
  - intros Hday.
    apply elem_of_candidates in Hcandidate as (dayOffset & hour & Hd & Hh & ->).
    exists hour. split; [done|].
    apply elem_of_DAY_OFFSETS in Hd. pose proof Hh as Hhour.
    apply elem_of_SLOT_HOURS in Hhour.
    assert (dayOffset = 0) as ->.
    { revert Hday. unfold formatDayKey. rewrite slotAt_addDays by done.
      clear Hfree Hleast.
      unfold toZonedTime, TIMEZONE_OFFSET, MS_PER_DAY, MS_PER_HOUR in *.
      revert Hbase Hle. generalize (startOfDay (now + 14400000)).
      intros base Hbase Hle Hday. divmod_lia. }
    replace (startOfDay (toZonedTime now))
      with (addDays (startOfDay (toZonedTime now)) 0); [done|].
    unfold addDays. lia.
  - intros (hour & Hh & Hhfree).
    assert (Hin : slotAt (startOfDay (toZonedTime now)) hour
                  ∈ candidates (startOfDay (toZonedTime now)) DAY_OFFSETS).
    { apply elem_of_candidates. exists 0, hour. split; [|split; [done|]].
      - apply elem_of_DAY_OFFSETS. lia.
      - f_equal. unfold addDays. lia. }
    specialize (Hleast _ Hin Hhfree). destruct Hfree as [Hnow _].
    clear Hin Hhfree Hcandidate.
    apply elem_of_SLOT_HOURS in Hh.
    replace (slotAt (startOfDay (toZonedTime now)) hour)
      with (slotAt (addDays (startOfDay (toZonedTime now)) 0) hour) in Hleast
      by (f_equal; unfold addDays; lia).
    rewrite slotAt_addDays in Hleast by done.
    unfold formatDayKey.
    unfold toZonedTime, TIMEZONE_OFFSET, MS_PER_DAY, MS_PER_HOUR in *.
    revert Hbase Hle Hleast. generalize (startOfDay (now + 14400000)).
    intros base Hbase Hle Hleast. divmod_lia.
Qed.

End ScheduleMoreFacts.

(** ** More on the publication coordinator *)

Section FunctionsMoreFacts.
Import Functions FunctionsSpec.

Variable TwitterApi : TwitterClientCredentials → Result TwitterClient.

(** [toMediaIdTuple] and the items of a tuple are inverse to each other, and
    the only lists without a tuple are the empty one and those of more than
    four handles. *)
Theorem toMediaIdTuple_tupleItems mediaIds :
  (∀ tuple, toMediaIdTuple mediaIds = Ok tuple ↔ tupleItems tuple = mediaIds)
  ∧ (toMediaIdTuple mediaIds
     = Throw (JsError "Media IDs must contain between 1 and 4 items.")
     ↔ length mediaIds = 0%nat ∨ (4 < length mediaIds)%nat).
Proof.
  split.
  - intros tuple. split.
    + destruct mediaIds as [|a [|b [|c [|d [|e rest]]]]]; cbn; try done;
        by intros [= <-].
    + intros <-. by destruct tuple.
  - destruct mediaIds as [|a [|b [|c [|d [|e rest]]]]]; cbn;
      (split; [intros ?; try done; try (left; done); right; lia|]);
      intros [?|?]; try done; try lia.
Qed.

(** *** Rejections before the lock *)

Lemma lockForPublish_cases caller tweetRef w :
  match tweets w !! tweetRef with
  | None =>
      lockForPublish caller tweetRef w
      = (Throw (HttpsError not_found "Tweet not found."), w)
  | Some doc =>
      if String.eqb (authorUid doc) caller then
        if bool_decide (status doc = manual) then
          lockForPublish caller tweetRef w
          = (Ok doc, written tweetRef (lockedDoc (serverTime w) doc) w)
        else
          ∃ message,
            lockForPublish caller tweetRef w
            = (Throw (HttpsError failed_precondition message), w)
      else
        lockForPublish caller tweetRef w
        = (Throw (HttpsError permission_denied "You do not have access to this tweet."), w)
  end.
Proof.
  destruct (tweets w !! tweetRef) as [doc|] eqn:Hdoc.
  - destruct (String.eqb (authorUid doc) caller) eqn:Hauthor.
    + apply String.eqb_eq in Hauthor. case_bool_decide as Hstatus.
      * by apply lockForPublish_acquire.
      * destruct (runTransaction_manualLock_refuse caller tweetRef doc w)
          as [message Hrun]; [done..|].
        exists message. unfold lockForPublish, tryCatch. by rewrite Hrun.
    + unfold lockForPublish, tryCatch, runTransaction, manualLock.
      by rewrite Hdoc, Hauthor.
  - unfold lockForPublish, tryCatch, runTransaction, manualLock. by rewrite Hdoc.
Qed.

(** A manual publish is rejected, in this order, for a caller who is not
    authenticated, for an identifier that is missing, not a string or blank,
    for an item that does not exist, and for a caller who is not the author;
    each time with its own code, and with nothing written and no call made. *)
Theorem publishTweetNow_rejects data_tweetId context_auth w :
  match context_auth with
  | None =>
      publishTweetNow TwitterApi data_tweetId context_auth w
      = (Throw (HttpsError unauthenticated "Authentication is required."), w)
  | Some auth =>
      let tweetId := match data_tweetId with Some s => trim s | None => "" end in
      if String.eqb tweetId "" then
        publishTweetNow TwitterApi data_tweetId context_auth w
        = (Throw (HttpsError invalid_argument "Tweet ID is required."), w)
      else
        match tweets w !! tweetId with
        | None =>
            publishTweetNow TwitterApi data_tweetId context_auth w
            = (Throw (HttpsError not_found "Tweet not found."), w)
        | Some doc =>
            authorUid doc ≠ uid auth →
            publishTweetNow TwitterApi data_tweetId context_auth w
            = (Throw (HttpsError permission_denied
                        "You do not have access to this tweet."), w)
        end
  end.
Proof.
  destruct context_auth as [auth|]; [|done]. cbv zeta.
  unfold publishTweetNow.
  destruct (String.eqb _ "") eqn:Hid; [done|].
  set (tweetId := match data_tweetId with Some s => trim s | None => "" end) in *.
  pose proof (lockForPublish_cases (uid auth) tweetId w) as Hlock.
  destruct (tweets w !! tweetId) as [doc|].
  - intros Hauthor. apply String.eqb_neq in Hauthor. rewrite Hauthor in Hlock.
    unfold bind. by rewrite Hlock.
  - unfold bind. by rewrite Hlock.
Qed.

(** A manual publish that returns was made by the author on an item marked
    [manual]; it leaves the item [posted], with [postedAt] and
    [lastUpdatedAt] stamped and [lastError] cleared, and exactly one post was
    accepted. *)
Theorem publishTweetNow_success tweetId caller response w w' :
  publishTweetNow TwitterApi (Some tweetId) (Some {| uid := caller |}) w
  = (Ok response, w') →
  ∃ doc new,
    tweets w !! trim tweetId = Some doc
    ∧ authorUid doc = caller
    ∧ status doc = manual
    ∧ success response = true
    ∧ w' = written (trim tweetId)
             (postedDoc (serverTime w + 1) (lockedDoc (serverTime w) doc))
             (called new (written (trim tweetId) (lockedDoc (serverTime w) doc) w))
    ∧ posts new = 1%nat.
Proof.
  unfold publishTweetNow. cbn [uid].
  destruct (String.eqb (trim tweetId) "") eqn:Hid; [done|].
  pose proof (lockForPublish_cases caller (trim tweetId) w) as Hlock.
  unfold bind at 1.
  destruct (tweets w !! trim tweetId) as [doc|] eqn:Hdoc; [|by rewrite Hlock].
  destruct (String.eqb (authorUid doc) caller) eqn:Hauthor; [|by rewrite Hlock].
  apply String.eqb_eq in Hauthor.
  case_bool_decide as Hstatus; [|destruct Hlock as [message Hlock]; by rewrite Hlock].
  rewrite Hlock.
  set (w1 := written (trim tweetId) (lockedDoc (serverTime w) doc) w).
  destruct (fetchTwitterAccountCredentials_reads (groupId doc) (accountId doc) w1)
    as [account Hfetch].
  destruct (publishLocked_spec TwitterApi caller (trim tweetId) doc
              (lockedDoc (serverTime w) doc) account w1 (lookup_written _ _ _) Hfetch)
    as [new Hrest].
  intros Hrun. rewrite Hrun in Hrest. destruct Hrest as (Hsuccess & -> & Hposts).
  by exists doc, new.
Qed.

(** *** The sweep path after the lock *)

Lemma processLocked_outcome tweetRef data doc w :
  tweets w !! tweetRef = Some doc →
  ∃ new doc',
    processLocked TwitterApi tweetRef data w
    = (Ok (), written tweetRef doc' (called new w))
    ∧ ((doc' = postedDoc (serverTime w) doc ∧ posts new = 1%nat)
       ∨ (∃ message, doc' = failedDoc (serverTime w) message doc ∧ posts new = 0%nat)).
Proof.
  intros Hdoc. unfold processLocked. unfold bind at 1.
  destruct (fetchTwitterAccountCredentials_reads (groupId data) (accountId data) w)
    as [account ->].
  assert (Hfail : ∀ message,
    ∃ new doc',
      markTweetFailure tweetRef message w
      = (Ok (), written tweetRef doc' (called new w))
      ∧ ((doc' = postedDoc (serverTime w) doc ∧ posts new = 1%nat)
         ∨ (∃ message', doc' = failedDoc (serverTime w) message' doc
                        ∧ posts new = 0%nat))).
  { intros message. exists [], (failedDoc (serverTime w) message doc).
    rewrite called_nil. split; [by apply markTweetFailure_written|].
    right. by exists message. }
  destruct account as [account|]; [|apply Hfail].
  destruct (negb _); [apply Hfail|].
  destruct (createTwitterClient TwitterApi (credentials account)) as [client|error];
    [|apply Hfail].
  unfold tryCatch.
  destruct (publishTweetWithClient_spec client tweetRef data doc w Hdoc) as [new Hpublish].
  exists new.
  destruct (publishTweetWithClient _ _ _ _) as [[[]|e] w'].
  - destruct Hpublish as [-> Hposts]. eexists. split; [done|]. by left.
  - destruct Hpublish as [-> Hposts].
    exists (failedDoc (serverTime w) (messageOr "Failed to post tweet" e) doc).
    split; [by rewrite (markTweetFailure_written _ _ doc)|].
    right. by eexists.
Qed.

Lemma processTweetDocument_cases tweetRef data doc w :
  tweets w !! tweetRef = Some doc →
  ∃ w', processTweetDocument TwitterApi tweetRef data w = (Ok (), w')
    ∧ if bool_decide (status doc = processing ∨ status doc = posted) then w' = w
      else
        ∃ new,
          (w' = written tweetRef
                  (postedDoc (serverTime w + 1) (lockedDoc (serverTime w) doc))
                  (called new (written tweetRef (lockedDoc (serverTime w) doc) w))
           ∧ posts new = 1%nat)
          ∨ (∃ message,
               w' = written tweetRef
                      (failedDoc (serverTime w + 1) message (lockedDoc (serverTime w) doc))
                      (called new (written tweetRef (lockedDoc (serverTime w) doc) w))
               ∧ posts new = 0%nat).
Proof.
  intros Hdoc. unfold processTweetDocument, bind.
  case_bool_decide as Hstatus.
  - rewrite (runTransaction_sweepLock_skip _ _ _ Hdoc Hstatus). by exists w.
  - rewrite (runTransaction_sweepLock_acquire _ doc) by tauto. cbn [negb].
    set (w1 := written tweetRef (lockedDoc (serverTime w) doc) w).
    destruct (processLocked_outcome tweetRef data (lockedDoc (serverTime w) doc) w1
                (lookup_written _ _ _))
      as (new & doc' & Hrun & [[-> Hposts]|[message [-> Hposts]]]);
      rewrite Hrun; eexists; (split; [done|]); exists new; [by left|right].
    by exists message.
Qed.


(** *** What a publication never touches *)

Lemma touchesOnly_refl tweetRef w : touchesOnly tweetRef w w.
Proof. by unfold touchesOnly. Qed.

Lemma touchesOnly_trans tweetRef w1 w2 w3 :
  touchesOnly tweetRef w1 w2 → touchesOnly tweetRef w2 w3 → touchesOnly tweetRef w1 w3.
Proof.
  intros (Ha1 & Hb1 & Ho1 & Hc1 & Hp1) (Ha2 & Hb2 & Ho2 & Hc2 & Hp2).
  split_and!; [congruence|congruence| |congruence|by etrans].
  intros other Hother. by rewrite Ho2, Ho1.
Qed.

Lemma touchesOnly_called tweetRef new w : touchesOnly tweetRef w (called new w).
Proof. split_and!; try done. by apply prefix_app_r. Qed.

Lemma touchesOnly_written tweetRef doc doc' w :
  tweets w !! tweetRef = Some doc →
  contentOf doc' = contentOf doc →
  touchesOnly tweetRef w (written tweetRef doc' w).
Proof.
  intros Hdoc Hcontent. split_and!; try done.
  - intros other Hother. cbn. by rewrite lookup_insert_ne.
  - rewrite lookup_written, Hdoc. cbn. by rewrite Hcontent.
Qed.

(** The sweep's treatment of an item leaves every other document, the
    accounts and the bucket as they were, and of the item itself the author,
    group, account, text, schedule and media; it only adds calls. *)
Theorem processTweetDocument_touchesOnly tweetRef data doc w :
  tweets w !! tweetRef = Some doc →
  touchesOnly tweetRef w (snd (processTweetDocument TwitterApi tweetRef data w)).
Proof.
  intros Hdoc.
  destruct (processTweetDocument_cases tweetRef data doc w Hdoc) as (w' & -> & Hw').
  cbn [snd]. case_bool_decide.
  { subst w'. apply touchesOnly_refl. }
  assert (Hlocked : touchesOnly tweetRef w
            (written tweetRef (lockedDoc (serverTime w) doc) w))
    by by apply (touchesOnly_written _ doc).
  destruct Hw' as [new [[-> _]|[message [-> _]]]].
  all: eapply touchesOnly_trans; [exact Hlocked|].
  all: eapply touchesOnly_trans; [apply (touchesOnly_called _ new)|].
  all: by apply (touchesOnly_written _ (lockedDoc (serverTime w) doc));
         [apply lookup_written|].
Qed.

(** A manual publish, whatever its outcome, leaves every other document, the
    accounts and the bucket as they were, and of the item itself the author,
    group, account, text, schedule and media. *)
Theorem publishTweetNow_touchesOnly tweetId caller w :
  touchesOnly (trim tweetId) w
    (snd (publishTweetNow TwitterApi (Some tweetId) (Some {| uid := caller |}) w)).
Proof.
  unfold publishTweetNow. cbn [uid].
  destruct (String.eqb (trim tweetId) "") eqn:Hid; [apply touchesOnly_refl|].
  pose proof (lockForPublish_cases caller (trim tweetId) w) as Hlock.
  unfold bind at 1.
  destruct (tweets w !! trim tweetId) as [doc|] eqn:Hdoc;
    [|rewrite Hlock; apply touchesOnly_refl].
  destruct (String.eqb (authorUid doc) caller) eqn:Hauthor;
    [|rewrite Hlock; apply touchesOnly_refl].
  case_bool_decide as Hstatus;
    [|destruct Hlock as [message Hlock]; rewrite Hlock; apply touchesOnly_refl].
  rewrite Hlock.
  set (w1 := written (trim tweetId) (lockedDoc (serverTime w) doc) w).
  assert (Hlocked : touchesOnly (trim tweetId) w w1)
    by by apply (touchesOnly_written _ doc).
  destruct (fetchTwitterAccountCredentials_reads (groupId doc) (accountId doc) w1)
    as [account Hfetch].
  destruct (publishLocked_spec TwitterApi caller (trim tweetId) doc
              (lockedDoc (serverTime w) doc) account w1 (lookup_written _ _ _) Hfetch)
    as [new Hrest].
  destruct (publishLocked _ _ _ _ _) as [[response|e] w'].
  - destruct Hrest as (_ & -> & _). cbn [snd].
    eapply touchesOnly_trans; [exact Hlocked|].
    eapply touchesOnly_trans; [apply (touchesOnly_called _ new)|].
    by apply (touchesOnly_written _ (lockedDoc (serverTime w) doc));
      [apply lookup_written|].
  - destruct Hrest as (message & _ & -> & _). cbn [snd].
    eapply touchesOnly_trans; [exact Hlocked|].
    eapply touchesOnly_trans; [apply (touchesOnly_called _ new)|].
    by apply (touchesOnly_written _ (lockedDoc (serverTime w) doc));
      [apply lookup_written|].
Qed.

(** *** No account, no call *)

Lemma processLocked_without_account tweetRef data doc account w :
  tweets w !! tweetRef = Some doc →
  fetchTwitterAccountCredentials (groupId data) (accountId data) w = (Ok account, w) →
  (∀ found, account = Some found → account_ownerUid found ≠ authorUid data) →
  ∃ message,
    processLocked TwitterApi tweetRef data w
    = (Ok (), written tweetRef (failedDoc (serverTime w) message doc) w).
Proof.
  intros Hdoc Hfetch Hforeign. unfold processLocked, bind. rewrite Hfetch.
  destruct account as [found|].
  - specialize (Hforeign found eq_refl). apply String.eqb_neq in Hforeign.
    rewrite Hforeign. cbn [negb]. eexists. by apply markTweetFailure_written.
  - eexists. by apply markTweetFailure_written.
Qed.

(** On the sweep path, when the item has no usable account configuration, or
    the account belongs to someone other than the item's author, no call is
    made to the network; an item the sweep locks ends [failed]. *)
Theorem processTweetDocument_without_account tweetRef data doc account w :
  tweets w !! tweetRef = Some doc →
  fetchTwitterAccountCredentials (groupId data) (accountId data) w = (Ok account, w) →
  (∀ found, account = Some found → account_ownerUid found ≠ authorUid data) →
  calls (snd (processTweetDocument TwitterApi tweetRef data w)) = calls w
  ∧ (status doc ≠ processing → status doc ≠ posted →
     statusOf tweetRef (snd (processTweetDocument TwitterApi tweetRef data w))
     = Some failed).
Proof.
  intros Hdoc Hfetch Hforeign.
  destruct (decide (status doc = processing ∨ status doc = posted)) as [Hstatus|Hstatus].
  - unfold processTweetDocument, bind.
    rewrite (runTransaction_sweepLock_skip _ _ _ Hdoc Hstatus).
    split; [done|]. tauto.
  - unfold processTweetDocument, bind.
    rewrite (runTransaction_sweepLock_acquire _ doc) by tauto. cbn [negb].
    set (w1 := written tweetRef (lockedDoc (serverTime w) doc) w).
    destruct (processLocked_without_account tweetRef data (lockedDoc (serverTime w) doc)
                account w1 (lookup_written _ _ _)) as [message Hrun].
    { by apply (fetchTwitterAccountCredentials_frame _ _ _ w). }
    { done. }
    rewrite Hrun. split; [done|]. intros _ _. unfold statusOf.
    cbn [snd]. by rewrite lookup_written.
Qed.

(** On the manual path, when the item has no usable account configuration, or
    the account belongs to someone other than the caller, no call is made to
    the network. *)
Theorem publishTweetNow_without_account tweetId caller doc account w :
  tweets w !! trim tweetId = Some doc →
  fetchTwitterAccountCredentials (groupId doc) (accountId doc) w = (Ok account, w) →
  (∀ found, account = Some found → account_ownerUid found ≠ caller) →
  calls (snd (publishTweetNow TwitterApi (Some tweetId) (Some {| uid := caller |}) w))
  = calls w
  ∧ ∃ e, fst (publishTweetNow TwitterApi (Some tweetId) (Some {| uid := caller |}) w)
         = Throw e.
Proof.
  intros Hdoc Hfetch Hforeign. unfold publishTweetNow. cbn [uid].
  destruct (String.eqb (trim tweetId) "") eqn:Hid; [split; [done|by eexists]|].
  pose proof (lockForPublish_cases caller (trim tweetId) w) as Hlock.
  rewrite Hdoc in Hlock. unfold bind at 1. unfold bind at 1.
  destruct (String.eqb (authorUid doc) caller) eqn:Hauthor;
    [|rewrite Hlock; split; [done|by eexists]].
  case_bool_decide as Hstatus;
    [|destruct Hlock as [message Hlock]; rewrite Hlock; split; [done|by eexists]].
  rewrite Hlock.
  set (w1 := written (trim tweetId) (lockedDoc (serverTime w) doc) w).
  unfold publishLocked, bind.
  rewrite (fetchTwitterAccountCredentials_frame _ _ account w w1 Hfetch eq_refl).
  destruct account as [found|].
  - specialize (Hforeign found eq_refl). apply String.eqb_neq in Hforeign.
    rewrite Hforeign. cbn [negb].
    rewrite (markTweetFailure_written _ _ (lockedDoc (serverTime w) doc))
      by apply lookup_written.
    split; [done|by eexists].
  - rewrite (markTweetFailure_written _ _ (lockedDoc (serverTime w) doc))
      by apply lookup_written.
    split; [done|by eexists].
Qed.

(** *** The calls of one publication *)

Lemma uploadEach_calls client attachments mediaIds w :
  ∃ ups, snd (uploadEach client attachments mediaIds w) = called ups w
    ∧ Forall isUpload ups
    ∧ (length ups ≤ length attachments)%nat.
Proof.
  revert mediaIds w. induction attachments as [|item rest IH]; intros mediaIds w.
  { exists []. by rewrite called_nil. }
  cbn [uploadEach].
  destruct (negb (truthy (storagePath item)) || negb (truthy (contentType item))).
  { exists []. rewrite called_nil. split_and!; [done|constructor|cbn; lia]. }
  unfold bind at 1. rewrite upload_attempt.
  destruct (bucket w !! _) as [buffer|].
  - destruct (v1_uploadMedia client (calls w) buffer _) as [mediaId|error].
    + destruct (IH (mediaIds ++ [mediaId])
                  (called [CallUploadMedia buffer (default "" (contentType item))
                             (Ok mediaId)] w))
        as (ups & -> & Hups & Hlen).
      eexists (_ :: ups). rewrite called_called.
      split_and!; [done|by constructor|cbn; lia].
    + eexists [_]. split_and!; [done|by repeat constructor|cbn; lia].
  - exists []. rewrite called_nil. split_and!; [done|constructor|cbn; lia].
Qed.

(** One publication makes at most four upload calls and then at most one post
    call, whatever the item holds and whatever the network answers. *)
Theorem publishTweetWithClient_calls client tweetRef data w :
  ∃ ups post,
    calls (snd (publishTweetWithClient client tweetRef data w))
    = calls w ++ ups ++ post
    ∧ Forall isUpload ups
    ∧ (length ups ≤ 4)%nat
    ∧ (post = [] ∨ ∃ payload answer, post = [CallTweet payload answer]).
Proof.
  assert (Hupload : ∃ ups,
    snd (uploadMediaAttachments client (media data) w) = called ups w
    ∧ Forall isUpload ups ∧ (length ups ≤ 4)%nat).
  { unfold uploadMediaAttachments.
    destruct (media data) as [[|item attachments]|].
    1,3: exists []; by rewrite called_nil; split_and!; [|constructor|cbn; lia].
    destruct (uploadEach_calls client (take 4 (item :: attachments)) [] w)
      as (ups & Hrun & Hups & Hlen).
    exists ups. split_and!; [done|done|]. rewrite length_take in Hlen. lia. }
  destruct Hupload as (ups & Hrun & Hups & Hlen).
  rewrite publishTweetWithClient_upload.
  destruct (uploadMediaAttachments _ _ _) as [[mediaIds|e] w1]; cbn [snd] in Hrun;
    subst w1.
  - assert (Hpost : ∀ payload,
      ∃ ups' post,
        calls (snd ((tweet client payload ;;; markTweetPosted tweetRef) (called ups w)))
        = calls w ++ ups' ++ post
        ∧ Forall isUpload ups' ∧ (length ups' ≤ 4)%nat
        ∧ (post = [] ∨ ∃ payload answer, post = [CallTweet payload answer])).
    { intros payload.
      destruct (tweet_then_posted_calls client payload tweetRef (called ups w))
        as [Hcalls _].
      exists ups, [CallTweet payload (v2_tweet client (calls (called ups w)) payload)].
      rewrite Hcalls. cbn [calls called]. rewrite <- app_assoc.
      split_and!; [done|done|done|right; by eexists _, _]. }
    destruct mediaIds as [|a rest]; [apply Hpost|].
    destruct (toMediaIdTuple (a :: rest)); [apply Hpost|].
    exists ups, []. rewrite app_nil_r. split_and!; [done|done|done|by left].
  - exists ups, []. rewrite app_nil_r. split_and!; [done|done|done|by left].
Qed.

(** The account [fetchTwitterAccountCredentials] returns comes from a stored
    document of provider [twitter] whose four credentials are all there and
    not empty; without such a document it returns [null].  It writes
    nothing. *)
Theorem fetchTwitterAccountCredentials_complete groupId accountId w :
  match fetchTwitterAccountCredentials groupId accountId w with
  | (Ok (Some account), w') =>
      w' = w
      ∧ ∃ data, socialAccounts w !! (groupId, accountId) = Some data
          ∧ provider data = "twitter"
          ∧ twitter data = Some (credentials account)
          ∧ account_ownerUid account = ownerUid data
          ∧ appKey (credentials account) ≠ ""
          ∧ appSecret (credentials account) ≠ ""
          ∧ accessToken (credentials account) ≠ ""
          ∧ accessSecret (credentials account) ≠ ""
  | (Ok None, w') =>
      w' = w
      ∧ ∀ data, socialAccounts w !! (groupId, accountId) = Some data →
          provider data ≠ "twitter"
          ∨ match twitter data with
            | None => True
            | Some found =>
                appKey found = "" ∨ appSecret found = ""
                ∨ accessToken found = "" ∨ accessSecret found = ""
            end
  | (Throw _, _) => False
  end.
Proof.
  unfold fetchTwitterAccountCredentials.
  destruct (socialAccounts w !! (groupId, accountId)) as [data|]; [|done].
  destruct (String.eqb (provider data) "twitter") eqn:Hprovider; cbn [negb].
  2:{ split; [done|]. intros ? [= <-]. left. by apply String.eqb_neq. }
  apply String.eqb_eq in Hprovider.
  destruct (twitter data) as [[key secret token tokenSecret]|] eqn:Htwitter.
  2:{ split; [done|]. intros ? [= <-]. right. by rewrite Htwitter. }
  cbn [truthy appKey appSecret accessToken accessSecret].
  destruct (String.eqb key "") eqn:Hkey; cbn [negb orb].
  { split; [done|]. intros ? [= <-]. right. rewrite Htwitter. cbn.
    left. by apply String.eqb_eq. }
  destruct (String.eqb secret "") eqn:Hsecret; cbn [negb orb].
  { split; [done|]. intros ? [= <-]. right. rewrite Htwitter. cbn.
    right. left. by apply String.eqb_eq. }
  destruct (String.eqb token "") eqn:Htoken; cbn [negb orb].
  { split; [done|]. intros ? [= <-]. right. rewrite Htwitter. cbn.
    right. right. left. by apply String.eqb_eq. }
  destruct (String.eqb tokenSecret "") eqn:HtokenSecret; cbn [negb orb].
  { split; [done|]. intros ? [= <-]. right. rewrite Htwitter. cbn.
    right. right. right. by apply String.eqb_eq. }
  split; [done|]. exists data. cbn.
  apply String.eqb_neq in Hkey, Hsecret, Htoken, HtokenSecret.
  by split_and!.
Qed.

(** *** The scheduled sweep *)

Lemma processTweetDocument_step tweetRef data doc w :
  tweets w !! tweetRef = Some doc →
  status doc = scheduled ∨ status doc = queued →
  ∃ w1 doc1,
    processTweetDocument TwitterApi tweetRef data w = (Ok (), w1)
    ∧ tweets w1 = <[tweetRef := doc1]> (tweets w)
    ∧ socialAccounts w1 = socialAccounts w
    ∧ bucket w1 = bucket w
    ∧ contentOf doc1 = contentOf doc
    ∧ (status doc1 = posted ∨ status doc1 = failed)
    ∧ (posts (calls w1) ≤ posts (calls w) + 1)%nat.
Proof.
  intros Hdoc Hstatus.
  destruct (processTweetDocument_cases tweetRef data doc w Hdoc) as (w1 & Hrun & Hw1).
  rewrite bool_decide_eq_false_2 in Hw1
    by (intros [Hs|Hs]; destruct Hstatus as [Hd|Hd]; congruence).
  exists w1.
  destruct Hw1 as [new [[-> Hposts]|[message [-> Hposts]]]]; eexists;
    (split; [exact Hrun|]); cbn [tweets socialAccounts bucket calls written called];
    rewrite insert_insert_eq, posts_app, Hposts;
    (split_and!; [done|done|done|done| |lia]); [by left|by right].
Qed.

Lemma processEach_spec docs w :
  NoDup docs.*1 →
  (∀ ref doc, (ref, doc) ∈ docs →
     tweets w !! ref = Some doc ∧ (status doc = scheduled ∨ status doc = queued)) →
  ∃ w', processEach TwitterApi docs w = (Ok (), w')
    ∧ socialAccounts w' = socialAccounts w
    ∧ bucket w' = bucket w
    ∧ (∀ ref, ref ∉ docs.*1 → tweets w' !! ref = tweets w !! ref)
    ∧ (∀ ref doc, (ref, doc) ∈ docs →
         ∃ doc', tweets w' !! ref = Some doc'
           ∧ contentOf doc' = contentOf doc
           ∧ (status doc' = posted ∨ status doc' = failed))
    ∧ (posts (calls w') ≤ posts (calls w) + length docs)%nat.
Proof.
  revert w. induction docs as [|[ref doc] rest IH]; intros w Hnodup Hdocs.
  { exists w. split_and!; try done.
    - intros ref doc Hin. by apply elem_of_nil in Hin.
    - cbn. lia. }
  cbn [fmap list_fmap fst] in Hnodup. apply NoDup_cons in Hnodup as [Hfresh Hnodup].
  destruct (Hdocs ref doc) as [Hdoc Hstatus]; [left|].
  destruct (processTweetDocument_step ref doc doc w Hdoc Hstatus)
    as (w1 & doc1 & Hrun & Htweets & Haccounts & Hbucket & Hcontent & Hdone & Hposts).
  destruct (IH w1 Hnodup) as (w' & Hrest & Haccounts' & Hbucket' & Hother & Hprocessed & Hposts').
  { intros ref' doc' Hin. destruct (Hdocs ref' doc') as [Hdoc' Hstatus']; [by right|].
    split; [|done]. rewrite Htweets, lookup_insert_ne; [done|].
    intros <-. apply Hfresh. apply list_elem_of_fmap. by exists (ref, doc'). }
  exists w'. cbn [processEach fst snd]. unfold bind. rewrite Hrun.
  split_and!; [exact Hrest|congruence|congruence| | |cbn [length]; lia].
  - intros ref' Hnotin. apply not_elem_of_cons in Hnotin as [Hne Hnotin].
    rewrite (Hother ref' Hnotin), Htweets. by rewrite lookup_insert_ne.
  - intros ref' doc' Hin. apply elem_of_cons in Hin as [[= -> ->]|Hin].
    + exists doc1. rewrite (Hother ref Hfresh), Htweets, lookup_insert_eq. done.
    + by apply Hprocessed.
Qed.

Lemma dueTweetsQuery_stored now w :
  NoDup (dueTweetsQuery now w).*1
  ∧ ∀ ref doc, (ref, doc) ∈ dueTweetsQuery now w →
      tweets w !! ref = Some doc ∧ isDue now (ref, doc).
Proof.
  unfold dueTweetsQuery.
  set (due := filter (isDue now) (map_to_list (tweets w))).
  assert (Hsub : ∀ entry, entry ∈ take 25 (merge_sort dueBefore due) → entry ∈ due).
  { intros entry Hin. apply elem_of_take in Hin as (i & Hi & _).
    apply list_elem_of_lookup_2 in Hi. by rewrite merge_sort_Permutation in Hi. }
  split.
  - assert (Hnodup : NoDup (merge_sort dueBefore due).*1).
    { rewrite merge_sort_Permutation. unfold due.
      apply (sublist_NoDup _ (map_to_list (tweets w)).*1);
        [apply NoDup_fst_map_to_list|apply fmap_sublist, sublist_filter]. }
    apply (sublist_NoDup _ (merge_sort dueBefore due).*1);
      [exact Hnodup|apply fmap_sublist, sublist_take].
  - intros ref doc Hin. apply Hsub in Hin. unfold due in Hin.
    apply list_elem_of_filter in Hin as [Hdue Hin].
    by apply elem_of_map_to_list in Hin.
Qed.

(** One run of the sweep returns without an error.  It picks at most 25
    items; each of them ends [posted] or [failed], with its author, group,
    account, text, schedule and media as they were; every other document, the
    accounts and the bucket are untouched, no document is created, and at
    most one post per picked item is accepted. *)
Theorem processScheduledTweets_outcome now w :
  ∃ w', processScheduledTweets TwitterApi now w = (Ok (), w')
    ∧ socialAccounts w' = socialAccounts w
    ∧ bucket w' = bucket w
    ∧ (length (dueTweetsQuery now w) ≤ 25)%nat
    ∧ (posts (calls w') ≤ posts (calls w) + length (dueTweetsQuery now w))%nat
    ∧ (∀ ref doc, (ref, doc) ∈ dueTweetsQuery now w →
         ∃ doc', tweets w' !! ref = Some doc'
           ∧ contentOf doc' = contentOf doc
           ∧ (status doc' = posted ∨ status doc' = failed))
    ∧ (∀ ref, ref ∉ (dueTweetsQuery now w).*1 → tweets w' !! ref = tweets w !! ref).
Proof.
  destruct (dueTweetsQuery_stored now w) as [Hnodup Hstored].
  destruct (processEach_spec (dueTweetsQuery now w) w Hnodup)
    as (w' & Hrun & Haccounts & Hbucket & Hother & Hprocessed & Hposts).
  { intros ref doc Hin. destruct (Hstored ref doc Hin) as [Hdoc [Hstatus _]]. done. }
  exists w'. split_and!; try done.
  - unfold processScheduledTweets. cbv zeta.
    destruct (dueTweetsQuery now w) eqn:Hquery; [|done].
    cbn in Hrun. by injection Hrun as <-.
  - unfold dueTweetsQuery. rewrite length_take. lia.
Qed.

Lemma dueBefore_total : Total dueBefore.
Proof.
  intros [ref1 doc1] [ref2 doc2]. unfold dueBefore. cbn.
  destruct (Z.lt_trichotomy (scheduledFor doc1) (scheduledFor doc2)) as [?|[Heq|?]];
    [by left; left| |by right; left].
  destruct (String.leb_total ref1 ref2); [left|right]; right; by split.
Qed.

Lemma Sorted_weaken {A} (R R' : relation A) (l : list A) :
  (∀ x y, R x y → R' x y) → Sorted R l → Sorted R' l.
Proof.
  intros Himpl. induction 1 as [|x l _ IH Hhd]; constructor; [done|].
  destruct Hhd; constructor; auto.
Qed.

Lemma merge_sort_notLater (entries : list (string * TweetDocData)) :
  StronglySorted notLater (merge_sort dueBefore entries).
Proof.
  assert (Htrans : Transitive notLater) by (intros a b c; unfold notLater; lia).
  apply (sorting.Sorted_StronglySorted notLater).
  apply (Sorted_weaken dueBefore).
  - intros a b [Hlt|[Heq _]]; unfold notLater; lia.
  - apply Sorted_merge_sort, dueBefore_total.
Qed.

(** The query of the sweep returns stored items that are due, earliest
    first; an item that is due and left out means that 25 items were
    returned, none of them scheduled later than it. *)
Theorem dueTweetsQuery_earliest now w :
  (∀ ref doc, (ref, doc) ∈ dueTweetsQuery now w →
     tweets w !! ref = Some doc
     ∧ (status doc = scheduled ∨ status doc = queued)
     ∧ scheduledFor doc <= now)
  ∧ StronglySorted notLater (dueTweetsQuery now w)
  ∧ (∀ ref doc,
       tweets w !! ref = Some doc →
       status doc = scheduled ∨ status doc = queued →
       scheduledFor doc <= now →
       (ref, doc) ∉ dueTweetsQuery now w →
       length (dueTweetsQuery now w) = 25%nat
       ∧ ∀ entry, entry ∈ dueTweetsQuery now w → scheduledFor entry.2 <= scheduledFor doc).
Proof.
  split; [|split].
  - intros ref doc Hin.
    destruct (dueTweetsQuery_stored now w) as [_ Hstored].
    destruct (Hstored ref doc Hin) as (Hdoc & Hstatus & Hdue). done.
  - unfold dueTweetsQuery.
    pose proof (merge_sort_notLater (filter (isDue now) (map_to_list (tweets w))))
      as Hsorted.
    rewrite <- (take_drop 25 (merge_sort _ _)) in Hsorted.
    by apply StronglySorted_app_1_l in Hsorted.
  - intros ref doc Hdoc Hstatus Hdue Hout. unfold dueTweetsQuery in *.
    set (sorted := merge_sort dueBefore (filter (isDue now) (map_to_list (tweets w)))) in *.
    assert (Hin : (ref, doc) ∈ sorted).
    { unfold sorted. rewrite merge_sort_Permutation.
      apply list_elem_of_filter. split; [by split|]. by apply elem_of_map_to_list. }
    rewrite <- (take_drop 25 sorted) in Hin.
    apply elem_of_app in Hin as [Hin|Hin]; [done|].
    split.
    + apply length_take_le.
      destruct (decide (25 ≤ length sorted)%nat) as [Hle|Hfew]; [done|].
      rewrite drop_ge in Hin by lia. by apply elem_of_nil in Hin.
    + intros entry Hentry.
      pose proof (merge_sort_notLater (filter (isDue now) (map_to_list (tweets w))))
        as Hsorted.
      fold sorted in Hsorted. rewrite <- (take_drop 25 sorted) in Hsorted.
      apply (StronglySorted_app_1_elem_of _ _ _ entry (ref, doc) Hsorted Hentry Hin).
Qed.

End FunctionsMoreFacts.

(** ** Two attempts on one item, in every order of their operations *)

Section RaceFacts.
Import Functions FunctionsSpec Async RaceSpec.

(** *** The routines are the functions *)

Lemma run_andThen {A B} (t : Routine A) (k : A → Routine B) w :
  run (andThen t k) w = bind (run t) (λ a, run (k a)) w.
Proof.
  revert w. induction t as [[a|e]|X operation continuation IH]; intros w; try done.
  cbn. unfold bind. destruct (operation w) as [r w1]. by rewrite IH.
Qed.

Lemma run_orCatch {A} (t : Routine A) (handler : Exn → Routine A) w :
  run (orCatch t handler) w = tryCatch (run t) (λ e, run (handler e)) w.
Proof.
  revert w. induction t as [[a|e]|X operation continuation IH]; intros w; try done.
  cbn. unfold tryCatch. destruct (operation w) as [r w1]. by rewrite IH.
Qed.

Lemma run_await {X} (operation : M X) w : run (await operation) w = operation w.
Proof. cbn. by destruct (operation w) as [r w1]. Qed.

Lemma run_downloadMediaFromStorage storagePath w :
  run (Async.downloadMediaFromStorage storagePath) w
  = Functions.downloadMediaFromStorage storagePath w.
Proof.
  unfold Functions.downloadMediaFromStorage, Async.downloadMediaFromStorage.
  rewrite run_andThen. unfold bind. rewrite run_await. unfold fileExists.
  destruct (bucket w !! storagePath) as [buffer|] eqn:Hbucket.
  - rewrite bool_decide_eq_true_2 by eauto. cbn [negb].
    rewrite run_await. unfold fileDownload. by rewrite Hbucket.
  - rewrite bool_decide_eq_false_2 by (by intros [? ?]). done.
Qed.

Lemma run_uploadEach client attachments mediaIds w :
  run (Async.uploadEach client attachments mediaIds) w
  = Functions.uploadEach client attachments mediaIds w.
Proof.
  revert mediaIds w. induction attachments as [|item rest IH]; intros mediaIds w; [done|].
  cbn [Async.uploadEach Functions.uploadEach].
  destruct (negb (truthy (storagePath item)) || negb (truthy (contentType item))); [done|].
  cbv zeta. rewrite run_andThen. unfold bind.
  rewrite run_orCatch. unfold tryCatch.
  rewrite run_andThen. unfold bind.
  rewrite run_downloadMediaFromStorage.
  destruct (Functions.downloadMediaFromStorage _ w) as [[buffer|e] w1]; [|done].
  rewrite run_await. destruct (uploadMedia client buffer _ w1) as [[mediaId|e] w2]; [|done].
  apply IH.
Qed.

Lemma run_publishTweetWithClient client tweetRef data w :
  run (Async.publishTweetWithClient client tweetRef data) w
  = Functions.publishTweetWithClient client tweetRef data w.
Proof.
  unfold Async.publishTweetWithClient, Functions.publishTweetWithClient.
  rewrite run_andThen. unfold bind.
  assert (Hupload : run (Async.uploadMediaAttachments client (media data)) w
                    = Functions.uploadMediaAttachments client (media data) w).
  { unfold Async.uploadMediaAttachments, Functions.uploadMediaAttachments.
    destruct (media data) as [[|item rest]|]; try done. apply run_uploadEach. }
  rewrite Hupload.
  destruct (Functions.uploadMediaAttachments client (media data) w)
    as [[mediaIds|e] w1]; [|done].
  rewrite run_andThen. unfold bind.
  destruct (0 <? length mediaIds)%nat.
  - rewrite run_andThen. unfold bind. cbn [run].
    unfold liftResult. destruct (toMediaIdTuple mediaIds) as [mediaPayload|e]; [|done].
    rewrite run_await.
    destruct (tweet client _ w1) as [[[]|e] w2]; [|done]. apply run_await.
  - rewrite run_await.
    destruct (tweet client _ w1) as [[[]|e] w2]; [|done]. apply run_await.
Qed.

(** *** The holder of the lock *)

Lemma Steps_weaken {A} tweetRef (Q Q' : nat → bool → Result A → Prop) (t : Routine A)
    budget ended :
  (∀ budget' ended' r, Q budget' ended' r → Q' budget' ended' r) →
  Steps tweetRef Q budget ended t → Steps tweetRef Q' budget ended t.
Proof.
  intros HQ. revert budget ended.
  induction t as [r|X operation continuation IH]; intros budget ended; cbn; [apply HQ|].
  intros [-> Hstep]. split; [done|]. intros w r w1 Hstatus Hop.
  destruct (Hstep w r w1 Hstatus Hop)
    as [Htouch [(Hp & used & Hle & Hposts & Hk)|(Hend & Hposts & Hk)]].
  all: split; [done|].
  - left. split; [done|]. exists used. split_and!; [done..|]. by apply IH.
  - right. split_and!; [done..|]. by apply IH.
Qed.

Lemma Steps_andThen {A B} tweetRef (Q : nat → bool → Result A → Prop)
    (Q' : nat → bool → Result B → Prop) (k : A → Routine B) (t : Routine A) budget ended :
  Steps tweetRef Q budget ended t →
  (∀ budget' ended' r, Q budget' ended' r →
     match r with
     | Ok a => Steps tweetRef Q' budget' ended' (k a)
     | Throw e => Q' budget' ended' (Throw e)
     end) →
  Steps tweetRef Q' budget ended (andThen t k).
Proof.
  intros Ht HQ. revert budget ended Ht.
  induction t as [r|X operation continuation IH]; intros budget ended; cbn [Steps].
  { intros Hr. specialize (HQ _ _ _ Hr). by destruct r. }
  intros [-> Hstep]. cbn [andThen Steps]. split; [done|]. intros w r w1 Hstatus Hop.
  destruct (Hstep w r w1 Hstatus Hop)
    as [Htouch [(Hp & used & Hle & Hposts & Hk)|(Hend & Hposts & Hk)]].
  all: split; [done|].
  - left. split; [done|]. exists used. split_and!; [done..|]. by apply IH.
  - right. split_and!; [done..|]. by apply IH.
Qed.

Lemma Steps_orCatch {A} tweetRef (Q Q' : nat → bool → Result A → Prop)
    (handler : Exn → Routine A) (t : Routine A) budget ended :
  Steps tweetRef Q budget ended t →
  (∀ budget' ended' r, Q budget' ended' r →
     match r with
     | Ok a => Q' budget' ended' (Ok a)
     | Throw e => Steps tweetRef Q' budget' ended' (handler e)
     end) →
  Steps tweetRef Q' budget ended (orCatch t handler).
Proof.
  intros Ht HQ. revert budget ended Ht.
  induction t as [r|X operation continuation IH]; intros budget ended; cbn [Steps].
  { intros Hr. specialize (HQ _ _ _ Hr). by destruct r. }
  intros [-> Hstep]. cbn [orCatch Steps]. split; [done|]. intros w r w1 Hstatus Hop.
  destruct (Hstep w r w1 Hstatus Hop)
    as [Htouch [(Hp & used & Hle & Hposts & Hk)|(Hend & Hposts & Hk)]].
  all: split; [done|].
  - left. split; [done|]. exists used. split_and!; [done..|]. by apply IH.
  - right. split_and!; [done..|]. by apply IH.
Qed.

(** An operation that at most adds calls, none of them an accepted post. *)
Lemma Steps_quiet {X} tweetRef (operation : M X) (R : Result X → Prop) budget :
  (∀ w, ∃ new, snd (operation w) = called new w ∧ posts new = 0%nat
               ∧ R (fst (operation w))) →
  Steps tweetRef (λ budget' ended r, budget' = budget ∧ ended = false ∧ R r)
    budget false (await operation).
Proof.
  intros Hquiet. cbn. split; [done|]. intros w r w1 Hstatus Hop.
  destruct (Hquiet w) as (new & Hsnd & Hposts & HR). rewrite Hop in Hsnd, HR.
  cbn in Hsnd, HR. subst w1. split; [apply touchesOnly_called|].
  left. split; [done|]. exists 0%nat. split_and!; [lia| |lia|done..].
  unfold called. cbn [calls]. rewrite posts_app. lia.
Qed.

Lemma Steps_tweet tweetRef client payload :
  Steps tweetRef
    (λ budget' ended r,
       ended = false
       ∧ ((budget' = 0%nat ∧ is_ok r = true) ∨ (budget' = 1%nat ∧ is_ok r = false)))
    1 false (await (tweet client payload)).
Proof.
  cbn. split; [done|]. intros w r w1 Hstatus [= <- <-].
  split; [apply (touchesOnly_called _ [CallTweet payload _])|].
  left. split; [done|].
  destruct (v2_tweet client (calls w) payload) as [[]|e] eqn:Hanswer.
  - exists 1%nat. split_and!; [lia| |done|]; [|left; done].
    cbn [calls]. rewrite posts_app. done.
  - exists 0%nat. split_and!; [lia| |done|]; [|right; done].
    cbn [calls]. rewrite posts_app. done.
Qed.

Lemma Steps_markTweetPosted tweetRef budget :
  Steps tweetRef (λ _ ended (r : Result unit), ended = true ∧ is_ok r = true)
    budget false (await (markTweetPosted tweetRef)).
Proof.
  cbn. split; [done|]. intros w r w1 Hstatus.
  unfold statusOf in Hstatus. unfold markTweetPosted, update.
  destruct (tweets w !! tweetRef) as [doc|] eqn:Hdoc; [|done].
  intros [= <- <-]. split.
  - by apply (touchesOnly_written tweetRef doc).
  - right. split_and!; [|done..]. left. unfold statusOf. cbn.
    by rewrite lookup_insert_eq.
Qed.

Lemma Steps_markTweetFailure tweetRef message :
  Steps tweetRef (λ _ ended (r : Result unit), ended = true ∧ is_ok r = true)
    1 false (await (markTweetFailure tweetRef message)).
Proof.
  cbn. split; [done|]. intros w r w1 Hstatus.
  unfold statusOf in Hstatus. unfold markTweetFailure, update.
  destruct (tweets w !! tweetRef) as [doc|] eqn:Hdoc; [|done].
  intros [= <- <-]. split.
  - by apply (touchesOnly_written tweetRef doc).
  - right. split_and!; [|done..]. right. split; [|done]. unfold statusOf. cbn.
    by rewrite lookup_insert_eq.
Qed.

Lemma Steps_uploadEach tweetRef client attachments mediaIds budget :
  Steps tweetRef (stillHolding budget) budget false
    (Async.uploadEach client attachments mediaIds).
Proof.
  revert mediaIds. induction attachments as [|item rest IH]; intros mediaIds; [done|].
  cbn [Async.uploadEach].
  destruct (negb (truthy (storagePath item)) || negb (truthy (contentType item)));
    [done|].
  cbv zeta. eapply (Steps_andThen _ (stillHolding budget)).
  2:{ intros budget' ended' [mediaId|e] [-> ->]; [apply IH|done]. }
  eapply (Steps_orCatch _ (stillHolding budget)).
  2:{ by intros budget' ended' [mediaId|e] [-> ->]. }
  eapply (Steps_andThen _ (stillHolding budget)).
  2:{ intros budget' ended' [buffer|e] [-> ->]; [|done].
      eapply Steps_weaken; [|apply (Steps_quiet _ _ (λ _, True))].
      - by intros ? ? ? (-> & -> & _).
      - intros w.
        exists [CallUploadMedia buffer (default "" (contentType item))
                  (v1_uploadMedia client (calls w) buffer
                     (default "" (contentType item)))].
        by split_and!. }
  unfold Async.downloadMediaFromStorage.
  eapply (Steps_andThen _ (stillHolding budget)).
  { eapply Steps_weaken; [|apply (Steps_quiet _ _ (λ _, True))].
    - by intros ? ? ? (-> & -> & _).
    - intros w. exists []. by rewrite called_nil. }
  intros budget' ended' [[]|e] [-> ->]; cbn [negb]; [|done..].
  eapply Steps_weaken; [|apply (Steps_quiet _ _ (λ _, True))].
  - by intros ? ? ? (-> & -> & _).
  - intros w. exists []. rewrite called_nil. unfold fileDownload.
    by destruct (bucket w !! _).
Qed.

Lemma Steps_publishTweetWithClient tweetRef client data :
  Steps tweetRef
    (λ budget' ended (r : Result unit),
       (ended = true ∧ is_ok r = true)
       ∨ (ended = false ∧ budget' = 1%nat ∧ is_ok r = false))
    1 false (Async.publishTweetWithClient client tweetRef data).
Proof.
  unfold Async.publishTweetWithClient.
  eapply (Steps_andThen _ (stillHolding 1)).
  { unfold Async.uploadMediaAttachments.
    destruct (media data) as [[|item rest]|]; try done. apply Steps_uploadEach. }
  intros budget' ended' [mediaIds|e] [-> ->]; [|by right].
  eapply (Steps_andThen _
            (λ budget' ended r,
               ended = false
               ∧ ((budget' = 0%nat ∧ is_ok r = true)
                  ∨ (budget' = 1%nat ∧ is_ok r = false)))).
  { destruct (0 <? length mediaIds)%nat; [|apply Steps_tweet].
    destruct (toMediaIdTuple mediaIds) as [mediaPayload|e]; cbn [andThen].
    - apply Steps_tweet.
    - cbn. split; [done|]. by right. }
  intros budget' ended' [[]|e] [-> [[-> Hok]|[-> Hok]]]; try done.
  - eapply Steps_weaken; [|apply Steps_markTweetPosted]. intros ? ? ? [-> ?]. by left.
  - by right.
Qed.

Variable TwitterApi : TwitterClientCredentials → Result TwitterClient.

Lemma run_processTweetDocument tweetRef data w :
  run (Async.processTweetDocument TwitterApi tweetRef data) w
  = Functions.processTweetDocument TwitterApi tweetRef data w.
Proof.
  unfold Async.processTweetDocument, Functions.processTweetDocument.
  rewrite run_andThen. unfold bind. rewrite run_await.
  destruct (runTransaction tweetRef sweepLock w) as [[[]|e] w1]; try done.
  cbn [negb]. unfold Async.processLocked, Functions.processLocked.
  rewrite run_andThen. unfold bind. rewrite run_await.
  destruct (fetchTwitterAccountCredentials _ _ w1) as [[[account|]|e] w2]; try done;
    [|apply run_await].
  destruct (negb _); [apply run_await|].
  destruct (createTwitterClient TwitterApi _) as [client|e]; [|apply run_await].
  rewrite run_orCatch. unfold tryCatch. rewrite run_publishTweetWithClient.
  destruct (Functions.publishTweetWithClient client tweetRef data w2)
    as [[[]|e] w3]; [done|]. apply run_await.
Qed.

Lemma run_publishTweetNow data_tweetId context_auth w :
  run (Async.publishTweetNow TwitterApi data_tweetId context_auth) w
  = Functions.publishTweetNow TwitterApi data_tweetId context_auth w.
Proof.
  unfold Async.publishTweetNow, Functions.publishTweetNow.
  destruct context_auth as [auth|]; [|done]. cbv zeta.
  destruct (String.eqb _ ""); [done|].
  rewrite run_andThen. unfold bind.
  unfold Async.lockForPublish, Functions.lockForPublish.
  rewrite run_orCatch. unfold tryCatch. rewrite run_await.
  destruct (runTransaction _ (manualLock (uid auth)) w) as [[tweetData|e] w1].
  2:{ by destruct e. }
  unfold Async.publishLocked, Functions.publishLocked.
  rewrite run_andThen. unfold bind. rewrite run_await.
  destruct (fetchTwitterAccountCredentials _ _ w1) as [[[account|]|e] w2]; try done.
  2:{ rewrite run_andThen. unfold bind. rewrite run_await.
      by destruct (markTweetFailure _ _ w2) as [[[]|e] w3]. }
  destruct (negb _).
  { rewrite run_andThen. unfold bind. rewrite run_await.
    by destruct (markTweetFailure _ _ w2) as [[[]|e] w3]. }
  destruct (createTwitterClient TwitterApi _) as [client|e].
  2:{ cbv zeta. rewrite run_andThen. unfold bind. rewrite run_await.
      by destruct (markTweetFailure _ _ w2) as [[[]|e'] w3]. }
  rewrite run_orCatch. unfold tryCatch. rewrite run_andThen. unfold bind.
  rewrite run_publishTweetWithClient.
  destruct (Functions.publishTweetWithClient client _ tweetData w2)
    as [[[]|e] w3]; [done|].
  cbv zeta. rewrite run_andThen. unfold bind. rewrite run_await.
  by destruct (markTweetFailure _ _ w3) as [[[]|e'] w4].
Qed.

Lemma Steps_processLocked tweetRef data :
  Steps tweetRef holderDone 1 false (Async.processLocked TwitterApi tweetRef data).
Proof.
  assert (Hfailure : ∀ message,
    Steps tweetRef (holderDone (A := unit)) 1 false
      (await (markTweetFailure tweetRef message))).
  { intros message. eapply Steps_weaken; [|apply Steps_markTweetFailure].
    by intros ? ? ? [-> _]. }
  unfold Async.processLocked.
  eapply (Steps_andThen _
            (λ budget' ended r, budget' = 1%nat ∧ ended = false ∧ is_ok r = true)).
  { apply Steps_quiet. intros w. exists []. rewrite called_nil.
    by destruct (fetchTwitterAccountCredentials_reads (groupId data) (accountId data) w)
      as [account ->]. }
  intros budget' ended' [account|e] (-> & -> & Hok); [|done].
  destruct account as [account|]; [|apply Hfailure].
  destruct (negb _); [apply Hfailure|].
  destruct (createTwitterClient TwitterApi _) as [client|e]; [|apply Hfailure].
  eapply Steps_orCatch; [apply Steps_publishTweetWithClient|].
  intros budget' ended' [[]|e] [[-> Hok']|(-> & -> & Hok')]; done.
Qed.

(** *** One operation of an attempt *)

Section Race.

Variable tweetRef : string.
Variable author : string.
Variable posts0 : nat.
Variable attempts : Side → Attempt.

Hypothesis tweetRef_trimmed : trim tweetRef = tweetRef.
Hypothesis tweetRef_given : tweetRef ≠ "".
(** A manual attempt is made by the author of the item. *)
Hypothesis manual_byAuthor :
  ∀ side caller, attempts side = ManualAttempt caller → caller = author.
Hypothesis some_sweep : ∃ side, isSweep (attempts side).

Lemma attemptRoutine_awaits attempt r :
  attemptRoutine TwitterApi attempt tweetRef ≠ Finished r.
Proof.
  destruct attempt as [data|caller]; [done|].
  cbn. unfold Async.publishTweetNow. rewrite tweetRef_trimmed.
  apply String.eqb_neq in tweetRef_given. by rewrite tweetRef_given.
Qed.

Lemma setPhase_same side phase phases : setPhase side phase phases side = phase.
Proof. unfold setPhase. by rewrite decide_True. Qed.

Lemma setPhase_other side side' phase phases :
  side' ≠ side → setPhase side phase phases side' = phases side'.
Proof. intros Hside. unfold setPhase. by rewrite decide_False. Qed.

Lemma otherSide_ne side : otherSide side ≠ side.
Proof. by destruct side. Qed.

Lemma otherSide_cases side side' : side' = side ∨ side' = otherSide side.
Proof. destruct side, side'; auto. Qed.

Lemma attempt_step side (t t' : Routine (AttemptResult (attempts side))) phases w w1 :
  inPhase TwitterApi tweetRef (attempts side) t (phases side) →
  Inv tweetRef author posts0 attempts phases w →
  serve t w = Some (w1, t') →
  ∃ phase',
    inPhase TwitterApi tweetRef (attempts side) t' phase'
    ∧ Step tweetRef (attempts side) w w1 (phases side) phase'.
Proof.
  intros Hphase (Hsweeps & doc & Hdoc & Hauthor & Hstatus) Hserve.
  pose proof (manual_byAuthor side) as Hmanual.
  destruct (phases side) as [|budget|] eqn:Hside; cbn [inPhase] in Hphase.
  - (* the lock transaction *)
    subst t. destruct (attempts side) as [data|caller].
    + cbn in Hserve.
      destruct (decide (status doc = processing ∨ status doc = posted)) as [Hheld|Hfree].
      * rewrite (runTransaction_sweepLock_skip _ doc) in Hserve by done.
        injection Hserve as <- <-. exists Over. split; [by eexists|].
        apply Step_refused; [|done]. right. unfold statusOf. rewrite Hdoc. cbn.
        destruct Hheld as [-> | ->]; auto.
      * rewrite (runTransaction_sweepLock_acquire _ doc) in Hserve by tauto.
        injection Hserve as <- <-. exists (Holding 1).
        split; [split; [done|apply Steps_processLocked]|].
        apply (Step_lock _ _ _ _ doc); try done.
        destruct (status doc); try done; tauto.
    + specialize (Hmanual caller eq_refl). subst caller.
      cbn in Hserve. unfold Async.publishTweetNow in Hserve.
      rewrite tweetRef_trimmed in Hserve.
      pose proof tweetRef_given as Hgiven. apply String.eqb_neq in Hgiven.
      rewrite Hgiven in Hserve. cbn in Hserve.
      destruct (runTransaction_manualLock_refuse author tweetRef doc w)
        as [message Hrefuse]; [done..| |].
      { by destruct (status doc). }
      rewrite Hrefuse in Hserve. injection Hserve as <- <-.
      exists Over. split; [by repeat eexists|].
      apply Step_refused; [|done]. left. by intros [].
  - (* the holder *)
    destruct Hphase as [Hsweep Hsteps].
    assert (Hprocessing : statusOf tweetRef w = Some processing).
    { unfold statusOf. rewrite Hdoc. cbn. f_equal.
      destruct (status doc); try done.
      - destruct Hstatus as (_ & Hnone & _). by specialize (Hnone side); rewrite Hside in Hnone.
      - destruct Hstatus as (_ & Hnone). by specialize (Hnone side); rewrite Hside in Hnone.
      - destruct Hstatus as (_ & Hnone & _). by specialize (Hnone side); rewrite Hside in Hnone. }
    destruct t as [r|X operation continuation]; [done|].
    cbn in Hserve. destruct (operation w) as [r w1'] eqn:Hop.
    injection Hserve as <- <-. destruct Hsteps as [_ Hsteps].
    destruct (Hsteps w r w1' Hprocessing Hop)
      as [Htouch [(Hp & used & Hle & Hposts & Hk)|(Hend & Hposts & Hk)]].
    + exists (Holding (budget - used)). split; [by split|]. by apply Step_work.
    + exists Over. split; [|by apply Step_end].
      destruct (continuation r) as [r'|]; [|by destruct Hk].
      exists r'. split; [done|]. by destruct (attempts side).
  - destruct Hphase as (r & -> & _). done.
Qed.

(** *** The invariant *)

Lemma touchesOnly_item w w1 doc s :
  touchesOnly tweetRef w w1 →
  tweets w !! tweetRef = Some doc →
  statusOf tweetRef w1 = Some s →
  ∃ doc1, tweets w1 !! tweetRef = Some doc1 ∧ status doc1 = s
          ∧ authorUid doc1 = authorUid doc.
Proof.
  intros (_ & _ & _ & Hcontent & _) Hdoc Hstatus. unfold statusOf in Hstatus.
  destruct (tweets w1 !! tweetRef) as [doc1|]; [|done].
  exists doc1. rewrite Hdoc in Hcontent. cbn in Hcontent, Hstatus.
  split; [done|]. split; [congruence|]. unfold contentOf in Hcontent. congruence.
Qed.

Lemma Inv_holder phases w side budget :
  Inv tweetRef author posts0 attempts phases w →
  phases side = Holding budget →
  ∃ doc, tweets w !! tweetRef = Some doc ∧ authorUid doc = author
         ∧ status doc = processing
         ∧ notHolding (phases (otherSide side))
         ∧ (posts (calls w) + budget = posts0 + 1)%nat.
Proof.
  intros (_ & doc & Hdoc & Hauthor & Hstatus) Hside. exists doc.
  destruct (status doc) eqn:Hs; try done.
  - destruct Hstatus as (_ & Hnone & _). specialize (Hnone side). by rewrite Hside in Hnone.
  - destruct Hstatus as (holder & budget' & Hholder & Hother & Hposts).
    destruct (otherSide_cases holder side) as [->| ->].
    + rewrite Hside in Hholder. by injection Hholder as ->.
    + by rewrite Hside in Hother.
  - destruct Hstatus as (_ & Hnone). specialize (Hnone side). by rewrite Hside in Hnone.
  - destruct Hstatus as (_ & Hnone & _). specialize (Hnone side). by rewrite Hside in Hnone.
Qed.

Lemma Inv_step side phase' phases w w1 :
  Inv tweetRef author posts0 attempts phases w →
  Step tweetRef (attempts side) w w1 (phases side) phase' →
  Inv tweetRef author posts0 attempts (setPhase side phase' phases) w1.
Proof.
  intros HInv Hstep. pose proof HInv as (Hsweeps & doc & Hdoc & Hauthor & Hstatus).
  remember (phases side) as phase eqn:Hside. symmetry in Hside.
  assert (Hholders : ∀ side' budget,
    phase' = Over ∨ isSweep (attempts side) →
    setPhase side phase' phases side' = Holding budget → isSweep (attempts side')).
  { intros side' budget Hphase'. unfold setPhase. case_decide as Hsame.
    - subst side'. destruct Hphase' as [-> |]; done.
    - apply Hsweeps. }
  destruct Hstep as [doc' Hsweep Hdoc' Hfree -> | Hrefused -> |
                     budget used Hle Htouch Hp Hposts | budget Htouch Hend Hposts].
  - (* the lock is taken *)
    rewrite Hdoc in Hdoc'. injection Hdoc' as <-.
    split; [intros ? ?; apply Hholders; by right|].
    exists (lockedDoc (serverTime w) doc). split; [apply lookup_written|].
    split; [done|]. cbn [status lockedDoc]. exists side, 1%nat.
    rewrite setPhase_same, setPhase_other by apply otherSide_ne.
    split; [done|]. cbn [calls written].
    destruct Hfree as [Hs|Hs]; rewrite Hs in Hstatus.
    + destruct Hstatus as (-> & Hnone & _). split; [apply Hnone|lia].
    + destruct Hstatus as (-> & Hnone & _). split; [apply Hnone|lia].
  - (* the lock transaction writes nothing *)
    split; [intros ? ?; apply Hholders; by left|].
    assert (Hnone : ∀ side', notHolding (phases side') →
                             notHolding (setPhase side Over phases side')).
    { intros side'. unfold setPhase. by case_decide. }
    exists doc. split; [done|]. split; [done|].
    destruct (status doc) eqn:Hs; try done.
    + destruct Hstatus as (Hposts & Hfree & Hfresh). split; [done|].
      split; [auto|]. intros side' Hsweep. unfold setPhase. case_decide as Hsame; [|auto].
      subst side'. exfalso. unfold statusOf in Hrefused. rewrite Hdoc in Hrefused.
      cbn in Hrefused. rewrite Hs in Hrefused.
      destruct Hrefused as [Hmanual|[?|?]]; [by apply Hmanual|done..].
    + destruct Hstatus as (holder & budget & Hholder & Hother & Hposts).
      exists holder, budget. rewrite setPhase_other by congruence. auto.
    + destruct Hstatus as (Hposts & Hfree). auto.
    + destruct Hstatus as (Hposts & Hfree & side' & Hsweep & Hover).
      split; [done|]. split; [auto|]. exists side'. split; [done|].
      rewrite setPhase_other by congruence. done.
  - (* the holder works *)
    destruct (Inv_holder _ _ _ _ HInv Hside)
      as (doc0 & Hdoc0 & _ & _ & Hother & Hbudget).
    destruct (touchesOnly_item _ _ _ _ Htouch Hdoc Hp) as (doc1 & Hdoc1 & Hs1 & Ha1).
    split; [intros ? ?; apply Hholders; right; by apply (Hsweeps side budget)|].
    exists doc1. split; [done|]. split; [congruence|]. rewrite Hs1.
    exists side, (budget - used)%nat.
    rewrite setPhase_same, setPhase_other by apply otherSide_ne.
    split; [done|]. split; [done|]. lia.
  - (* the holder ends the attempt *)
    destruct (Inv_holder _ _ _ _ HInv Hside)
      as (doc0 & Hdoc0 & _ & _ & Hother & Hbudget).
    assert (Hnone : ∀ side', notHolding (setPhase side Over phases side')).
    { intros side'. unfold setPhase. case_decide as Hsame; [done|].
      by destruct (otherSide_cases side side') as [->| ->]. }
    split; [intros ? ?; apply Hholders; by left|].
    destruct Hend as [Hposted|[Hfailed ->]].
    + destruct (touchesOnly_item _ _ _ _ Htouch Hdoc Hposted)
        as (doc1 & Hdoc1 & Hs1 & Ha1).
      exists doc1. split; [done|]. split; [congruence|]. rewrite Hs1.
      split; [lia|done].
    + destruct (touchesOnly_item _ _ _ _ Htouch Hdoc Hfailed)
        as (doc1 & Hdoc1 & Hs1 & Ha1).
      exists doc1. split; [done|]. split; [congruence|]. rewrite Hs1.
      split; [lia|]. split; [done|]. exists side.
      rewrite setPhase_same. split; [by apply (Hsweeps side 1%nat)|done].
Qed.

(** *** The rest of a run *)

Lemma lockEvent_served side w w1 events :
  lockEvent side ({| actor := side; before := w; after := w1 |} :: events)
  = Some {| actor := side; before := w; after := w1 |}.
Proof. unfold lockEvent. rewrite filter_cons, decide_True; done. Qed.

Lemma lockEvent_later side side' w w1 events :
  side' ≠ side →
  lockEvent side' ({| actor := side; before := w; after := w1 |} :: events)
  = lockEvent side' events.
Proof.
  intros Hside. unfold lockEvent. rewrite filter_cons, decide_False; [done|].
  cbn. congruence.
Qed.

Lemma lockEvent_elem side events e : lockEvent side events = Some e → e ∈ events.
Proof.
  unfold lockEvent. intros He. apply head_Some_elem_of in He.
  by apply list_elem_of_filter in He as [_ He].
Qed.

Lemma Step_status side phase phase' w w1 :
  Step tweetRef (attempts side) w w1 phase phase' →
  statusOf tweetRef w ≠ Some scheduled →
  statusOf tweetRef w1 ≠ Some scheduled.
Proof.
  intros Hstep Hstatus.
  destruct Hstep as [doc' Hsweep Hdoc' Hfree -> | Hrefused -> |
                     budget used Hle Htouch Hp Hposts | budget Htouch Hend Hposts].
  - unfold statusOf. by rewrite lookup_written.
  - done.
  - by rewrite Hp.
  - by destruct Hend as [-> |[-> _]].
Qed.

Lemma Outcome_step side phase' phases w w1 events w' :
  Inv tweetRef author posts0 attempts phases w →
  Step tweetRef (attempts side) w w1 (phases side) phase' →
  Outcome tweetRef posts0 attempts (setPhase side phase' phases) w1 events w' →
  Outcome tweetRef posts0 attempts phases w
    ({| actor := side; before := w; after := w1 |} :: events) w'.
Proof.
  intros HInv Hstep (Hposts & Hfinal & Hlocks & Hnever & Hsome & Hboth).
  pose proof HInv as (Hsweeps & doc & Hdoc & Hauthor & Hstatus).
  set (served := {| actor := side; before := w; after := w1 |}).
  (* what the lock transaction of [side] did, when this is it *)
  assert (Hserved : phases side = Fresh → lockOutcome tweetRef posts0 attempts side served).
  { intros Hside. rewrite Hside in Hstep. unfold lockOutcome, takesLock, writesNothing.
    cbn [before after served].
    inversion Hstep as [doc' Hsweep Hdoc' Hfree Hw1 | Hrefused Hw1 | |]; subst w1.
    - rewrite Hdoc in Hdoc'. injection Hdoc' as <-.
      assert (Hbefore : statusOf tweetRef w = Some (status doc))
        by (unfold statusOf; by rewrite Hdoc).
      assert (Hafter : statusOf tweetRef (written tweetRef (lockedDoc (serverTime w) doc) w)
                       = Some processing)
        by (unfold statusOf; by rewrite lookup_written).
      rewrite Hbefore, Hafter.
      split_and!.
      + intros [[= Hs]|[= Hs]]; rewrite Hs in Hfree; by destruct Hfree.
      + left. split; [|done]. intros [= Hs]. rewrite Hs in Hfree. by destruct Hfree.
      + done.
      + intros _. destruct Hfree as [Hs|Hs]; rewrite Hs; [by left|right].
        rewrite Hs in Hstatus. destruct Hstatus as (Hp0 & _ & side' & Hsweep' & Hover).
        split; [done|]. split; [done|].
        destruct (otherSide_cases side side') as [->| ->]; [congruence|].
        clear -Hsweep Hsweep'. by destruct side.
    - split_and!; try done; [by right|]. intros [Hno Hyes]. by rewrite Hyes in Hno. }
  split; [done|]. split; [done|]. split_and!.
  - intros side' Hfresh. destruct (decide (side' = side)) as [->|Hother].
    + exists served. split; [apply lockEvent_served|auto].
    + unfold served. rewrite lockEvent_later by done.
      apply Hlocks. by rewrite setPhase_other.
  - intros Hnot. constructor; [done|]. apply Hnever. by eapply Step_status.
  - intros Hscheduled.
    assert (Hside : phases side = Fresh).
    { unfold statusOf in Hscheduled. rewrite Hdoc in Hscheduled.
      injection Hscheduled as Hs. rewrite Hs in Hstatus.
      destruct Hstatus as (_ & Hnone & _). specialize (Hnone side).
      inversion Hstep as [| | budget used ? ? ? ? Hh | budget ? ? ? Hh]; try done.
      all: by rewrite <- Hh in Hnone. }
    specialize (Hserved Hside). rewrite Hside in Hstep.
    inversion Hstep as [doc' Hsweep Hdoc' Hfree Hw1 Hp' | Hrefused Hw1 Hp' | |]; subst.
    + exists side, served. split; [done|]. split; [apply lockEvent_served|].
      unfold takesLock. cbn [before after served]. split; [by rewrite Hscheduled|].
      unfold statusOf. by rewrite lookup_written.
    + destruct (Hsome Hscheduled) as (side' & e & Hfresh & He & Htakes).
      destruct (decide (side' = side)) as [->|Hother].
      { by rewrite setPhase_same in Hfresh. }
      exists side', e. rewrite setPhase_other in Hfresh by done.
      split; [done|]. split; [|done]. unfold served. by rewrite lockEvent_later.
  - intros side' e e' Hfresh Hfresh' He He' Htakes Htakes'.
    (* the operation served is the lock transaction of one of the two *)
    assert (Hlater : ∀ this that e_this e_that,
      this = side → that ≠ side → phases this = Fresh → phases that = Fresh →
      lockEvent this (served :: events) = Some e_this →
      lockEvent that (served :: events) = Some e_that →
      takesLock tweetRef e_this → takesLock tweetRef e_that →
      statusOf tweetRef (before e_that) = Some failed).
    { intros this that e_this e_that Hthis Hthat Hthis_fresh Hthat_fresh
        Hthis_event Hthat_event Hthis_takes Hthat_takes. subst this.
      unfold served in Hthis_event, Hthat_event.
      rewrite lockEvent_served in Hthis_event. injection Hthis_event as <-.
      rewrite lockEvent_later in Hthat_event by done.
      destruct (Hlocks that) as (e0 & He0 & Houtcome).
      { by rewrite setPhase_other. }
      rewrite Hthat_event in He0. injection He0 as <-.
      destruct Houtcome as (_ & _ & _ & Hwhen).
      destruct (Hwhen Hthat_takes) as [Hscheduled|[Hfailed _]]; [|done].
      exfalso.
      assert (Hafter : statusOf tweetRef w1 ≠ Some scheduled).
      { destruct Hthis_takes as [_ Hp]. cbn in Hp. by rewrite Hp. }
      specialize (Hnever Hafter).
      rewrite Forall_forall in Hnever.
      by apply (Hnever e_that (lockEvent_elem _ _ _ Hthat_event)). }
    destruct (decide (side' = side)) as [->|Hother].
    + right. eapply (Hlater side (otherSide side)); eauto using otherSide_ne.
    + left. destruct (otherSide_cases side side') as [Hsame|Hflipped]; [done|].
      subst side'.
      assert (Hflip : otherSide (otherSide side) = side) by by destruct side.
      rewrite Hflip in *.
      eapply (Hlater side (otherSide side)); eauto using otherSide_ne.
Qed.

Lemma Outcome_over phases w :
  Inv tweetRef author posts0 attempts phases w →
  (∀ side, phases side = Over) →
  Outcome tweetRef posts0 attempts phases w [] w.
Proof.
  intros (Hsweeps & doc & Hdoc & Hauthor & Hstatus) Hover.
  assert (Hend : (posts (calls w) ≤ posts0 + 1)%nat
                 ∧ (status doc = posted ∨ status doc = failed)).
  { destruct (status doc) eqn:Hs; try done.
    - destruct Hstatus as (_ & _ & Hfresh). destruct some_sweep as [side Hsweep].
      specialize (Hfresh side Hsweep). by rewrite Hover in Hfresh.
    - destruct Hstatus as (holder & budget & Hholder & _). by rewrite Hover in Hholder.
    - destruct Hstatus as [? _]. auto.
    - destruct Hstatus as [-> _]. split; [lia|auto]. }
  destruct Hend as [Hposts Hfinal].
  assert (Hstatus' : statusOf tweetRef w = Some (status doc))
    by (unfold statusOf; by rewrite Hdoc).
  split; [done|]. split.
  { rewrite Hstatus'. by destruct Hfinal as [-> | ->]; auto. }
  split_and!.
  - intros side Hfresh. by rewrite Hover in Hfresh.
  - by constructor.
  - rewrite Hstatus'. intros [= Hs]. rewrite Hs in Hfinal. by destruct Hfinal.
  - intros side e e' Hfresh. by rewrite Hover in Hfresh.
Qed.

(** Whatever the order in which the operations of the two attempts are
    served. *)
Lemma race_outcome schedule :
  ∀ (first : Routine (AttemptResult (attempts FirstAttempt)))
    (second : Routine (AttemptResult (attempts SecondAttempt)))
    phases w events r1 r2 w',
    inPhase TwitterApi tweetRef (attempts FirstAttempt) first (phases FirstAttempt) →
    inPhase TwitterApi tweetRef (attempts SecondAttempt) second (phases SecondAttempt) →
    Inv tweetRef author posts0 attempts phases w →
    interleave schedule first second w = Some (events, (r1, r2, w')) →
    Outcome tweetRef posts0 attempts phases w events w'
    ∧ turnedDown (attempts FirstAttempt) r1
    ∧ turnedDown (attempts SecondAttempt) r2.
Proof.
  induction schedule as [|side rest IH];
    intros first second phases w events r1 r2 w' Hfirst Hsecond HInv Hrun.
  - (* both attempts are over *)
    cbn in Hrun.
    destruct first as [ra|]; [|done]. destruct second as [rb|]; [|done].
    injection Hrun as <- <- <- <-.
    assert (Hover : ∀ attempt r phase,
      inPhase TwitterApi tweetRef attempt (Finished r) phase →
      phase = Over ∧ turnedDown attempt r).
    { intros attempt r [|budget|]; cbn.
      - intros Hfresh. symmetry in Hfresh. by apply attemptRoutine_awaits in Hfresh.
      - by intros [_ ?].
      - by intros (r' & [= <-] & ?). }
    destruct (Hover _ _ _ Hfirst) as [Hone Hra].
    destruct (Hover _ _ _ Hsecond) as [Htwo Hrb].
    split; [|done]. apply Outcome_over; [done|]. by intros [].
  - (* one more operation is served *)
    destruct side; cbn [interleave] in Hrun.
    + destruct (serve first w) as [[w1 first']|] eqn:Hserve; [|done].
      destruct (interleave rest first' second w1)
        as [[events' [[r1' r2'] w'']]|] eqn:Hrest; [|done].
      injection Hrun as <- <- <- <-.
      destruct (attempt_step FirstAttempt _ _ _ _ _ Hfirst HInv Hserve)
        as (phase' & Hfirst' & Hstep).
      pose proof (Inv_step _ _ _ _ _ HInv Hstep) as HInv'.
      destruct (IH first' second (setPhase FirstAttempt phase' phases) w1
                  events' r1' r2' w'') as (Houtcome & Hr1 & Hr2); try done.
      split; [|done]. by eapply Outcome_step.
    + destruct (serve second w) as [[w1 second']|] eqn:Hserve; [|done].
      destruct (interleave rest first second' w1)
        as [[events' [[r1' r2'] w'']]|] eqn:Hrest; [|done].
      injection Hrun as <- <- <- <-.
      destruct (attempt_step SecondAttempt _ _ _ _ _ Hsecond HInv Hserve)
        as (phase' & Hsecond' & Hstep).
      pose proof (Inv_step _ _ _ _ _ HInv Hstep) as HInv'.
      destruct (IH first second' (setPhase SecondAttempt phase' phases) w1
                  events' r1' r2' w'') as (Houtcome & Hr1 & Hr2); try done.
      split; [|done]. by eapply Outcome_step.
Qed.

End Race.

(** Every pair of routines can be run side by side: serving the first to its
    end and then the second is one way. *)
Lemma interleave_exists {A B} (first : Routine A) (second : Routine B) w :
  ∃ schedule outcome, interleave schedule first second w = Some outcome.
Proof.
  revert w. induction first as [ra|X operation continuation IH]; intros w.
  - induction second as [rb|X operation continuation IH] in w |- *.
    + by exists [], ([], (ra, rb, w)).
    + destruct (operation w) as [r w1] eqn:Hop.
      destruct (IH r w1) as (schedule & [events outcome] & Hrun).
      exists (SecondAttempt :: schedule). eexists. cbn. by rewrite Hop, Hrun.
  - destruct (operation w) as [r w1] eqn:Hop.
    destruct (IH r w1) as (schedule & [events outcome] & Hrun).
    exists (FirstAttempt :: schedule). eexists. cbn. by rewrite Hop, Hrun.
Qed.


End RaceFacts.

(** ** More on the bulk scheduler *)

Section BulkUploadMoreFacts.
Import BulkUpload BulkUploadSpec.

Variable services : Services.

Lemma checkEach_spec files maxSizeBytes errors :
  (Forall (acceptable maxSizeBytes) files
   ∧ checkEach files maxSizeBytes errors = errors)
  ∨ (¬ Forall (acceptable maxSizeBytes) files
     ∧ ∃ message, checkEach files maxSizeBytes errors = errors ++ [message]).
Proof.
  induction files as [|file rest IH]; [by left|].
  cbn [checkEach].
  destruct (String.prefix "image/" (type file)) eqn:Himage;
    destruct (String.prefix "video/" (type file)) eqn:Hvideo; cbn [negb andb].
  4:{ right. split; [|by eexists]. intros Hall. apply Forall_cons in Hall as [[[?|?] _] _];
      congruence. }
  all: destruct (Z.ltb_spec maxSizeBytes (size file)) as [Hbig|Hfits].
  all: try (right; split; [|by eexists]; intros Hall;
            apply Forall_cons in Hall as [[_ ?] _]; lia).
  all: destruct IH as [[Hall ->]|[Hnot Hmessage]];
    [left; split; [|done]; constructor; [|done]; split; [|done]; auto
    |right; split; [|done]; intros Hall; apply Forall_cons in Hall as [_ ?]; done].
Qed.

(** The validation accepts exactly the lists that are not empty, hold at most
    [maxCount] files, all of them images or videos of at most [maxSizeBytes];
    it reports at most three errors. *)
Theorem validateBulkUploadFiles_valid files maxCount maxSizeBytes :
  (valid (validateBulkUploadFiles files maxCount maxSizeBytes) = true
   ↔ files ≠ []
     ∧ Z.of_nat (length files) <= maxCount
     ∧ Forall (acceptable maxSizeBytes) files)
  ∧ (valid (validateBulkUploadFiles files maxCount maxSizeBytes) = true
     ↔ validation_errors (validateBulkUploadFiles files maxCount maxSizeBytes) = [])
  ∧ (length (validation_errors (validateBulkUploadFiles files maxCount maxSizeBytes))
     ≤ 3)%nat.
Proof.
  unfold validateBulkUploadFiles. cbv zeta. cbn [valid validation_errors].
  set (errors0 := if (length files =? 0)%nat
                  then [] ++ ["Please select at least one file"] else []).
  set (errors1 := if maxCount <? Z.of_nat (length files)
                  then errors0 ++ ["Maximum " +:+ pretty maxCount +:+ " files allowed"]
                  else errors0).
  assert (Hempty : (errors0 = [] ∧ files ≠ []) ∨ (length errors0 = 1%nat ∧ files = [])).
  { unfold errors0. destruct files; [by right|by left]. }
  assert (Hcount : (errors1 = errors0 ∧ Z.of_nat (length files) <= maxCount)
                   ∨ (length errors1 = S (length errors0)
                      ∧ ¬ Z.of_nat (length files) <= maxCount)).
  { unfold errors1. destruct (Z.ltb_spec maxCount (Z.of_nat (length files))).
    - right. rewrite length_app. cbn. split; lia.
    - by left. }
  clearbody errors0 errors1.
  assert (Hzero : ∀ l : list string, (length l =? 0)%nat = true ↔ l = []).
  { intros l. rewrite Nat.eqb_eq. by destruct l. }
  destruct (checkEach_spec files maxSizeBytes errors1) as [[Hall ->]|[Hnot [message ->]]].
  - split; [|split; [apply Hzero|]].
    + rewrite Hzero.
      destruct Hempty as [[-> ?]|[Hlen ->]], Hcount as [[-> ?]|[Hlen' ?]];
        split; try done; try (by intros (? & ? & ?)); intros ->; try done.
    + destruct Hempty as [[-> ?]|[Hlen ->]], Hcount as [[-> ?]|[Hlen' ?]];
        cbn in *; lia.
  - split; [|split; [apply Hzero|]].
    + rewrite Hzero. split; [by intros [_ [=]]%app_eq_nil|].
      by intros (? & ? & ?).
    + rewrite length_app.
      destruct Hempty as [[-> ?]|[Hlen ->]], Hcount as [[-> ?]|[Hlen' ?]];
        cbn in *; lia.
Qed.

(** [shuffleArray] returns a permutation of its argument: every element as
    often as before, none lost.  It draws one random number less than the
    array has elements and does nothing else. *)
Theorem shuffleArray_permutation {T} (array : list T) w :
  ∃ shuffled,
    shuffleArray services array w
    = (Ok shuffled,
       {| effects := effects w;
          randomCalls := (length array - 1 + randomCalls w)%nat |})
    ∧ shuffled ≡ₚ array
    ∧ length shuffled = length array.
Proof.
  unfold shuffleArray.
  destruct (shuffleFrom_spec services (length array - 1) array w)
    as (shuffled & Hrun & Hperm).
  exists shuffled. split_and!; [done|done|by rewrite Hperm].
Qed.

Lemma created_app es es' : created (es ++ es') = created es ++ created es'.
Proof. apply omap_app. Qed.

Lemma notify_returns_created onProgress progress w :
  returns onProgress →
  ∃ w', notify onProgress progress w = (Ok (), w')
        ∧ created (effects w') = created (effects w).
Proof.
  intros Hreturns. destruct onProgress as [callback|]; cbn [notify].
  - rewrite (Hreturns callback eq_refl). eexists. split; [done|].
    cbn. by rewrite created_app, app_nil_r.
  - by exists w.
Qed.

(** One turn of the loop creates at most the draft of its file. *)
Lemma schedule_attempt_created userId file draft w :
  ∃ caught w',
    tryCatch
      (let* media := uploadTweetMedia services userId file in
       createTweet services userId (draft media) ;;;
       ret None)
      (λ error, ret (Some error)) w
    = (Ok caught, w')
    ∧ (created (effects w') = created (effects w)
       ∨ ∃ uploaded, created (effects w') = created (effects w) ++ [draft uploaded]).
Proof.
  unfold tryCatch, bind, uploadTweetMedia, createTweet, ret.
  destruct (uploadTweetMedia_answer services (effects w) userId file) as [media|error].
  - destruct (createTweet_answer services _ userId (draft media)) as [[]|error];
      eexists _, _; (split; [done|]); right; exists media; cbn;
      by rewrite !created_app, app_nil_r.
  - eexists _, _. split; [done|]. left. cbn. by rewrite created_app, app_nil_r.
Qed.

Lemma scheduleEach_created onProgress options shuffledFilesLength shuffledSlots
    i rest completed failed errors w :
  returns onProgress →
  ∃ outcome w' drafts,
    scheduleEach services onProgress options shuffledFilesLength shuffledSlots
      i rest completed failed errors w
    = (Ok outcome, w')
    ∧ created (effects w') = created (effects w) ++ drafts
    ∧ Forall (bulkDraft options) drafts
    ∧ scheduledFor <$> drafts
      `sublist_of` (λ k, shuffledSlots !! k) <$> seq i (length rest).
Proof.
  intros Hreturns. revert i completed failed errors w.
  induction rest as [|file rest IH]; intros i completed failed errors w.
  { eexists _, w, []. cbn. rewrite app_nil_r. split_and!; [done|done|done|constructor]. }
  cbn [scheduleEach]. unfold bind at 1.
  destruct (notify_returns_created onProgress
    {| total := shuffledFilesLength; completed := completed;
       progress_failed := failed; currentFile := name file |} w Hreturns)
    as (w1 & -> & Hw1).
  unfold bind at 1.
  destruct (schedule_attempt_created (userId options) file
    (λ media, {| text := ""; scheduledFor := shuffledSlots !! i;
                 groupId := options_groupId options;
                 accountId := options_accountId options;
                 status := Some Functions.scheduled;
                 media := Some [media] |}) w1) as (caught & w2 & -> & Hw2).
  assert (Hnext : ∀ completed' failed' errors',
    ∃ outcome w' drafts,
      scheduleEach services onProgress options shuffledFilesLength shuffledSlots
        (S i) rest completed' failed' errors' w2
      = (Ok outcome, w')
      ∧ created (effects w') = created (effects w) ++ drafts
      ∧ Forall (bulkDraft options) drafts
      ∧ scheduledFor <$> drafts
        `sublist_of` (λ k, shuffledSlots !! k) <$> seq i (length (file :: rest))).
  { intros completed' failed' errors'.
    destruct (IH (S i) completed' failed' errors' w2)
      as (outcome & w' & drafts & Hrun & Hcreated & Hdrafts & Hslots).
    exists outcome, w'. cbn [length seq fmap list_fmap].
    destruct Hw2 as [Hw2|[uploaded Hw2]].
    - exists drafts. split_and!; [done|by rewrite Hcreated, Hw2, Hw1|done|].
      by apply sublist_cons.
    - eexists (_ :: drafts). split_and!; [done| | |].
      + by rewrite Hcreated, Hw2, Hw1, <- app_assoc.
      + constructor; [|done]. split_and!; try done. by exists uploaded.
      + cbn [fmap list_fmap scheduledFor]. by apply sublist_skip. }
  destruct caught; apply Hnext.
Qed.

Lemma lookups_all {A} (l : list A) :
  (λ k, l !! k) <$> seq 0 (length l) = Some <$> l.
Proof.
  apply list_eq. intros k. rewrite !list_lookup_fmap.
  destruct (decide (k < length l)%nat) as [Hlt|Hge].
  - rewrite lookup_seq_lt by done. cbn.
    destruct (lookup_lt_is_Some_2 l k Hlt) as [x Hx]. by rewrite Hx.
  - rewrite (lookup_ge_None_2 (seq 0 (length l))) by (rewrite length_seq; lia).
    by rewrite (lookup_ge_None_2 l) by lia.
Qed.

(** Every draft the bulk scheduler creates is an empty-text item in status
    [scheduled], for the group and account of the options, with one media
    attachment, at one of the first [files.length] slots; no slot is used
    more often than it is given, so distinct slots are never shared by two
    created items. *)
Theorem bulkScheduleTweets_drafts options onProgress result w w' :
  returns onProgress →
  bulkScheduleTweets services options onProgress w = (Ok result, w') →
  ∃ drafts,
    created (effects w') = created (effects w) ++ drafts
    ∧ Forall (bulkDraft options) drafts
    ∧ scheduledFor <$> drafts
      ⊆+ Some <$> take (length (files options)) (slots options)
    ∧ (NoDup (slots options) → NoDup (scheduledFor <$> drafts)).
Proof.
  intros Hreturns. unfold bulkScheduleTweets.
  destruct (length (files options) =? 0)%nat; [done|].
  destruct (length (slots options) <? length (files options))%nat eqn:Henough; [done|].
  apply Nat.ltb_ge in Henough.
  unfold bind at 1.
  destruct (shuffleFrom_spec services (length (files options) - 1) (files options) w)
    as (shuffledFiles & Hfiles & HpermFiles).
  unfold shuffleArray at 1. rewrite Hfiles.
  unfold bind at 1.
  set (w1 := {| effects := effects w;
                randomCalls := (length (files options) - 1 + randomCalls w)%nat |}).
  destruct (shuffleArray_spec services (take (length (files options)) (slots options)) w1)
    as (shuffledSlots & n2 & -> & HpermSlots).
  unfold bind at 1.
  destruct (scheduleEach_created onProgress options (length shuffledFiles) shuffledSlots
              0 shuffledFiles 0%nat 0%nat []
              {| effects := effects w1; randomCalls := n2 |} Hreturns)
    as ([[completed failed] errors] & w2 & drafts & -> & Hcreated & Hdrafts & Hslots).
  unfold bind.
  destruct (notify_returns_created onProgress
    {| total := length shuffledFiles; completed := completed;
       progress_failed := failed; currentFile := "" |} w2 Hreturns)
    as (w3 & -> & Hw3).
  intros [= _ <-]. exists drafts.
  assert (Hlength : length shuffledFiles = length shuffledSlots).
  { rewrite HpermFiles, HpermSlots, length_take. lia. }
  rewrite Hlength, lookups_all in Hslots.
  assert (Hsub : scheduledFor <$> drafts
                 ⊆+ Some <$> take (length (files options)) (slots options)).
  { rewrite <- HpermSlots. by apply sublist_submseteq. }
  split_and!; [by rewrite Hw3, Hcreated|done|done|].
  intros Hnodup. apply (sublist_NoDup _ (Some <$> shuffledSlots)); [|done].
  apply (NoDup_fmap_2 Some). rewrite HpermSlots.
  apply (sublist_NoDup _ (slots options)); [done|apply sublist_take].
Qed.

End BulkUploadMoreFacts.

(** ** The application credentials and provisioning *)

Section ProvisionFacts.
Import Functions Provision ProvisionSpec.

Lemma trimEnd_cons c rest :
  trimEnd (String c rest)
  = match trimEnd rest with
    | EmptyString => if isWhiteSpace c then EmptyString else String c EmptyString
    | rest' => String c rest'
    end.
Proof. reflexivity. Qed.

Lemma trimEnd_idem s : trimEnd (trimEnd s) = trimEnd s.
Proof.
  induction s as [|c rest IH]; [done|].
  rewrite trimEnd_cons. destruct (trimEnd rest) as [|c' rest'] eqn:Hrest.
  - destruct (isWhiteSpace c) eqn:Hc; [done|].
    rewrite trimEnd_cons. cbn [trimEnd]. by rewrite Hc.
  - rewrite trimEnd_cons, IH. done.
Qed.

Lemma trimStart_head s :
  trimStart s = "" ∨ ∃ c rest, trimStart s = String c rest ∧ isWhiteSpace c = false.
Proof.
  induction s as [|c rest IH]; [by left|].
  cbn [trimStart]. destruct (isWhiteSpace c) eqn:Hc; [done|].
  right. by exists c, rest.
Qed.

Lemma trimEnd_head c rest :
  isWhiteSpace c = false → ∃ rest', trimEnd (String c rest) = String c rest'.
Proof.
  intros Hc. rewrite trimEnd_cons. destruct (trimEnd rest) as [|c' rest'].
  - rewrite Hc. by eexists.
  - by eexists.
Qed.

Lemma trim_idem s : trim (trim s) = trim s.
Proof.
  unfold trim. destruct (trimStart_head s) as [->|(c & rest & -> & Hc)]; [done|].
  destruct (trimEnd_head c rest Hc) as [rest' Hrest'].
  rewrite Hrest'. cbn [trimStart]. rewrite Hc, <- Hrest'. apply trimEnd_idem.
Qed.

Lemma trim_empty : trim "" = "".
Proof. reflexivity. Qed.

(** [value && value.trim().length > 0] holds when the trimmed value is not
    empty. *)
Lemma nonblank_test value :
  truthy (Some value) && (0 <? String.length (trim value))%nat = true ↔ trim value ≠ "".
Proof.
  rewrite andb_true_iff, Nat.ltb_lt. unfold truthy. rewrite negb_true_iff. split.
  - intros [_ Hlen] Hempty. rewrite Hempty in Hlen. cbn in Hlen. lia.
  - intros Htrim. split.
    + apply String.eqb_neq. intros ->. by apply Htrim.
    + destruct (trim value); [done|]. cbn. lia.
Qed.

Lemma resolveTwitterCredential_spec environment envKey configKey :
  match Config.resolveTwitterCredential environment envKey configKey with
  | Some value => resolvedFrom (Config.env environment !! envKey) configKey value
  | None => blank (Config.env environment !! envKey) ∧ blank configKey
  end.
Proof.
  unfold Config.resolveTwitterCredential. cbv zeta.
  assert (Hconfig :
    match (match configKey with
           | Some configKey =>
               if truthy (Some configKey)
                  && (0 <? String.length (trim configKey))%nat
               then Some (trim configKey) else None
           | None => None
           end) with
    | Some value => value ≠ "" ∧ trim value = value
                    ∧ ¬ blank configKey ∧ trim <$> configKey = Some value
    | None => blank configKey
    end).
  { destruct configKey as [configKey|]; [|done].
    destruct (truthy (Some configKey) && _) eqn:Htest.
    - apply nonblank_test in Htest. by rewrite trim_idem.
    - cbn. apply not_true_iff_false in Htest. rewrite nonblank_test in Htest.
      by destruct (decide (trim configKey = "")). }
  destruct (Config.env environment !! envKey) as [value|].
  - destruct (truthy (Some value) && _) eqn:Htest.
    + apply nonblank_test in Htest. unfold resolvedFrom. rewrite trim_idem.
      split; [done|]. split; [done|]. by left.
    + apply not_true_iff_false in Htest. rewrite nonblank_test in Htest.
      assert (Hblank : trim value = "") by by destruct (decide (trim value = "")).
      destruct (match configKey with Some _ => _ | None => _ end) as [found|].
      * destruct Hconfig as (? & ? & ? & ?). unfold resolvedFrom.
        split; [done|]. split; [done|]. by right.
      * done.
  - destruct (match configKey with Some _ => _ | None => _ end) as [found|].
    + destruct Hconfig as (? & ? & ? & ?). unfold resolvedFrom.
      split; [done|]. split; [done|]. by right.
    + done.
Qed.

Lemma getTwitterAppConfig_spec environment :
  match Config.getTwitterAppConfig environment with
  | Ok appConfig =>
      resolvedFrom (Config.env environment !! "TWITTER_API_KEY")
        (Config.twitter_api_key environment) (Config.appKey appConfig)
      ∧ resolvedFrom (Config.env environment !! "TWITTER_API_SECRET")
          (Config.twitter_api_secret environment) (Config.appSecret appConfig)
  | Throw e =>
      e = JsError "Missing Twitter API configuration. TWITTER_API_KEY: Required, TWITTER_API_SECRET: Required"
      ∧ ((blank (Config.env environment !! "TWITTER_API_KEY")
          ∧ blank (Config.twitter_api_key environment))
         ∨ (blank (Config.env environment !! "TWITTER_API_SECRET")
            ∧ blank (Config.twitter_api_secret environment)))
  end.
Proof.
  unfold Config.getTwitterAppConfig. cbv zeta.
  pose proof (resolveTwitterCredential_spec environment "TWITTER_API_KEY"
                (Config.twitter_api_key environment)) as Hkey.
  pose proof (resolveTwitterCredential_spec environment "TWITTER_API_SECRET"
                (Config.twitter_api_secret environment)) as Hsecret.
  destruct (Config.resolveTwitterCredential environment "TWITTER_API_KEY" _)
    as [appKey|]; [|split; [done|by left]].
  destruct (Config.resolveTwitterCredential environment "TWITTER_API_SECRET" _)
    as [appSecret|]; [|split; [done|by right]].
  assert (Hk : truthy (Some appKey) = true).
  { unfold truthy. apply negb_true_iff, String.eqb_neq. by destruct Hkey. }
  assert (Hs : truthy (Some appSecret) = true).
  { unfold truthy. apply negb_true_iff, String.eqb_neq. by destruct Hsecret. }
  rewrite Hk, Hs. cbn. done.
Qed.

(** The application credentials the configuration returns are not empty and
    carry no white space around them; each comes from the environment
    variable when that is not blank, and from the runtime configuration
    otherwise.  The configuration throws exactly when, for the key or for the
    secret, both sources are blank. *)
Theorem getTwitterAppConfig_resolved environment :
  match Config.getTwitterAppConfig environment with
  | Ok appConfig =>
      resolvedFrom (Config.env environment !! "TWITTER_API_KEY")
        (Config.twitter_api_key environment) (Config.appKey appConfig)
      ∧ resolvedFrom (Config.env environment !! "TWITTER_API_SECRET")
          (Config.twitter_api_secret environment) (Config.appSecret appConfig)
  | Throw e =>
      e = JsError "Missing Twitter API configuration. TWITTER_API_KEY: Required, TWITTER_API_SECRET: Required"
      ∧ ((blank (Config.env environment !! "TWITTER_API_KEY")
          ∧ blank (Config.twitter_api_key environment))
         ∨ (blank (Config.env environment !! "TWITTER_API_SECRET")
            ∧ blank (Config.twitter_api_secret environment)))
  end.
Proof. apply getTwitterAppConfig_spec. Qed.

Variable backend : Backend.
Variable environment : Config.Environment.

(** What the [try] block leaves: both documents, or the group alone, or
    nothing. *)
Lemma provisionAttempt_spec ownerUid groupName accountDisplayName legacyData appConfig w :
  match provisionAttempt backend ownerUid groupName accountDisplayName
          legacyData appConfig w with
  | ((Some groupRef, Ok response), w') =>
      ∃ account,
        response_groupId response = groupRef
        ∧ groups w !! groupRef = None
        ∧ accounts w !! (groupRef, response_accountId response) = None
        ∧ groups w' = <[groupRef := {| group_name := groupName;
                                       group_ownerUid := ownerUid;
                                       group_createdAt := clock w |}]> (groups w)
        ∧ accounts w' = <[(groupRef, response_accountId response) := account]> (accounts w)
        ∧ twitterCredentials w' = twitterCredentials w
        ∧ provider account = "twitter"
        ∧ Functions.ownerUid account = ownerUid
        ∧ twitter account
          = Some {| appKey := Config.appKey appConfig;
                    appSecret := Config.appSecret appConfig;
                    accessToken := default "" (legacy_accessToken legacyData);
                    accessSecret := default "" (legacy_accessSecret legacyData) |}
  | ((None, Ok _), _) => False
  | ((None, Throw _), w') => w' = w
  | ((Some groupRef, Throw _), w') =>
      groups w !! groupRef = None
      ∧ w' = {| groups := <[groupRef := {| group_name := groupName;
                                           group_ownerUid := ownerUid;
                                           group_createdAt := clock w |}]> (groups w);
                accounts := accounts w;
                twitterCredentials := twitterCredentials w;
                clock := clock w + 1 |}
  end.
Proof.
  unfold provisionAttempt, addGroup.
  destruct (add_group backend w) as [groupRef|e]; [|done].
  destruct (groups w !! groupRef) eqn:Hgroup; [done|].
  unfold addAccount.
  match goal with |- context [add_account backend ?w1 groupRef] =>
    destruct (add_account backend w1 groupRef) as [accountRef|e] end; [|done].
  cbn [accounts].
  destruct (accounts w !! (groupRef, accountRef)) eqn:Haccount; [done|].
  eexists. cbn. split_and!; done.
Qed.

Lemma provisionRollback_spec groupRef error w :
  ∃ w', provisionRollback backend groupRef error w
        = (Throw (HttpsError internal
                    (messageOr "Unable to provision group and account." error)), w')
    ∧ match groupRef with
      | None => w' = w
      | Some groupRef =>
          (is_ok (delete_group backend w groupRef) = false ∧ w' = w)
          ∨ w' = {| groups := delete groupRef (groups w);
                    accounts := accounts w;
                    twitterCredentials := twitterCredentials w;
                    clock := clock w |}
      end.
Proof.
  unfold provisionRollback, bind, tryCatch, deleteGroup, throw, ret.
  destruct groupRef as [groupRef|]; [|by eexists].
  destruct (delete_group backend w groupRef) as [[]|e] eqn:Hdelete.
  - eexists. split; [done|]. by right.
  - eexists. split; [done|]. left. done.
Qed.

(** The callable turns a request down, in this order, for a caller who is
    not authenticated, for a group name that is missing, not a string or
    blank, for a caller without legacy credentials, for legacy credentials
    that lack a token, and for application credentials that are missing;
    each time with nothing written. *)
Theorem provisionLegacyTwitterAccount_rejects data context_auth w :
  match context_auth with
  | None =>
      provisionLegacyTwitterAccount backend environment data context_auth w
      = (Throw (HttpsError unauthenticated "Authentication is required."), w)
  | Some auth =>
      if String.eqb (groupNameOf data) "" then
        provisionLegacyTwitterAccount backend environment data context_auth w
        = (Throw (HttpsError invalid_argument "Group name is required."), w)
      else
        match twitterCredentials w !! uid auth with
        | None =>
            provisionLegacyTwitterAccount backend environment data context_auth w
            = (Throw (HttpsError failed_precondition
                        "No existing Twitter credentials found for this user."), w)
        | Some legacyData =>
            if negb (truthy (legacy_accessToken legacyData))
               || negb (truthy (legacy_accessSecret legacyData))
            then
              provisionLegacyTwitterAccount backend environment data context_auth w
              = (Throw (HttpsError failed_precondition
                          "Legacy Twitter credentials are incomplete."), w)
            else
              ∀ e, Config.getTwitterAppConfig environment = Throw e →
                provisionLegacyTwitterAccount backend environment data context_auth w
                = (Throw e, w)
        end
  end.
Proof.
  unfold provisionLegacyTwitterAccount, groupNameOf.
  destruct context_auth as [auth|]; [|done].
  destruct (String.eqb _ "") eqn:Hname; [done|].
  unfold bind, getLegacy.
  destruct (twitterCredentials w !! uid auth) as [legacyData|]; [|done].
  destruct (negb _ || negb _); [done|].
  intros e He. unfold liftResult. by rewrite He.
Qed.

(** A run of the callable that passes the checks either returns, with the
    group and the account created, or throws [internal]. *)
Lemma provisionLegacyTwitterAccount_cases data caller w :
  let run := provisionLegacyTwitterAccount backend environment data
               (Some {| uid := caller |}) w in
  (∃ e, run = (Throw e, w) ∧ ∀ message, e ≠ HttpsError internal message)
  ∨ ∃ legacyData appConfig,
      groupNameOf data ≠ ""
      ∧ twitterCredentials w !! caller = Some legacyData
      ∧ truthy (legacy_accessToken legacyData) = true
      ∧ truthy (legacy_accessSecret legacyData) = true
      ∧ Config.getTwitterAppConfig environment = Ok appConfig
      ∧ match provisionAttempt backend caller (groupNameOf data)
                (match accountDisplayName data with Some s => trim s | None => "" end)
                legacyData appConfig w with
        | ((_, Ok response), w') => run = (Ok response, w')
        | ((groupRef, Throw error), w') =>
            run = provisionRollback backend groupRef error w'
        end.
Proof.
  intros run. subst run.
  unfold provisionLegacyTwitterAccount. fold (groupNameOf data). cbn [uid].
  unfold bind, getLegacy, liftResult.
  destruct (String.eqb (groupNameOf data) "") eqn:Hname.
  { left. eexists. split; [done|]. done. }
  apply String.eqb_neq in Hname.
  destruct (twitterCredentials w !! caller) as [legacyData|] eqn:Hlegacy.
  2:{ left. eexists. split; [done|]. done. }
  destruct (truthy (legacy_accessToken legacyData)) eqn:Htoken.
  2:{ left. eexists. split; [done|]. done. }
  destruct (truthy (legacy_accessSecret legacyData)) eqn:Hsecret.
  2:{ left. eexists. split; [done|]. done. }
  cbn [negb orb].
  pose proof (getTwitterAppConfig_spec environment) as Hconfig.
  destruct (Config.getTwitterAppConfig environment) as [appConfig|e] eqn:Hget.
  2:{ left. eexists. split; [done|]. destruct Hconfig as [-> _]. done. }
  right. exists legacyData, appConfig. split_and!; try done.
  destruct (provisionAttempt _ _ _ _ _ _ _) as [[groupRef [response|error]] w']; done.
Qed.

(** A run of the callable that returns has created one group, owned by the
    caller and named as asked, and one account below it, both under
    identifiers that were free, and nothing else.  The account is one the
    publication paths accept: [fetchTwitterAccountCredentials] finds it, owned
    by the caller, with the tokens of the caller's legacy credentials and the
    application credentials of the configuration. *)
Theorem provisionLegacyTwitterAccount_success data caller response w w' :
  provisionLegacyTwitterAccount backend environment data (Some {| uid := caller |}) w
  = (Ok response, w') →
  ∃ legacyData account,
    groupNameOf data ≠ ""
    ∧ twitterCredentials w !! caller = Some legacyData
    ∧ groups w !! response_groupId response = None
    ∧ accounts w !! (response_groupId response, response_accountId response) = None
    ∧ groups w' = <[response_groupId response :=
                      {| group_name := groupNameOf data;
                         group_ownerUid := caller;
                         group_createdAt := clock w |}]> (groups w)
    ∧ accounts w' = <[(response_groupId response, response_accountId response) :=
                        account]> (accounts w)
    ∧ twitterCredentials w' = twitterCredentials w
    ∧ ∀ fw : World, socialAccounts fw = accounts w' →
        ∃ found,
          fetchTwitterAccountCredentials (response_groupId response)
            (response_accountId response) fw = (Ok (Some found), fw)
          ∧ account_ownerUid found = caller
          ∧ Some (accessToken (credentials found)) = legacy_accessToken legacyData
          ∧ Some (accessSecret (credentials found)) = legacy_accessSecret legacyData
          ∧ Config.getTwitterAppConfig environment
            = Ok {| Config.appKey := appKey (credentials found);
                    Config.appSecret := appSecret (credentials found) |}.
Proof.
  intros Hrun.
  destruct (provisionLegacyTwitterAccount_cases data caller w)
    as [(e & Hthrow & _)|(legacyData & appConfig & Hname & Hlegacy & Htoken & Hsecret
                          & Hconfig & Hattempt)].
  { rewrite Hrun in Hthrow. done. }
  pose proof (provisionAttempt_spec caller (groupNameOf data)
                (match accountDisplayName data with Some s => trim s | None => "" end)
                legacyData appConfig w) as Hspec.
  destruct (provisionAttempt _ _ _ _ _ _ _) as [[groupRef [response'|error]] w1].
  2:{ destruct (provisionRollback_spec groupRef error w1) as (w2 & Hroll & _).
      rewrite Hattempt, Hroll in Hrun. done. }
  rewrite Hattempt in Hrun. injection Hrun as -> ->.
  destruct groupRef as [groupRef|]; [|done].
  destruct Hspec as (account & <- & Hgroup & Haccount & Hgroups & Haccounts & Hkept
                     & Hprovider & Howner & Htwitter).
  exists legacyData, account. split_and!; try done.
  intros fw Hfw.
  pose proof (getTwitterAppConfig_spec environment) as Hresolved.
  rewrite Hconfig in Hresolved. destruct Hresolved as [(Hkey & _) (Hsec & _)].
  destruct (legacy_accessToken legacyData) as [token|] eqn:Htok; [|done].
  destruct (legacy_accessSecret legacyData) as [secret|] eqn:Hsecr; [|done].
  unfold fetchTwitterAccountCredentials.
  rewrite Hfw, Haccounts, lookup_insert_eq, Hprovider, Htwitter. cbn.
  unfold truthy in Htoken, Hsecret.
  apply String.eqb_neq in Hkey, Hsec. rewrite Hkey, Hsec.
  apply negb_true_iff in Htoken, Hsecret. rewrite Htoken, Hsecret. cbn.
  eexists. split; [done|]. cbn. split_and!; try done.
  by destruct appConfig.
Qed.

(** A run of the callable that throws has created no account and has left
    the legacy credentials alone.  It has left the groups as they were too,
    unless the account could not be created and the removal of the new group
    failed as well: then that one group stays, and the error is
    [internal]. *)
Theorem provisionLegacyTwitterAccount_failure data context_auth e w w' :
  provisionLegacyTwitterAccount backend environment data context_auth w
  = (Throw e, w') →
  accounts w' = accounts w
  ∧ twitterCredentials w' = twitterCredentials w
  ∧ (groups w' = groups w
     ∨ ∃ groupRef doc message,
         groups w !! groupRef = None
         ∧ groups w' = <[groupRef := doc]> (groups w)
         ∧ is_ok (delete_group backend w' groupRef) = false
         ∧ e = HttpsError internal message).
Proof.
  intros Hrun. destruct context_auth as [[caller]|].
  2:{ injection Hrun as <- <-. split_and!; try done. by left. }
  destruct (provisionLegacyTwitterAccount_cases data caller w)
    as [(e' & Hthrow & _)|(legacyData & appConfig & _ & _ & _ & _ & _ & Hattempt)].
  { rewrite Hrun in Hthrow. injection Hthrow as <- <-. split_and!; try done. by left. }
  pose proof (provisionAttempt_spec caller (groupNameOf data)
                (match accountDisplayName data with Some s => trim s | None => "" end)
                legacyData appConfig w) as Hspec.
  destruct (provisionAttempt _ _ _ _ _ _ _) as [[groupRef [response|error]] w1].
  { rewrite Hattempt in Hrun. done. }
  destruct (provisionRollback_spec groupRef error w1) as (w2 & Hroll & Hw2).
  rewrite Hattempt, Hroll in Hrun. injection Hrun as <- <-.
  destruct groupRef as [groupRef|].
  - destruct Hspec as [Hgroup ->]. cbn in Hw2.
    destruct Hw2 as [[Hdelete ->]| ->]; cbn.
    + split_and!; try done. right. by eexists groupRef, _, _.
    + split_and!; try done. left. by apply delete_insert_id.
  - subst. split_and!; try done. by left.
Qed.

End ProvisionFacts.

(** ** The media upload of the client *)

Section MediaServiceFacts.
Import MediaService.

Lemma split_last separator s :
  ∃ extension,
    last (split separator s) = Some extension
    ∧ includes separator extension = false
    ∧ (if includes separator s
       then (1 < length (split separator s))%nat
            ∧ ∃ stem, s = stem +:+ String separator extension
       else split separator s = [s]).
Proof.
  induction s as [|c rest IH].
  { exists "". done. }
  destruct IH as (extension & Hlast & Hclean & Hrest).
  cbn [split includes]. destruct (Ascii.eqb_spec c separator) as [->|Hc].
  - exists extension. cbn [orb]. split_and!.
    + destruct (split separator rest); done.
    + done.
    + destruct (split separator rest); [done|]. cbn. lia.
    + destruct (includes separator rest).
      * destruct Hrest as [_ [stem ->]]. by exists (String separator stem).
      * rewrite Hrest in Hlast. injection Hlast as <-. by exists "".
  - cbn [orb]. destruct (includes separator rest) eqn:Hincludes.
    + destruct Hrest as [Hlength [stem ->]].
      destruct (split separator _) as [|piece [|piece' pieces]]; try (cbn in Hlength; lia).
      exists extension. split_and!; [done|done|cbn; lia|by exists (String c stem)].
    + rewrite Hrest in *. injection Hlast as <-.
      exists (String c rest). split_and!; [done| |done].
      cbn [includes]. rewrite Hincludes.
      by destruct (Ascii.eqb_spec c separator).
Qed.

Lemma prefix_head a s1 b s2 :
  String.prefix (String a s1) (String b s2) = true → a = b.
Proof. cbn [String.prefix]. by destruct (ascii_dec a b). Qed.

(** The extension given to a stored object has no dot in it; it is what
    follows the last dot of the file name, and [bin] for a name without a
    dot. *)
Theorem safeExtension_after_last_dot name :
  includes "."%char (safeExtension name) = false
  ∧ if includes "."%char name
    then ∃ stem, name = stem +:+ "." +:+ safeExtension name
    else safeExtension name = "bin".
Proof.
  unfold safeExtension.
  destruct (split_last "."%char name) as (extension & Hlast & Hclean & Hname).
  rewrite Hlast. cbn [default].
  destruct (includes "."%char name); [|done].
  split; [done|]. by destruct Hname.
Qed.

Variable platform : Platform.

(** The media [uploadTweetMedia] returns was stored, once, under the path it
    names, which lies below the user's folder and is never empty; for a file
    the bulk validation accepts, its content type is not empty and its kind
    is [video] exactly for a video and [image] exactly for an image. *)
Theorem uploadTweetMedia_stored userId file uploaded w w' :
  uploadTweetMedia platform userId file w = (Ok uploaded, w') →
  BulkUpload.storagePath uploaded
  = "tweets/" +:+ userId +:+ "/" +:+ BulkUpload.id uploaded +:+ "."
    +:+ safeExtension (BulkUpload.name file)
  ∧ BulkUpload.storagePath uploaded ≠ ""
  ∧ objects w' = objects w ++ [(BulkUpload.storagePath uploaded, file)]
  ∧ uuidCalls w' = S (uuidCalls w)
  ∧ ∀ maxSizeBytes, BulkUploadSpec.acceptable maxSizeBytes file →
      BulkUpload.contentType uploaded ≠ ""
      ∧ (BulkUpload.mediaType uploaded = Functions.video
         ↔ String.prefix "video/" (BulkUpload.type file) = true)
      ∧ (BulkUpload.mediaType uploaded = Functions.image
         ↔ String.prefix "image/" (BulkUpload.type file) = true).
Proof.
  unfold uploadTweetMedia, bind, randomUUID, uploadBytes, getDownloadURL, ret.
  cbv zeta. cbn [objects uuidCalls].
  destruct (uploadBytes_answer platform _ _ _) as [[]|e]; [|done].
  destruct (getDownloadURL_answer platform _ _) as [downloadUrl|e]; [|done].
  intros [= <- <-]. cbn [BulkUpload.storagePath BulkUpload.id BulkUpload.contentType
                          BulkUpload.mediaType objects uuidCalls].
  split_and!; try done.
  intros maxSizeBytes [Hkind _]. unfold inferMediaType.
  destruct (BulkUpload.type file) as [|c rest] eqn:Htype.
  { by destruct Hkind. }
  split; [done|].
  destruct (String.prefix "video/" (String c rest)) eqn:Hvideo.
  - split; [done|]. split; [done|]. intros Himage.
    apply prefix_head in Hvideo, Himage. congruence.
  - split; [done|]. split; [|done]. intros _. by destruct Hkind.
Qed.

End MediaServiceFacts.

(** ** The further properties on example data *)

Lemma getNextScheduleSlot_finds_witness :
  ∃ slot,
    Schedule.getNextScheduleSlot Examples.existingTweets Examples.halfPastThree
    = Ok slot.
Proof.
  apply (getNextScheduleSlot_finds Examples.existingTweets Examples.halfPastThree).
  cbn. lia.
Defined.

Lemma getNextScheduleSlot_within_horizon_witness :
  Examples.halfPastThree < 7200000
  < Examples.halfPastThree + 365 * Schedule.MS_PER_DAY.
Proof.
  apply (getNextScheduleSlot_within_horizon Examples.existingTweets
           Examples.halfPastThree 7200000).
  vm_compute. reflexivity.
Defined.

Lemma getNextScheduleSlot_after_taking_witness :
  Schedule.getNextScheduleSlot (Examples.thirdTweet :: Examples.existingTweets)
    Examples.halfPastThree = Ok 10800000
  ∧ 7200000 < 10800000.
Proof.
  assert (Hsecond : Schedule.getNextScheduleSlot
                      (Examples.thirdTweet :: Examples.existingTweets)
                      Examples.halfPastThree = Ok 10800000)
    by (vm_compute; reflexivity).
  split; [exact Hsecond|].
  apply (getNextScheduleSlot_after_taking Examples.thirdTweet Examples.existingTweets
           Examples.halfPastThree 7200000 10800000).
  - vm_compute. reflexivity.
  - reflexivity.
  - exact Hsecond.
Defined.

Lemma getNextScheduleSlots_unfold_witness :
  Schedule.getNextScheduleSlot Examples.existingTweets Examples.halfPastThree
  = Ok 7200000
  ∧ Schedule.getNextScheduleSlots (Examples.thirdTweet :: Examples.existingTweets)
      1 Examples.halfPastThree
    = Ok [10800000].
Proof.
  apply (getNextScheduleSlots_unfold Examples.thirdTweet Examples.existingTweets 1
           Examples.halfPastThree 7200000 [10800000]).
  - reflexivity.
  - vm_compute. reflexivity.
Defined.

Lemma getNextScheduleSlots_nothing_asked_witness :
  Schedule.getNextScheduleSlots Examples.existingTweets (-3) Examples.halfPastThree
  = Ok [].
Proof.
  apply (getNextScheduleSlots_nothing_asked Examples.existingTweets (-3)
           Examples.halfPastThree).
  lia.
Defined.

Lemma getNextScheduleSlots_ordered_witness :
  StronglySorted Z.lt [7200000; 10800000; 14400000]
  ∧ Schedule.getNextScheduleSlots Examples.existingTweets 2 Examples.halfPastThree
    = Ok (take 2 [7200000; 10800000; 14400000]).
Proof.
  destruct (getNextScheduleSlots_ordered Examples.existingTweets 3 2
              Examples.halfPastThree [7200000; 10800000; 14400000])
    as (Hsorted & _ & Hprefix).
  - vm_compute. reflexivity.
  - split; [exact Hsorted|]. apply Hprefix. lia.
Defined.

Lemma getNextScheduleSlots_sixteen_a_day_witness :
  (length (filter (λ slot, Schedule.isSameDayInDubai slot Examples.halfPastThree = true)
             [7200000; 10800000; 14400000]%Z) ≤ 16)%nat.
Proof.
  apply (getNextScheduleSlots_sixteen_a_day Examples.existingTweets 3
           Examples.halfPastThree [7200000; 10800000; 14400000]
           Examples.halfPastThree).
  vm_compute. reflexivity.
Defined.

Lemma getNextScheduleSlot_today_witness :
  Schedule.isTodayInDubai 7200000 Examples.halfPastThree = true.
Proof.
  apply (getNextScheduleSlot_today Examples.existingTweets Examples.halfPastThree
           7200000).
  - vm_compute. reflexivity.
  - exists 6. split; [apply elem_of_SLOT_HOURS; lia|].
    split; [vm_compute; reflexivity|]. vm_compute. discriminate.
Defined.

Lemma publishTweetNow_rejects_witness :
  let w := Examples.worldOf (Examples.tweetOf Functions.manual None)
             Examples.withAccount in
  Functions.publishTweetNow Examples.obligingTwitterApi (Some "t1")
    (Some {| Functions.uid := "mallory" |}) w
  = (Throw (HttpsError permission_denied "You do not have access to this tweet."), w).
Proof.
  intros w.
  assert (Hother : Functions.authorUid (Examples.tweetOf Functions.manual None)
                   ≠ "mallory") by discriminate.
  exact (publishTweetNow_rejects Examples.obligingTwitterApi (Some "t1")
           (Some {| Functions.uid := "mallory" |}) w Hother).
Defined.

Lemma publishTweetNow_success_witness :
  let w := Examples.worldOf (Examples.tweetOf Functions.manual None)
             Examples.withAccount in
  let run := Functions.publishTweetNow Examples.obligingTwitterApi (Some "t1")
               (Some {| Functions.uid := "alice" |}) w in
  fst run = Ok {| Functions.success := true |}
  ∧ ∃ doc new,
      Functions.tweets w !! "t1" = Some doc
      ∧ Functions.status doc = Functions.manual
      ∧ FunctionsSpec.statusOf "t1" (snd run) = Some Functions.posted
      ∧ FunctionsSpec.posts new = 1%nat.
Proof.
  intros w run.
  assert (Hrun : run = (Ok {| Functions.success := true |}, snd run))
    by (vm_compute; reflexivity).
  split; [by rewrite Hrun|].
  destruct (publishTweetNow_success Examples.obligingTwitterApi "t1" "alice"
              {| Functions.success := true |} w (snd run) Hrun)
    as (doc & new & Hdoc & _ & Hstatus & _ & Hw' & Hposts).
  exists doc, new. split_and!; [exact Hdoc|exact Hstatus| |exact Hposts].
  rewrite Hw'. unfold FunctionsSpec.statusOf. cbn. by rewrite lookup_insert_eq.
Defined.


Lemma processTweetDocument_touchesOnly_witness :
  let doc := Examples.tweetOf Functions.queued None in
  let w := Examples.worldOf doc Examples.withAccount in
  FunctionsSpec.touchesOnly "t1" w
    (snd (Functions.processTweetDocument Examples.obligingTwitterApi "t1" doc w)).
Proof.
  intros doc w.
  apply (processTweetDocument_touchesOnly Examples.obligingTwitterApi "t1" doc doc w).
  reflexivity.
Defined.

Lemma processTweetDocument_without_account_witness :
  let doc := Examples.tweetOf Functions.scheduled None in
  let w := Examples.worldOf doc Examples.withForeignAccount in
  let w' := snd (Functions.processTweetDocument Examples.obligingTwitterApi "t1" doc w) in
  Functions.calls w' = Functions.calls w
  ∧ FunctionsSpec.statusOf "t1" w' = Some Functions.failed.
Proof.
  intros doc w w'.
  destruct (processTweetDocument_without_account Examples.obligingTwitterApi "t1" doc doc
              (Some {| Functions.account_ownerUid := "bob";
                       Functions.credentials :=
                         {| Functions.appKey := "k"; Functions.appSecret := "s";
                            Functions.accessToken := "t";
                            Functions.accessSecret := "u" |} |}) w)
    as [Hcalls Hfailed].
  - reflexivity.
  - reflexivity.
  - intros found [= <-]. discriminate.
  - split; [exact Hcalls|]. apply Hfailed; discriminate.
Defined.

Lemma publishTweetNow_without_account_witness :
  let doc := Examples.tweetOf Functions.manual None in
  let w := Examples.worldOf doc ∅ in
  Functions.calls
    (snd (Functions.publishTweetNow Examples.obligingTwitterApi (Some "t1")
            (Some {| Functions.uid := "alice" |}) w))
  = Functions.calls w.
Proof.
  intros doc w.
  apply (publishTweetNow_without_account Examples.obligingTwitterApi "t1" "alice" doc
           None w).
  - reflexivity.
  - reflexivity.
  - discriminate.
Defined.

Lemma bulkScheduleTweets_drafts_witness :
  let options := Examples.optionsOf
                   [Examples.picture "a.png"; Examples.picture "bad.png";
                    Examples.picture "c.png"]
                   [7200000; 10800000; 14400000] in
  let run := BulkUpload.bulkScheduleTweets Examples.someServices options None
               Examples.nothingYet in
  ∃ drafts,
    BulkUploadSpec.created (BulkUpload.effects (snd run)) = drafts
    ∧ Forall (BulkUploadSpec.bulkDraft options) drafts
    ∧ NoDup (BulkUpload.scheduledFor <$> drafts).
Proof.
  intros options run.
  destruct run as [[result|e] w'] eqn:Hrun.
  - destruct (bulkScheduleTweets_drafts Examples.someServices options None result
                Examples.nothingYet w')
      as (drafts & Hcreated & Hdrafts & _ & Hnodup).
    + intros callback Hcallback. discriminate Hcallback.
    + exact Hrun.
    + exists drafts. split_and!; [exact Hcreated|exact Hdrafts|].
      apply Hnodup. cbn. compute_done.
  - exfalso. vm_compute in Hrun. discriminate Hrun.
Defined.

Lemma provisionLegacyTwitterAccount_rejects_witness :
  Provision.provisionLegacyTwitterAccount Examples.obligingBackend
    Examples.emptyEnvironment Examples.teamRequest
    (Some {| Functions.uid := "alice" |}) Examples.legacyStore
  = (Throw (JsError "Missing Twitter API configuration. TWITTER_API_KEY: Required, TWITTER_API_SECRET: Required"),
     Examples.legacyStore).
Proof.
  assert (Hconfig : Config.getTwitterAppConfig Examples.emptyEnvironment
                    = Throw (JsError "Missing Twitter API configuration. TWITTER_API_KEY: Required, TWITTER_API_SECRET: Required"))
    by (vm_compute; reflexivity).
  exact (provisionLegacyTwitterAccount_rejects Examples.obligingBackend
           Examples.emptyEnvironment Examples.teamRequest
           (Some {| Functions.uid := "alice" |}) Examples.legacyStore _ Hconfig).
Defined.

Lemma provisionLegacyTwitterAccount_success_witness :
  let run := Provision.provisionLegacyTwitterAccount Examples.obligingBackend
               Examples.someEnvironment Examples.teamRequest
               (Some {| Functions.uid := "alice" |}) Examples.legacyStore in
  fst run = Ok {| Provision.response_groupId := "g9";
                  Provision.response_accountId := "a9" |}
  ∧ Provision.groups (snd run)
    = {[ "g9" := {| Provision.group_name := "Team";
                    Provision.group_ownerUid := "alice";
                    Provision.group_createdAt := 1000 |} ]}
  ∧ ∃ found,
      Functions.fetchTwitterAccountCredentials "g9" "a9"
        {| Functions.tweets := ∅;
           Functions.socialAccounts := Provision.accounts (snd run);
           Functions.bucket := ∅;
           Functions.serverTime := 0;
           Functions.calls := [] |}
      = (Ok (Some found),
         {| Functions.tweets := ∅;
            Functions.socialAccounts := Provision.accounts (snd run);
            Functions.bucket := ∅;
            Functions.serverTime := 0;
            Functions.calls := [] |})
      ∧ Functions.account_ownerUid found = "alice".
Proof.
  intros run.
  assert (Hrun : run = (Ok {| Provision.response_groupId := "g9";
                              Provision.response_accountId := "a9" |}, snd run))
    by (vm_compute; reflexivity).
  destruct (provisionLegacyTwitterAccount_success Examples.obligingBackend
              Examples.someEnvironment Examples.teamRequest "alice" _
              Examples.legacyStore (snd run) Hrun)
    as (legacyData & account & _ & _ & _ & _ & Hgroups & _ & _ & Hfetch).
  split; [by rewrite Hrun|]. split; [exact Hgroups|].
  destruct (Hfetch {| Functions.tweets := ∅;
                      Functions.socialAccounts := Provision.accounts (snd run);
                      Functions.bucket := ∅;
                      Functions.serverTime := 0;
                      Functions.calls := [] |} eq_refl)
    as (found & Hfound & Howner & _).
  exists found. split; [exact Hfound|exact Howner].
Defined.

Lemma provisionLegacyTwitterAccount_failure_witness :
  let run := Provision.provisionLegacyTwitterAccount Examples.brokenBackend
               Examples.someEnvironment Examples.teamRequest
               (Some {| Functions.uid := "alice" |}) Examples.legacyStore in
  fst run = Throw (HttpsError internal "unavailable")
  ∧ Provision.accounts (snd run) = Provision.accounts Examples.legacyStore
  ∧ Provision.twitterCredentials (snd run)
    = Provision.twitterCredentials Examples.legacyStore.
Proof.
  intros run.
  assert (Hrun : run = (Throw (HttpsError internal "unavailable"), snd run))
    by (vm_compute; reflexivity).
  destruct (provisionLegacyTwitterAccount_failure Examples.brokenBackend
              Examples.someEnvironment Examples.teamRequest
              (Some {| Functions.uid := "alice" |}) _
              Examples.legacyStore (snd run) Hrun)
    as (Haccounts & Hlegacy & _).
  split; [by rewrite Hrun|]. split; [exact Haccounts|exact Hlegacy].
Defined.

Lemma uploadTweetMedia_stored_witness :
  let w := {| MediaService.objects := []; MediaService.uuidCalls := 0 |} in
  let run := MediaService.uploadTweetMedia Examples.obligingPlatform "alice"
               Examples.holidayPicture w in
  ∃ uploaded,
    fst run = Ok uploaded
    ∧ BulkUpload.storagePath uploaded = "tweets/alice/uuid-0.png"
    ∧ MediaService.objects (snd run)
      = [(BulkUpload.storagePath uploaded, Examples.holidayPicture)]
    ∧ BulkUpload.mediaType uploaded = Functions.image.
Proof.
  intros w run.
  destruct run as [[uploaded|e] w'] eqn:Hrun.
  - destruct (uploadTweetMedia_stored Examples.obligingPlatform "alice"
                Examples.holidayPicture uploaded w w' Hrun)
      as (Hpath & _ & Hobjects & _ & Hkind).
    exists uploaded. split; [done|]. split.
    + rewrite Hpath. vm_compute in Hrun. injection Hrun as <- _. reflexivity.
    + split; [exact Hobjects|].
      destruct (Hkind 4096) as (_ & _ & Himage).
      { split; [by left | vm_compute; discriminate]. }
      by apply Himage.
  - exfalso. vm_compute in Hrun. discriminate Hrun.
Defined.

(** ** Two attempts on one item, on example data *)


